(** * Visitor analytics (convex/stats.ts) and the raw-markdown function
      (netlify/functions/raw.js): a shallow embedding and its properties.

    The Convex document store is modelled by explicit state passing.  A table
    is the list of its documents in creation order (the order in which a scan
    without index returns them, and the tie-break order of every index); the
    system field [_id] is a natural number drawn from a counter of the store.
    [Date.now()] is an argument [now : Z] of every handler (milliseconds). *)

From Stdlib Require Import ZArith Lia Ascii.
From stdpp Require Import base option list gmap sets strings sorting.

(* [set_solver] clears hypotheses by name; the warning is harmless. *)
Set Warnings "-clear-no-such-hyp".

Local Open Scope string_scope.
Local Open Scope list_scope.
Local Open Scope Z_scope.

(** ** Constants of stats.ts *)

Definition DEDUP_WINDOW_MS : Z := 30 * 60 * 1000.
Definition SESSION_TIMEOUT_MS : Z := 2 * 60 * 1000.
Definition HEARTBEAT_DEDUP_MS : Z := 10 * 1000.

(** ** Documents *)

Definition Id := nat.

Module PageView.
Record t := mk {
  _id : Id;
  path : string;
  pageType : string;
  sessionId : string;
  timestamp : Z
}.
End PageView.

Module ActiveSession.
Record t := mk {
  _id : Id;
  sessionId : string;
  currentPath : string;
  lastSeen : Z
}.

(** The fields written by [ctx.db.patch(id, {currentPath, lastSeen})]. *)
Definition patched (p : string) (now : Z) (r : t) : t :=
  mk (_id r) (sessionId r) p now.
End ActiveSession.

Module Content.
(** A row of the [posts] or of the [pages] table, as far as stats.ts
    reads it. *)
Record t := mk {
  slug : string;
  title : string;
  published : bool
}.
End Content.

(** ** The aggregate component

    [TableAggregate] of the library @convex-dev/aggregate keeps one item per
    (key, id) of a document; the namespace of [pageViewsByPath] is kept as
    the first part of its key.  [insertIfDoesNotExist] adds the item of a
    document unless that item is present (insert-if-absent, keyed by the
    identity of the event). *)

Section TableAggregate.
Context {K : Type} `{Countable K}.
Variable sortKey : PageView.t → K.

Definition item (doc : PageView.t) : K * Id :=
  (sortKey doc, PageView._id doc).

Definition insertIfDoesNotExist (doc : PageView.t) (agg : gset (K * Id))
  : gset (K * Id) :=
  if decide (item doc ∈ agg) then agg else {[ item doc ]} ∪ agg.
End TableAggregate.

Definition byPathKey (doc : PageView.t) : string * Z :=
  (PageView.path doc, PageView.timestamp doc).
Definition totalKey (doc : PageView.t) : () := ().
Definition visitorKey (doc : PageView.t) : string := PageView.sessionId doc.

(** ** The store *)

Record Store := mkStore {
  pageViews : list PageView.t;
  activeSessions : list ActiveSession.t;
  posts : list Content.t;
  pages : list Content.t;
  pageViewsByPath : gset ((string * Z) * Id);
  totalPageViews : gset (() * Id);
  uniqueVisitors : gset (string * Id);
  nextId : Id
}.

Definition emptyStore : Store := mkStore [] [] [] [] ∅ ∅ ∅ 0%nat.

Definition with_pageViews (s : Store) (pvs : list PageView.t) (n : Id) : Store :=
  mkStore pvs (activeSessions s) (posts s) (pages s)
          (pageViewsByPath s) (totalPageViews s) (uniqueVisitors s) n.

Definition with_activeSessions (s : Store) (rows : list ActiveSession.t) (n : Id)
  : Store :=
  mkStore (pageViews s) rows (posts s) (pages s)
          (pageViewsByPath s) (totalPageViews s) (uniqueVisitors s) n.

Definition with_aggregates (s : Store)
    (a : gset ((string * Z) * Id)) (b : gset (() * Id)) (c : gset (string * Id))
  : Store :=
  mkStore (pageViews s) (activeSessions s) (posts s) (pages s) a b c (nextId s).

(** ** Database primitives *)

(** [ctx.db.insert("pageViews", fields)]: the new document gets the next id
    and is the most recently created one. *)
Definition db_insert_pageView (p pt sid : string) (ts : Z) (s : Store)
  : Id * Store :=
  let id := nextId s in
  (id, with_pageViews s (pageViews s ++ [PageView.mk id p pt sid ts]) (S id)).

(** [ctx.db.get(id)] on the pageViews table. *)
Definition db_get_pageView (id : Id) (s : Store) : option PageView.t :=
  head (filter (λ d, PageView._id d = id) (pageViews s)).

Definition db_insert_activeSession (sid p : string) (ts : Z) (s : Store)
  : Id * Store :=
  let id := nextId s in
  (id, with_activeSessions s
         (activeSessions s ++ [ActiveSession.mk id sid p ts]) (S id)).

(** [ctx.db.patch(id, {currentPath, lastSeen})]. *)
Definition db_patch_activeSession (id : Id) (p : string) (now : Z) (s : Store)
  : Store :=
  with_activeSessions s
    ((λ r, if decide (ActiveSession._id r = id)
           then ActiveSession.patched p now r else r) <$> activeSessions s)
    (nextId s).

(** [ctx.db.delete(id)] on the activeSessions table. *)
Definition db_delete_activeSession (id : Id) (s : Store) : Store :=
  with_activeSessions s
    (filter (λ r, ActiveSession._id r ≠ id) (activeSessions s)) (nextId s).

(** ** Index ranges *)

(** Modelled from the spec: convex/schema.ts, which declares the indexes, is
    not among the sources.  The spec has recordPageView look up "the most
    recent event for (sessionId, path)" and getStats return "the earliest
    event timestamp"; accordingly an index is taken to be on the fields its
    name and its range expression give ([by_session_path] on sessionId then
    path, [by_sessionId] on sessionId, [by_lastSeen] on lastSeen,
    [by_timestamp] on timestamp), with creation order breaking ties, as
    Convex does for every index.  The range of [by_session_path] with both
    fields fixed, in ascending index order. *)
Definition by_session_path (sid p : string) (pvs : list PageView.t)
  : list PageView.t :=
  filter (λ d, PageView.sessionId d = sid ∧ PageView.path d = p) pvs.

(** The documents in the range of [by_session_path] with only the session
    fixed.  The index orders them by path; they are listed here in creation
    order, since the handler only tests whether the range is empty. *)
Definition by_session (sid : string) (pvs : list PageView.t) : list PageView.t :=
  filter (λ d, PageView.sessionId d = sid) pvs.

(** The range of [by_sessionId] for one session, in ascending index order. *)
Definition by_sessionId (sid : string) (rows : list ActiveSession.t)
  : list ActiveSession.t :=
  filter (λ r, ActiveSession.sessionId r = sid) rows.

(** The rows of the ranges [gt("lastSeen", c)] and [lt("lastSeen", c)] of
    [by_lastSeen].  The index orders them by lastSeen; they are listed in
    creation order, since the handlers use the rows as a collection. *)
Definition by_lastSeen_gt (c : Z) (rows : list ActiveSession.t)
  : list ActiveSession.t :=
  filter (λ r, c < ActiveSession.lastSeen r) rows.

Definition by_lastSeen_lt (c : Z) (rows : list ActiveSession.t)
  : list ActiveSession.t :=
  filter (λ r, ActiveSession.lastSeen r < c) rows.

(** The first document of [by_timestamp] in ascending order: the least
    timestamp, the earliest created among equal ones. *)
Fixpoint by_timestamp_first (pvs : list PageView.t) : option PageView.t :=
  match pvs with
  | [] => None
  | d :: rest =>
      match by_timestamp_first rest with
      | Some e =>
          if decide (PageView.timestamp e < PageView.timestamp d)
          then Some e else Some d
      | None => Some d
      end
  end.

(** ** recordPageView *)

Definition recentView (sid p : string) (s : Store) : option PageView.t :=
  last (by_session_path sid p (pageViews s)).

Definition existingSessionView (sid : string) (s : Store) : option PageView.t :=
  head (by_session sid (pageViews s)).

Definition update_aggregates (isNewVisitor : bool) (doc : PageView.t) (s : Store)
  : Store :=
  with_aggregates s
    (insertIfDoesNotExist byPathKey doc (pageViewsByPath s))
    (insertIfDoesNotExist totalKey doc (totalPageViews s))
    (if isNewVisitor
     then insertIfDoesNotExist visitorKey doc (uniqueVisitors s)
     else uniqueVisitors s).

(** [!existingSessionView] *)
Definition isNewVisitor (sid : string) (s : Store) : bool :=
  match existingSessionView sid s with Some _ => false | None => true end.

(** The truthiness test [recentView && recentView.timestamp > dedupCutoff]. *)
Definition viewedRecently (dedupCutoff : Z) (v : option PageView.t) : bool :=
  match v with
  | Some d => bool_decide (dedupCutoff < PageView.timestamp d)
  | None => false
  end.

Definition recordPageView (now : Z) (p pt sid : string) (s : Store) : Store :=
  let dedupCutoff := now - DEDUP_WINDOW_MS in
  if viewedRecently dedupCutoff (recentView sid p s) then s
  else
    let isNew := isNewVisitor sid s in
    let '(id, s1) := db_insert_pageView p pt sid now s in
    match db_get_pageView id s1 with
    | Some doc => update_aggregates isNew doc s1
    | None => s1
    end.

(** ** heartbeat *)

Definition heartbeat (now : Z) (sid p : string) (s : Store) : Store :=
  match head (by_sessionId sid (activeSessions s)) with
  | Some existingSession =>
      if decide (ActiveSession.currentPath existingSession = p
                 ∧ now - ActiveSession.lastSeen existingSession
                   < HEARTBEAT_DEDUP_MS)
      then s
      else db_patch_activeSession (ActiveSession._id existingSession) p now s
  | None => snd (db_insert_activeSession sid p now s)
  end.

(** ** cleanupStaleSessions *)

Definition staleSessions (now : Z) (s : Store) : list ActiveSession.t :=
  by_lastSeen_lt (now - SESSION_TIMEOUT_MS) (activeSessions s).

(** The deletions of [Promise.all(staleSessions.map(...))], one after the
    other; the result is the store and the returned count. *)
Definition cleanupStaleSessions (now : Z) (s : Store) : Store * nat :=
  let stale := staleSessions now s in
  (foldl (λ acc session,
            db_delete_activeSession (ActiveSession._id session) acc) s stale,
   length stale).

(** ** backfillAggregates *)

Record BackfillState := mkBackfill {
  bf_store : Store;
  seenSessions : gset string;
  uniqueCount : nat
}.

(** One iteration of the loop over [allViews]. *)
Definition backfill_step (st : BackfillState) (doc : PageView.t)
  : BackfillState :=
  let s := bf_store st in
  let a := insertIfDoesNotExist byPathKey doc (pageViewsByPath s) in
  let b := insertIfDoesNotExist totalKey doc (totalPageViews s) in
  if decide (PageView.sessionId doc ∈ seenSessions st)
  then mkBackfill (with_aggregates s a b (uniqueVisitors s))
                  (seenSessions st) (uniqueCount st)
  else mkBackfill
         (with_aggregates s a b
            (insertIfDoesNotExist visitorKey doc (uniqueVisitors s)))
         ({[ PageView.sessionId doc ]} ∪ seenSessions st)
         (S (uniqueCount st)).

Record BackfillResult := mkBackfillResult {
  processed : nat;
  uniqueSessions : nat
}.

Definition backfillAggregates (s : Store) : Store * BackfillResult :=
  let allViews := pageViews s in
  let st := foldl backfill_step (mkBackfill s ∅ 0%nat) allViews in
  (bf_store st, mkBackfillResult (length allViews) (uniqueCount st)).

(** ** getStats *)

Module Stats.
(** What the handler of getStats computes before it returns (stats.ts:194-246):
    the six figures and the two counting maps, the maps as they are when no
    key reads an inherited property of the counting object.  The query
    itself, with the two arrays and the validation of the returned object,
    is [getStats_handler] below. *)
Record t := mk {
  activeVisitors : nat;
  activeByPathMap : gmap string nat;
  totalPageViews : nat;
  uniqueVisitors : nat;
  publishedPosts : nat;
  publishedPages : nat;
  trackingSince : option Z;
  pathCountsFromDb : gmap string nat
}.
End Stats.

(** [m[k] = (m[k] || 0) + 1] for each key of the list. *)
Definition count_keys (ks : list string) : gmap string nat :=
  foldl (λ m k, <[ k := S (default 0%nat (m !! k)) ]> m) ∅ ks.

Definition published_rows (rows : list Content.t) : list Content.t :=
  filter (λ r, Content.published r = true) rows.

Definition activeNow (now : Z) (s : Store) : list ActiveSession.t :=
  by_lastSeen_gt (now - SESSION_TIMEOUT_MS) (activeSessions s).

Definition getStats (now : Z) (s : Store) : Stats.t :=
  let active := activeNow now s in
  let allPageViews := pageViews s in
  let uniqueSessions : gset string :=
    list_to_set (PageView.sessionId <$> allPageViews) in
  Stats.mk
    (length active)
    (count_keys (ActiveSession.currentPath <$> active))
    (length allPageViews)
    (size uniqueSessions)
    (length (published_rows (posts s)))
    (length (published_rows (pages s)))
    (PageView.timestamp <$> by_timestamp_first allPageViews)
    (count_keys (PageView.path <$> allPageViews)).

(** ** Sequences of calls *)

Inductive Operation :=
| RecordPageView (path pageType sessionId : string)
| Heartbeat (sessionId currentPath : string)
| GetStats
| CleanupStaleSessions
| BackfillAggregates.

Record Call := mkCall { at_time : Z; operation : Operation }.

(** The store after one call; a query leaves it as it is. *)
Definition exec (c : Call) (s : Store) : Store :=
  let now := at_time c in
  match operation c with
  | RecordPageView p pt sid => recordPageView now p pt sid s
  | Heartbeat sid p => heartbeat now sid p s
  | GetStats => s
  | CleanupStaleSessions => fst (cleanupStaleSessions now s)
  | BackfillAggregates => fst (backfillAggregates s)
  end.

Definition run (calls : list Call) (s : Store) : Store :=
  foldl (λ acc c, exec c acc) s calls.

(** The clock never goes back from one call to the next, starting at [t]. *)
Fixpoint clock_from (t : Z) (calls : list Call) : Prop :=
  match calls with
  | [] => True
  | c :: rest => t ≤ at_time c ∧ clock_from (at_time c) rest
  end.

Definition nondecreasing_clock (calls : list Call) : Prop :=
  match calls with
  | [] => True
  | c :: rest => clock_from (at_time c) rest
  end.

(** ** Predicates used in the statements *)

Definition newView (s : Store) (now : Z) (p pt sid : string) : PageView.t :=
  PageView.mk (nextId s) p pt sid now.

Definition same_pair (sid p : string) (d : PageView.t) : Prop :=
  PageView.sessionId d = sid ∧ PageView.path d = p.

(** [v] is the most recently created view of [(sid, p)] in [pvs]. *)
Definition most_recent (sid p : string) (pvs : list PageView.t) (v : PageView.t)
  : Prop :=
  ∃ older newer,
    pvs = older ++ v :: newer ∧ same_pair sid p v
    ∧ Forall (λ d, ¬ same_pair sid p d) newer.

Definition no_view (sid p : string) (pvs : list PageView.t) : Prop :=
  Forall (λ d, ¬ same_pair sid p d) pvs.

(** The ids and the sessions of the rows of activeSessions, in table order. *)
Definition row_ids (s : Store) : list Id :=
  ActiveSession._id <$> activeSessions s.

Definition row_sessions (s : Store) : list string :=
  ActiveSession.sessionId <$> activeSessions s.

(** The rows after [heartbeat] has patched the row of [sid]. *)
Definition touch (sid p : string) (now : Z) (rows : list ActiveSession.t)
  : list ActiveSession.t :=
  (λ x, if decide (ActiveSession.sessionId x = sid)
        then ActiveSession.patched p now x else x) <$> rows.

(** The views that are the first of their session, given the sessions
    already seen: the documents the loop hands to [uniqueVisitors]. *)
Fixpoint first_views (seen : gset string) (pvs : list PageView.t)
  : list PageView.t :=
  match pvs with
  | [] => []
  | d :: rest =>
      if decide (PageView.sessionId d ∈ seen) then first_views seen rest
      else d :: first_views ({[ PageView.sessionId d ]} ∪ seen) rest
  end.

Definition items {K} `{Countable K} (sortKey : PageView.t → K)
    (docs : list PageView.t) : gset (K * Id) :=
  list_to_set (item sortKey <$> docs).

(** Every stored id was drawn from the counter. *)
Definition ids_fresh (s : Store) : Prop :=
  Forall (λ d, (PageView._id d < nextId s)%nat) (pageViews s)
  ∧ Forall (λ r, (ActiveSession._id r < nextId s)%nat) (activeSessions s).

(** Views of one pair are at least a dedup window apart, in creation
    order. *)
Definition spaced (pvs : list PageView.t) : Prop :=
  ∀ i j d e,
    (i < j)%nat → pvs !! i = Some d → pvs !! j = Some e →
    PageView.sessionId d = PageView.sessionId e →
    PageView.path d = PageView.path e →
    DEDUP_WINDOW_MS ≤ PageView.timestamp e - PageView.timestamp d.

(** The uniqueVisitors aggregate holds the first view of every session. *)
Definition visitors_are_first_views (s : Store) : Prop :=
  uniqueVisitors s = items visitorKey (first_views ∅ (pageViews s)).

Record store_wf (s : Store) : Prop := mk_store_wf {
  wf_ids : ids_fresh s;
  wf_row_ids : NoDup (row_ids s);
  wf_row_sessions : NoDup (row_sessions s);
  wf_spaced : spaced (pageViews s);
  wf_visitors : visitors_are_first_views s
}.

(** [d] is the first view of session [sid] in creation order. *)
Definition first_view_of (sid : string) (pvs : list PageView.t) (d : PageView.t)
  : Prop :=
  ∃ earlier later,
    pvs = earlier ++ d :: later ∧ PageView.sessionId d = sid
    ∧ Forall (λ e, PageView.sessionId e ≠ sid) earlier.

(** ** Example stores and call sequences *)

Definition two_sessions : Store :=
  heartbeat 200000 "s2" "/b" (heartbeat 0 "s1" "/a" emptyStore).

Definition two_views_at_the_boundary : list Call :=
  [ mkCall 0 (RecordPageView "/a" "post" "s1");
    mkCall 5 (Heartbeat "s1" "/a");
    mkCall 600000 (RecordPageView "/a" "post" "s1");
    mkCall 1800000 (RecordPageView "/a" "post" "s1");
    mkCall 1800000 CleanupStaleSessions ].

Definition heartbeats_and_cleanup : list Call :=
  [ mkCall 0 (Heartbeat "s1" "/a");
    mkCall 20000 (Heartbeat "s1" "/b");
    mkCall 20000 (Heartbeat "s2" "/a");
    mkCall 130000 CleanupStaleSessions;
    mkCall 130000 (Heartbeat "s1" "/a") ].

Definition one_session_three_paths : list Call :=
  [ mkCall 0 (RecordPageView "/a" "post" "s1");
    mkCall 1000 (RecordPageView "/b" "post" "s1");
    mkCall 2000 (RecordPageView "/c" "page" "s1");
    mkCall 2000000 (RecordPageView "/a" "post" "s1");
    mkCall 2000000 BackfillAggregates ].

(** ** Further predicates on the store *)

(** The ids of the stored views, in creation order. *)
Definition view_ids (s : Store) : list Id := PageView._id <$> pageViews s.

(** No id is used twice, in either table, and the two aggregates that take
    every view hold exactly the items of the stored views. *)
Record aggregates_in_step (s : Store) : Prop := mk_aggregates_in_step {
  ids_distinct : NoDup (view_ids s ++ row_ids s);
  byPath_in_step : pageViewsByPath s = items byPathKey (pageViews s);
  total_in_step : totalPageViews s = items totalKey (pageViews s)
}.

(** ** The two arrays of getStats

    [activeByPath] and [pageStats] are built from two objects used as maps
    from a path to a count.  An object is modelled by its own properties in
    creation order.  A key that names a property every object inherits
    ("constructor", "toString", "__proto__", ...) would read the inherited
    value in [m[k] || 0]; the model is for keys that name none, as every
    path that starts with "/" does. *)

Definition JsObject := list (string * nat).

(** [o[k]] *)
Fixpoint obj_get (o : JsObject) (k : string) : option nat :=
  match o with
  | [] => None
  | (k', v) :: rest => if decide (k' = k) then Some v else obj_get rest k
  end.

(** [o[k] = v]: the property keeps its place when it exists and is created
    last otherwise. *)
Fixpoint obj_set (k : string) (v : nat) (o : JsObject) : JsObject :=
  match o with
  | [] => [(k, v)]
  | (k', v') :: rest =>
      if decide (k' = k) then (k, v) :: rest else (k', v') :: obj_set k v rest
  end.

(** The loop [for (const x of xs) m[key] = (m[key] || 0) + 1] over the keys
    of the elements. *)
Definition obj_count (ks : list string) : JsObject :=
  foldl (λ o k, obj_set k (S (default 0%nat (obj_get o k))) o) [] ks.

(** A stable sort: [before a b] holds when the comparator does not put [b]
    before [a]; elements that compare equal keep their order. *)
Fixpoint insert_sorted {A} (before : A → A → bool) (x : A) (l : list A)
  : list A :=
  match l with
  | [] => [x]
  | y :: rest =>
      if before x y then x :: l else y :: insert_sorted before x rest
  end.

Definition stable_sort {A} (before : A → A → bool) (l : list A) : list A :=
  foldr (insert_sorted before) [] l.

Definition digitValue (a : Ascii.ascii) : option N :=
  let n := Ascii.N_of_ascii a in
  if ((48 <=? n) && (n <=? 57))%N then Some (n - 48)%N else None.

Fixpoint digitsValue (acc : N) (k : string) : option N :=
  match k with
  | EmptyString => Some acc
  | String a rest =>
      match digitValue a with
      | Some d => digitsValue (10 * acc + d)%N rest
      | None => None
      end
  end.

(** The array index a key is, if any: the decimal numeral, without a leading
    zero, of an integer from 0 to 2^32 - 2. *)
Definition arrayIndex (k : string) : option N :=
  match k with
  | EmptyString => None
  | String a rest =>
      if bool_decide (a = "0"%char ∧ rest ≠ EmptyString) then None
      else match digitsValue 0 k with
           | Some n => if (n <=? 4294967294)%N then Some n else None
           | None => None
           end
  end.

(** [Object.entries(o)]: the properties whose keys are array indices in
    ascending order of the index, then the others in creation order. *)
Definition obj_entries (o : JsObject) : list (string * nat) :=
  let indexed := omap (λ e, (λ n, (n, e)) <$> arrayIndex e.1) o in
  (snd <$> stable_sort (λ a b, (a.1 <=? b.1)%N) indexed)
  ++ filter (λ e, arrayIndex e.1 = None) o.

(** The order in which [by_lastSeen] returns rows: by lastSeen, rows with
    the same lastSeen in creation order. *)
Definition index_by_lastSeen (rows : list ActiveSession.t)
  : list ActiveSession.t :=
  stable_sort (λ a b, bool_decide (ActiveSession.lastSeen a
                                   ≤ ActiveSession.lastSeen b)) rows.

(** The comparator [(a, b) => b.count - a.count]. *)
Definition by_count_desc (a b : string * nat) : bool :=
  bool_decide (b.2 ≤ a.2)%nat.

(** The field [activeByPath] of the object getStats returns: pairs of a path
    and its count. *)
Definition getStats_activeByPath (now : Z) (s : Store) : list (string * nat) :=
  let active := index_by_lastSeen (activeNow now s) in
  let activeByPathMap := obj_count (ActiveSession.currentPath <$> active) in
  stable_sort by_count_desc (obj_entries activeByPathMap).

Module PageStat.
Record t := mk {
  path : string;
  title : string;
  pageType : string;
  views : nat
}.
End PageStat.

(** [path.startsWith("/") ? path.slice(1) : path] *)
Definition slugOfPath (path : string) : string :=
  match path with
  | String a rest => if decide (a = "/"%char) then rest else path
  | EmptyString => path
  end.

(** One element of [pageStatsPromises]; [posts] and [pages] are the
    published rows. *)
Definition pageStat (posts pages : list Content.t) (o : JsObject)
    (path : string) : PageStat.t :=
  let views := default 0%nat (obj_get o path) in
  let slug := slugOfPath path in
  let post := head (filter (λ p, Content.slug p = slug) posts) in
  let page := head (filter (λ p, Content.slug p = slug) pages) in
  if decide (path = "/" ∨ path = "") then PageStat.mk path "Home" "home" views
  else if decide (path = "/stats") then PageStat.mk path "Stats" "stats" views
  else match post, page with
       | Some p, _ => PageStat.mk path (Content.title p) "blog" views
       | None, Some p => PageStat.mk path (Content.title p) "page" views
       | None, None => PageStat.mk path path "other" views
       end.

(** The comparator [(a, b) => b.views - a.views]. *)
Definition by_views_desc (a b : PageStat.t) : bool :=
  bool_decide (PageStat.views b ≤ PageStat.views a)%nat.

(** The field [pageStats] of the object getStats returns. *)
Definition getStats_pageStats (s : Store) : list PageStat.t :=
  let pathCountsFromDb := obj_count (PageView.path <$> pageViews s) in
  let allPaths := fst <$> obj_entries pathCountsFromDb in
  stable_sort by_views_desc
    (pageStat (published_rows (posts s)) (published_rows (pages s))
              pathCountsFromDb <$> allPaths).

(** A path that starts with "/". *)
Definition rooted (k : string) : Prop :=
  match k with
  | String a _ => a = "/"%char
  | EmptyString => False
  end.

(** The number of elements of [ks] equal to [k]. *)
Definition occurrences (k : string) (ks : list string) : nat :=
  length (filter (λ x, x = k) ks).

(** One iteration of the counting loop. *)
Definition count_step (o : JsObject) (k : string) : JsObject :=
  obj_set k (S (default 0%nat (obj_get o k))) o.

(** The count an object or a map holds for a key after the counting loop. *)
Definition count_of (k : string) (ks : list string) : option nat :=
  if decide (k ∈ ks) then Some (occurrences k ks) else None.

Definition views_and_sessions : Store :=
  run [ mkCall 0 (RecordPageView "/a" "post" "s1");
        mkCall 0 (RecordPageView "/b" "post" "s1");
        mkCall 10 (RecordPageView "/b" "post" "s2");
        mkCall 20 (RecordPageView "/" "home" "s2");
        mkCall 30 (Heartbeat "s1" "/b");
        mkCall 30 (Heartbeat "s2" "/");
        mkCall 40 (Heartbeat "s3" "/b") ]
      (mkStore [] [] [Content.mk "b" "Post B" true; Content.mk "a" "Draft" false]
               [Content.mk "a" "Page A" true; Content.mk "b" "Page B" true]
               ∅ ∅ ∅ 0%nat).

(** The stored timestamps are in creation order and none is after [t]. *)
Definition clocked (t : Z) (s : Store) : Prop :=
  Forall (λ d, PageView.timestamp d ≤ t) (pageViews s)
  ∧ StronglySorted Z.le (PageView.timestamp <$> pageViews s).

(** ** The getStats query with the validation of what it returns

    The counts of the two objects are JavaScript values.  Reading a key that
    is not an own property of an object literal finds what [Object.prototype]
    holds under that name: a function for the method names below, the
    prototype itself for "__proto__".  Both are truthy, and adding 1 to them
    gives a string.  Writing "__proto__" with a value that is not an object
    changes nothing; writing any other key creates or updates an own
    property. *)

(** A count: a number, or a string, whose text is not kept. *)
Inductive JsValue :=
| JsNumber (n : nat)
| JsString.

(** The names of the function properties of [Object.prototype]. *)
Definition inheritedMethods : list string :=
  ["constructor"; "hasOwnProperty"; "isPrototypeOf"; "propertyIsEnumerable";
   "toLocaleString"; "toString"; "valueOf"; "__defineGetter__";
   "__defineSetter__"; "__lookupGetter__"; "__lookupSetter__"].

(** The own properties of an object, in creation order. *)
Definition JsMap := list (string * JsValue).

(** The own property [k] of [m], if any. *)
Fixpoint js_own (m : JsMap) (k : string) : option JsValue :=
  match m with
  | [] => None
  | (k', v) :: rest => if decide (k' = k) then Some v else js_own rest k
  end.

(** [(m[k] || 0) + 1] *)
Definition js_plus_one (m : JsMap) (k : string) : JsValue :=
  match js_own m k with
  | Some (JsNumber n) => JsNumber (S n)
  | Some JsString => JsString
  | None =>
      if decide (k = "__proto__" ∨ k ∈ inheritedMethods) then JsString
      else JsNumber 1
  end.

(** [m[k] = v] for a number or a string [v]. *)
Fixpoint js_put (k : string) (v : JsValue) (m : JsMap) : JsMap :=
  match m with
  | [] => [(k, v)]
  | (k', v') :: rest =>
      if decide (k' = k) then (k, v) :: rest else (k', v') :: js_put k v rest
  end.

Definition js_set (k : string) (v : JsValue) (m : JsMap) : JsMap :=
  if decide (k = "__proto__") then m else js_put k v m.

(** One iteration of [m[k] = (m[k] || 0) + 1], and the loop. *)
Definition js_step (m : JsMap) (k : string) : JsMap :=
  js_set k (js_plus_one m k) m.

Definition js_count (ks : list string) : JsMap := foldl js_step [] ks.

(** The validator [v.number()] on every count: the object with its numbers,
    or nothing when a count is a string. *)
Definition js_numbers (m : JsMap) : option JsObject :=
  mapM (λ e, match e.2 with
             | JsNumber n => Some (e.1, n)
             | JsString => None
             end) m.

(** An object of numbers as an object of values. *)
Definition js_of_numbers (o : JsObject) : JsMap :=
  (λ e, (e.1, JsNumber e.2)) <$> o.

Module StatsResult.
(** The object getStats returns. *)
Record t := mk {
  activeVisitors : nat;
  activeByPath : list (string * nat);
  totalPageViews : nat;
  uniqueVisitors : nat;
  publishedPosts : nat;
  publishedPages : nat;
  trackingSince : option Z;
  pageStats : list PageStat.t
}.
End StatsResult.

(** The query: the returned object, or nothing when the object fails the
    [returns] validator and the query throws. *)
Definition getStats_handler (now : Z) (s : Store) : option StatsResult.t :=
  let active := index_by_lastSeen (activeNow now s) in
  let activeByPathMap := js_count (ActiveSession.currentPath <$> active) in
  let allPageViews := pageViews s in
  let uniqueSessions : gset string :=
    list_to_set (PageView.sessionId <$> allPageViews) in
  let pathCountsFromDb := js_count (PageView.path <$> allPageViews) in
  let posts := published_rows (posts s) in
  let pages := published_rows (pages s) in
  match js_numbers activeByPathMap, js_numbers pathCountsFromDb with
  | Some sessionCounts, Some viewCounts =>
      Some (StatsResult.mk
              (length active)
              (stable_sort by_count_desc (obj_entries sessionCounts))
              (length allPageViews)
              (size uniqueSessions)
              (length posts)
              (length pages)
              (PageView.timestamp <$> by_timestamp_first allPageViews)
              (stable_sort by_views_desc
                 (pageStat posts pages viewCounts
                    <$> (obj_entries viewCounts).*1)))
  | _, _ => None
  end.

(** A key that reads no inherited property. *)
Definition plain (k : string) : Prop :=
  k ≠ "__proto__" ∧ k ∉ inheritedMethods.

(** What getStats returns for [views_and_sessions] at 50. *)
Definition views_and_sessions_stats : StatsResult.t :=
  StatsResult.mk 3 [("/b", 2%nat); ("/", 1%nat)] 4 2 1 2 (Some 0)
    [PageStat.mk "/b" "Post B" "blog" 2; PageStat.mk "/a" "Page A" "page" 1;
     PageStat.mk "/" "Home" "home" 1].

(** One view of the path "constructor". *)
Definition view_of_constructor : Store :=
  recordPageView 0 "constructor" "post" "s1" emptyStore.

(** What the counting loop keeps true of the own properties: the keys are
    the counted keys other than "__proto__", and a count is a string exactly
    under the name of an inherited method. *)
Definition js_counted (ks : list string) (m : JsMap) : Prop :=
  (∀ k v, (k, v) ∈ m →
          k ∈ ks ∧ k ≠ "__proto__" ∧ (v = JsString ↔ k ∈ inheritedMethods))
  ∧ (∀ k, k ∈ ks → k ≠ "__proto__" → k ∈ m.*1).

(** What getStats returns at 0 after [two_views_at_the_boundary], after two
    more calls, and after the calls of [heartbeats_and_cleanup] at 130000. *)
Definition two_more_calls : list Call :=
  [mkCall 1800000 (RecordPageView "/z" "post" "s9");
   mkCall 1900000 (Heartbeat "s9" "/z")].

Definition stats_at_the_boundary : StatsResult.t :=
  Eval vm_compute in
    default views_and_sessions_stats
      (getStats_handler 0 (run two_views_at_the_boundary emptyStore)).

Definition stats_after_two_more : StatsResult.t :=
  Eval vm_compute in
    default views_and_sessions_stats
      (getStats_handler 0
         (run (two_views_at_the_boundary ++ two_more_calls) emptyStore)).

Definition stats_of_heartbeats : StatsResult.t :=
  Eval vm_compute in
    default views_and_sessions_stats
      (getStats_handler 130000 (run heartbeats_and_cleanup emptyStore)).

Definition stats_of_three_paths : StatsResult.t :=
  Eval vm_compute in
    default views_and_sessions_stats
      (getStats_handler 2000000 (run one_session_three_paths emptyStore)).

(** * The raw-markdown function (netlify/functions/raw.js) *)

Module Raw.

(** A JavaScript string: its UTF-16 code units. *)
Definition jsstring := list N.

(** The code units of a literal of ASCII characters. *)
Definition lit (s : string) : jsstring :=
  Ascii.N_of_ascii <$> String.list_ascii_of_string s.

(** WhiteSpace and LineTerminator of ECMAScript, which [trim] removes. *)
Definition isWhiteSpace (c : N) : bool :=
  ((9 <=? c) && (c <=? 13) || (c =? 32) || (c =? 160) || (c =? 5760)
   || (8192 <=? c) && (c <=? 8202) || (c =? 8232) || (c =? 8233)
   || (c =? 8239) || (c =? 8287) || (c =? 12288) || (c =? 65279))%N.

Definition isSlash (c : N) : bool := (c =? 47)%N.

Fixpoint dropStart (f : N → bool) (s : jsstring) : jsstring :=
  match s with
  | [] => []
  | c :: rest => if f c then dropStart f rest else s
  end.

Definition dropEnd (f : N → bool) (s : jsstring) : jsstring :=
  reverse (dropStart f (reverse s)).

(** [s.trim()] *)
Definition trim (s : jsstring) : jsstring :=
  dropEnd isWhiteSpace (dropStart isWhiteSpace s).

(** [s.replace(/^\/+|\/+$/g, "")]: the first alternative matches the run of
    slashes at the start, the second the run of slashes that reaches the
    end; both are replaced by the empty string. *)
Definition stripSlashes (s : jsstring) : jsstring :=
  dropEnd isSlash (dropStart isSlash s).

(** [(input || "")]: null, undefined and the empty string give "". *)
Definition normalizeSlug (input : option jsstring) : jsstring :=
  stripSlashes (trim (default [] input)).

(** What the file system holds at a path: nothing, something that cannot be
    read as a file ([readFileSync] throws), or a file with its text. *)
Inductive File :=
| Missing
| Unreadable
| Contents (text : jsstring).

Definition tryRead (f : File) : option jsstring :=
  match f with
  | Missing => None
  | Unreadable => None
  | Contents text =>
      if bool_decide (text = []) || bool_decide (length (trim text) = 0%nat)
      then None else Some text
  end.

Inductive Dir := PublicRaw | DistRaw.

(** [path.join(root, "public", "raw", filename)] and
    [path.join(root, "dist", "raw", filename)] name a file by its directory
    and the file name. *)
Definition FileSystem := Dir → jsstring → File.

Record QueryStringParameters := mkQuery { slug : option jsstring }.
Record Event := mkEvent { queryStringParameters : option QueryStringParameters }.

Record Response := mkResponse {
  statusCode : Z;
  headers : list (string * string);
  body : jsstring
}.

(** [s.endsWith(suffix)] *)
Definition endsWith (s suffix : jsstring) : bool :=
  bool_decide (length suffix ≤ length s)%nat
  && bool_decide (drop (length s - length suffix) s = suffix).

(** A string, or null, is truthy unless it is null or empty. *)
Definition truthy (v : option jsstring) : bool :=
  match v with
  | Some (_ :: _) => true
  | _ => false
  end.

(** The loop over the candidates, started with [body]. *)
Fixpoint readCandidates (fs : FileSystem) (filename : jsstring)
    (candidates : list Dir) (body : option jsstring) : option jsstring :=
  match candidates with
  | [] => body
  | p :: rest =>
      let body := tryRead (fs p filename) in
      if truthy body then body else readCandidates fs filename rest body
  end.

Definition plainHeaders : list (string * string) :=
  [("Content-Type", "text/plain; charset=utf-8");
   ("Access-Control-Allow-Origin", "*")].

Definition fileName (slug : jsstring) : jsstring :=
  if endsWith slug (lit ".md") then slug else slug ++ lit ".md".

Definition handler (fs : FileSystem) (event : Event) : Response :=
  let slugRaw := queryStringParameters event ≫= slug in
  let slug := normalizeSlug slugRaw in
  if bool_decide (slug = []) then
    mkResponse 400 plainHeaders (lit "missing slug")
  else
    let filename := fileName slug in
    let body := readCandidates fs filename [PublicRaw; DistRaw] None in
    match body with
    | Some (c :: text) =>
        mkResponse 200
          (plainHeaders ++ [("Cache-Control", "public, max-age=3600")])
          (c :: text)
    | _ => mkResponse 404 plainHeaders (lit "not found: " ++ filename)
    end.

Definition request (s : string) : Event :=
  mkEvent (Some (mkQuery (Some (lit s)))).

(** A file that [tryRead] returns: readable, with text other than white
    space. *)
Definition usable (f : File) (text : jsstring) : Prop :=
  f = Contents text ∧ trim text ≠ [].

(** A readable file that is not empty. *)
Definition nonEmptyFile (f : File) (text : jsstring) : Prop :=
  f = Contents text ∧ text ≠ [].

(** The response in the words of the description, where the file served is
    "a readable non-empty file"; to be compared with what [handler] does. *)
Definition responds_as_described (fs : FileSystem) (event : Event) : Prop :=
  let slug := normalizeSlug (queryStringParameters event ≫= Raw.slug) in
  let filename := fileName slug in
  let r := handler fs event in
  (statusCode r = 400 ∧ body r = lit "missing slug" ↔ slug = [])
  ∧ (slug ≠ [] →
     (∀ text, nonEmptyFile (fs PublicRaw filename) text →
              statusCode r = 200 ∧ body r = text)
     ∧ (∀ text, (¬ ∃ t, nonEmptyFile (fs PublicRaw filename) t) →
                nonEmptyFile (fs DistRaw filename) text →
                statusCode r = 200 ∧ body r = text)
     ∧ ((¬ ∃ t, nonEmptyFile (fs PublicRaw filename) t) →
        (¬ ∃ t, nonEmptyFile (fs DistRaw filename) t) →
        statusCode r = 404)).

(** public/raw/a.md holds one space, dist/raw/a.md does not exist. *)
Definition blank_public_file : FileSystem :=
  λ dir _, match dir with PublicRaw => Contents (lit " ") | DistRaw => Missing end.

Definition public_then_dist : FileSystem :=
  λ dir name,
    if bool_decide (name = lit "hello.md") then
      match dir with
      | PublicRaw => Contents (lit "# Hello")
      | DistRaw => Contents (lit "# Old")
      end
    else Missing.

End Raw.

(** * Properties *)

(** The example of section 8 of the specification: three views of one pair
    at 0, 10 and 33 minutes. *)
Example spec_section8 :
  let s1 := recordPageView 0 "/a" "post" "s1" emptyStore in
  let s2 := recordPageView 600000 "/a" "post" "s1" s1 in
  let s3 := recordPageView 2000000 "/a" "post" "s1" s2 in
  (length (pageViews s2) = 1 ∧ Stats.uniqueVisitors (getStats 600000 s2) = 1
   ∧ length (pageViews s3) = 2 ∧ Stats.uniqueVisitors (getStats 2000000 s3) = 1)%nat.
Proof. vm_compute. done. Qed.

(** ** The aggregate component *)

Section TableAggregateFacts.
Context {K : Type} `{Countable K}.
Variable sortKey : PageView.t → K.

Lemma insertIfDoesNotExist_union (doc : PageView.t) (agg : gset (K * Id)) :
  insertIfDoesNotExist sortKey doc agg = {[ item sortKey doc ]} ∪ agg.
Proof.
  unfold insertIfDoesNotExist.
  destruct (decide (item sortKey doc ∈ agg)) as [Hin|]; [|done].
  symmetry. apply subseteq_union_1_L. by apply singleton_subseteq_l.
Qed.

Lemma insertIfDoesNotExist_present (doc : PageView.t) (agg : gset (K * Id)) :
  item sortKey doc ∈ agg → insertIfDoesNotExist sortKey doc agg = agg.
Proof. intros Hin. unfold insertIfDoesNotExist. by case_decide. Qed.

Lemma insertIfDoesNotExist_elem (doc : PageView.t) (agg : gset (K * Id)) :
  item sortKey doc ∈ insertIfDoesNotExist sortKey doc agg.
Proof.
  rewrite insertIfDoesNotExist_union. apply elem_of_union_l.
  by apply elem_of_singleton.
Qed.
End TableAggregateFacts.

(** ** What recordPageView does to each part of the store *)

Lemma update_aggregates_tables b doc s :
  pageViews (update_aggregates b doc s) = pageViews s
  ∧ activeSessions (update_aggregates b doc s) = activeSessions s
  ∧ posts (update_aggregates b doc s) = posts s
  ∧ pages (update_aggregates b doc s) = pages s
  ∧ nextId (update_aggregates b doc s) = nextId s.
Proof. done. Qed.

Lemma recordPageView_pageViews now p pt sid s :
  pageViews (recordPageView now p pt sid s) =
  if viewedRecently (now - DEDUP_WINDOW_MS) (recentView sid p s)
  then pageViews s
  else pageViews s ++ [newView s now p pt sid].
Proof.
  unfold recordPageView.
  destruct (viewedRecently _ _); [done|].
  cbn [db_insert_pageView]. by destruct (db_get_pageView _ _).
Qed.

Lemma recordPageView_nextId now p pt sid s :
  nextId (recordPageView now p pt sid s) =
  if viewedRecently (now - DEDUP_WINDOW_MS) (recentView sid p s)
  then nextId s else S (nextId s).
Proof.
  unfold recordPageView.
  destruct (viewedRecently _ _); [done|].
  cbn [db_insert_pageView]. by destruct (db_get_pageView _ _).
Qed.

Lemma recordPageView_other_tables now p pt sid s :
  activeSessions (recordPageView now p pt sid s) = activeSessions s
  ∧ posts (recordPageView now p pt sid s) = posts s
  ∧ pages (recordPageView now p pt sid s) = pages s.
Proof.
  unfold recordPageView.
  destruct (viewedRecently _ _); [done|].
  cbn [db_insert_pageView]. by destruct (db_get_pageView _ _).
Qed.

(** ** The most recent view of a pair *)

Lemma by_session_path_nil sid p pvs :
  by_session_path sid p pvs = [] ↔ no_view sid p pvs.
Proof.
  unfold by_session_path, no_view, same_pair.
  induction pvs as [|d pvs IH]; [by split; [constructor|]|].
  rewrite filter_cons. case_decide as Hd.
  - split; [done|]. intros Hall. by apply Forall_cons_1 in Hall as [? _].
  - rewrite IH. split; [by constructor|]. intros Hall.
    by apply Forall_cons_1 in Hall as [_ ?].
Qed.

Lemma recentView_None sid p s :
  recentView sid p s = None ↔ no_view sid p (pageViews s).
Proof.
  unfold recentView. rewrite last_None. apply by_session_path_nil.
Qed.

Lemma recentView_Some sid p s v :
  recentView sid p s = Some v ↔ most_recent sid p (pageViews s) v.
Proof.
  unfold recentView, most_recent. generalize (pageViews s) as pvs.
  intros pvs. split.
  - unfold by_session_path.
    induction pvs as [|d pvs IH] using rev_ind; [by rewrite filter_nil; cbn|].
    rewrite filter_app, filter_cons, filter_nil.
    case_decide as Hd.
    + rewrite last_snoc. intros [= ->]. exists pvs, [].
      split; [done|]. split; [exact Hd|constructor].
    + rewrite app_nil_r. intros Hl.
      destruct (IH Hl) as (older & newer & -> & Hv & Hnew).
      exists older, (newer ++ [d]). rewrite <- app_assoc.
      split; [done|]. split; [exact Hv|].
      apply Forall_app. split; [done|]. by constructor.
  - intros (older & newer & -> & Hv & Hnew).
    unfold by_session_path. rewrite filter_app, filter_cons.
    rewrite decide_True by apply Hv.
    apply by_session_path_nil in Hnew. unfold by_session_path in Hnew.
    rewrite Hnew. by rewrite last_snoc.
Qed.

Lemma viewedRecently_Some c v :
  viewedRecently c (Some v) = bool_decide (c < PageView.timestamp v).
Proof. done. Qed.

Lemma recordPageView_skip now p pt sid s v :
  most_recent sid p (pageViews s) v →
  now - PageView.timestamp v < DEDUP_WINDOW_MS →
  recordPageView now p pt sid s = s.
Proof.
  intros Hv Hlt. apply recentView_Some in Hv.
  unfold recordPageView. rewrite Hv, viewedRecently_Some.
  rewrite bool_decide_eq_true_2 by lia. done.
Qed.

Lemma recordPageView_insert_old now p pt sid s v :
  most_recent sid p (pageViews s) v →
  DEDUP_WINDOW_MS ≤ now - PageView.timestamp v →
  pageViews (recordPageView now p pt sid s)
  = pageViews s ++ [PageView.mk (nextId s) p pt sid now].
Proof.
  intros Hv Hge. apply recentView_Some in Hv.
  rewrite recordPageView_pageViews, Hv, viewedRecently_Some.
  rewrite bool_decide_eq_false_2 by lia. done.
Qed.

Lemma recordPageView_insert_first now p pt sid s :
  no_view sid p (pageViews s) →
  pageViews (recordPageView now p pt sid s)
  = pageViews s ++ [PageView.mk (nextId s) p pt sid now].
Proof.
  intros Hno. apply recentView_None in Hno.
  by rewrite recordPageView_pageViews, Hno.
Qed.

Lemma by_session_path_snoc sid p pvs d :
  by_session_path sid p (pvs ++ [d]) =
  by_session_path sid p pvs ++ (if decide (same_pair sid p d) then [d] else []).
Proof.
  unfold by_session_path, same_pair.
  rewrite filter_app, filter_cons, filter_nil. by case_decide.
Qed.

Lemma most_recent_snoc sid p pvs d :
  same_pair sid p d → most_recent sid p (pvs ++ [d]) d.
Proof. intros Hd. exists pvs, []. repeat split; try apply Hd. constructor. Qed.

Lemma no_view_snoc_other sid p pvs d :
  no_view sid p pvs → ¬ same_pair sid p d → no_view sid p (pvs ++ [d]).
Proof.
  intros Hno Hd. apply Forall_app. split; [done|]. by constructor.
Qed.

Lemma recordPageView_twice_close t1 t2 p pt1 pt2 sid s :
  no_view sid p (pageViews s) →
  t2 - t1 < DEDUP_WINDOW_MS →
  let s1 := recordPageView t1 p pt1 sid s in
  let s2 := recordPageView t2 p pt2 sid s1 in
  s2 = s1
  ∧ by_session_path sid p (pageViews s2) = [PageView.mk (nextId s) p pt1 sid t1].
Proof.
  intros Hno Hlt s1 s2.
  pose proof (recordPageView_insert_first t1 p pt1 sid s Hno) as H1.
  fold s1 in H1.
  assert (s2 = s1) as ->.
  { apply (recordPageView_skip t2 p pt2 sid s1 (PageView.mk (nextId s) p pt1 sid t1)).
    - rewrite H1. by apply most_recent_snoc.
    - cbn. lia. }
  split; [done|].
  rewrite H1, by_session_path_snoc.
  apply by_session_path_nil in Hno. rewrite Hno.
  by rewrite decide_True.
Qed.

Lemma recordPageView_twice_apart t1 t2 p pt1 pt2 sid s :
  no_view sid p (pageViews s) →
  DEDUP_WINDOW_MS ≤ t2 - t1 →
  let s1 := recordPageView t1 p pt1 sid s in
  let s2 := recordPageView t2 p pt2 sid s1 in
  by_session_path sid p (pageViews s2)
  = [PageView.mk (nextId s) p pt1 sid t1; PageView.mk (nextId s1) p pt2 sid t2].
Proof.
  intros Hno Hge s1 s2.
  pose proof (recordPageView_insert_first t1 p pt1 sid s Hno) as H1.
  fold s1 in H1.
  assert (pageViews s2 = pageViews s1 ++ [PageView.mk (nextId s1) p pt2 sid t2])
    as ->.
  { apply (recordPageView_insert_old t2 p pt2 sid s1
             (PageView.mk (nextId s) p pt1 sid t1)).
    - rewrite H1. by apply most_recent_snoc.
    - cbn. lia. }
  rewrite H1, !by_session_path_snoc.
  apply by_session_path_nil in Hno. rewrite Hno.
  by rewrite !decide_True.
Qed.

Lemma recordPageView_other_path t1 t2 p1 p2 pt1 pt2 sid s :
  p1 ≠ p2 →
  no_view sid p2 (pageViews s) →
  let s1 := recordPageView t1 p1 pt1 sid s in
  pageViews (recordPageView t2 p2 pt2 sid s1)
  = pageViews s1 ++ [PageView.mk (nextId s1) p2 pt2 sid t2].
Proof.
  intros Hne Hno s1. apply recordPageView_insert_first.
  subst s1. rewrite recordPageView_pageViews.
  destruct (viewedRecently _ _); [done|].
  apply no_view_snoc_other; [done|]. by intros [_ ?].
Qed.

(** C1.  A call of recordPageView whose pair [(sessionId, path)] has a most
    recent stored view less than DEDUP_WINDOW_MS before [now] returns the
    store as it was; a call whose most recent view is older, or whose pair has
    no view, appends exactly one view, with timestamp [now].  From a store
    without a view of the pair: two calls less than 30 minutes apart leave
    one view of the pair, two calls 30 minutes or more apart leave two, and a
    call for another path of the same session is not deduplicated against
    the view just recorded. *)
Theorem recordPageView_dedup_window :
  (∀ now p pt sid s,
     (∀ v, most_recent sid p (pageViews s) v →
           now - PageView.timestamp v < DEDUP_WINDOW_MS →
           recordPageView now p pt sid s = s)
     ∧ (∀ v, most_recent sid p (pageViews s) v →
             DEDUP_WINDOW_MS ≤ now - PageView.timestamp v →
             pageViews (recordPageView now p pt sid s)
             = pageViews s ++ [PageView.mk (nextId s) p pt sid now])
     ∧ (no_view sid p (pageViews s) →
        pageViews (recordPageView now p pt sid s)
        = pageViews s ++ [PageView.mk (nextId s) p pt sid now]))
  ∧ (∀ t1 t2 p pt1 pt2 sid s,
       no_view sid p (pageViews s) →
       t2 - t1 < DEDUP_WINDOW_MS →
       let s1 := recordPageView t1 p pt1 sid s in
       let s2 := recordPageView t2 p pt2 sid s1 in
       s2 = s1
       ∧ by_session_path sid p (pageViews s2)
         = [PageView.mk (nextId s) p pt1 sid t1])
  ∧ (∀ t1 t2 p pt1 pt2 sid s,
       no_view sid p (pageViews s) →
       DEDUP_WINDOW_MS ≤ t2 - t1 →
       let s1 := recordPageView t1 p pt1 sid s in
       let s2 := recordPageView t2 p pt2 sid s1 in
       by_session_path sid p (pageViews s2)
       = [PageView.mk (nextId s) p pt1 sid t1;
          PageView.mk (nextId s1) p pt2 sid t2])
  ∧ (∀ t1 t2 p1 p2 pt1 pt2 sid s,
       p1 ≠ p2 →
       no_view sid p2 (pageViews s) →
       let s1 := recordPageView t1 p1 pt1 sid s in
       pageViews (recordPageView t2 p2 pt2 sid s1)
       = pageViews s1 ++ [PageView.mk (nextId s1) p2 pt2 sid t2]).
Proof.
  split; [|split; [|split]].
  - intros now p pt sid s. split; [|split].
    + apply recordPageView_skip.
    + apply recordPageView_insert_old.
    + apply recordPageView_insert_first.
  - apply recordPageView_twice_close.
  - apply recordPageView_twice_apart.
  - apply recordPageView_other_path.
Qed.

Lemma recordPageView_dedup_window_witness :
  let s1 := recordPageView 0 "/a" "post" "s1" emptyStore in
  no_view "s1" "/a" (pageViews emptyStore)
  ∧ no_view "s1" "/b" (pageViews emptyStore)
  ∧ 600000 - 0 < DEDUP_WINDOW_MS
  ∧ DEDUP_WINDOW_MS ≤ 2000000 - 0
  ∧ "/a" ≠ "/b"
  ∧ recordPageView 600000 "/a" "post" "s1" s1 = s1
  ∧ by_session_path "s1" "/a"
      (pageViews (recordPageView 2000000 "/a" "post" "s1" s1))
    = [PageView.mk 0%nat "/a" "post" "s1" 0;
       PageView.mk (nextId s1) "/a" "post" "s1" 2000000]
  ∧ pageViews (recordPageView 1 "/b" "post" "s1" s1)
    = pageViews s1 ++ [PageView.mk (nextId s1) "/b" "post" "s1" 1].
Proof.
  intros s1.
  assert (Ha : no_view "s1" "/a" (pageViews emptyStore)) by constructor.
  assert (Hb : no_view "s1" "/b" (pageViews emptyStore)) by constructor.
  assert (Hlt : 600000 - 0 < DEDUP_WINDOW_MS) by reflexivity.
  assert (Hge : DEDUP_WINDOW_MS ≤ 2000000 - 0) by (vm_compute; discriminate).
  assert (Hne : "/a" ≠ "/b") by discriminate.
  destruct recordPageView_dedup_window as (_ & Hclose & Hapart & Hother).
  do 5 (split; [assumption|]). split; [|split].
  - exact (proj1 (Hclose 0 600000 "/a" "post" "post" "s1" emptyStore Ha Hlt)).
  - exact (Hapart 0 2000000 "/a" "post" "post" "s1" emptyStore Ha Hge).
  - exact (Hother 0 1 "/a" "/b" "post" "post" "s1" emptyStore Hne Hb).
Defined.

(** ** Lists of rows *)

Lemma filter_ext_elem {A} (P Q : A → Prop)
    `{!∀ x, Decision (P x), !∀ x, Decision (Q x)} (l : list A) :
  (∀ x, x ∈ l → P x ↔ Q x) → filter P l = filter Q l.
Proof.
  induction l as [|a l IH]; intros Hext; [done|].
  rewrite !filter_cons.
  rewrite IH by (intros x Hx; apply Hext; by right).
  apply decide_ext, Hext. by left.
Qed.

Lemma filter_all {A} (P : A → Prop) `{!∀ x, Decision (P x)} (l : list A) :
  (∀ x, x ∈ l → P x) → filter P l = l.
Proof.
  induction l as [|a l IH]; intros Hall; [done|].
  rewrite filter_cons, decide_True by (apply Hall; by left).
  f_equal. apply IH. intros x Hx. apply Hall. by right.
Qed.

Lemma NoDup_fmap_inj_on {A B} (f : A → B) (l : list A) x y :
  NoDup (f <$> l) → x ∈ l → y ∈ l → f x = f y → x = y.
Proof.
  induction l as [|a l IH]; intros Hnd Hx Hy Hf.
  { by apply elem_of_nil in Hx. }
  rewrite fmap_cons in Hnd. apply NoDup_cons in Hnd as [Ha Hnd].
  apply elem_of_cons in Hx as [->|Hx]; apply elem_of_cons in Hy as [->|Hy].
  - done.
  - exfalso. apply Ha. rewrite Hf. by apply list_elem_of_fmap_2.
  - exfalso. apply Ha. rewrite <- Hf. by apply list_elem_of_fmap_2.
  - by apply IH.
Qed.

(** ** heartbeat *)

Lemma existing_None sid rows :
  head (by_sessionId sid rows) = None
  ↔ ∀ r, r ∈ rows → ActiveSession.sessionId r ≠ sid.
Proof.
  rewrite head_None. unfold by_sessionId. split.
  - intros Hnil r Hr Hsid.
    assert (r ∈ filter (λ r, ActiveSession.sessionId r = sid) rows) as Hin
      by by apply list_elem_of_filter.
    rewrite Hnil in Hin. by apply elem_of_nil in Hin.
  - intros Hall. destruct (filter _ rows) as [|r l] eqn:Hf; [done|].
    assert (r ∈ filter (λ r, ActiveSession.sessionId r = sid) rows) as Hin
      by (rewrite Hf; by left).
    apply list_elem_of_filter in Hin as [Hsid Hr]. by destruct (Hall r Hr).
Qed.

Lemma existing_Some sid rows e :
  head (by_sessionId sid rows) = Some e →
  e ∈ rows ∧ ActiveSession.sessionId e = sid.
Proof.
  intros He. apply head_Some_elem_of in He.
  apply list_elem_of_filter in He. by destruct He.
Qed.

Lemma existing_unique sid rows r :
  NoDup (ActiveSession.sessionId <$> rows) →
  r ∈ rows → ActiveSession.sessionId r = sid →
  head (by_sessionId sid rows) = Some r.
Proof.
  intros Hnd Hr Hsid.
  destruct (head (by_sessionId sid rows)) as [e|] eqn:He.
  - apply existing_Some in He as [He Hes]. f_equal.
    apply (NoDup_fmap_inj_on ActiveSession.sessionId rows); congruence.
  - exfalso. by apply (proj1 (existing_None sid rows) He r).
Qed.

Lemma patch_by_id_touch rows e p now :
  NoDup (ActiveSession._id <$> rows) →
  NoDup (ActiveSession.sessionId <$> rows) →
  e ∈ rows →
  (λ r, if decide (ActiveSession._id r = ActiveSession._id e)
        then ActiveSession.patched p now r else r) <$> rows
  = touch (ActiveSession.sessionId e) p now rows.
Proof.
  intros Hid Hsid He. unfold touch. apply Forall_fmap_ext, Forall_forall.
  intros x Hx.
  destruct (decide (ActiveSession._id x = ActiveSession._id e)) as [Hxe|Hxe].
  - assert (x = e) as -> by
      by apply (NoDup_fmap_inj_on ActiveSession._id rows).
    by rewrite decide_True.
  - rewrite decide_False; [done|]. intros Hs. apply Hxe. f_equal.
    by apply (NoDup_fmap_inj_on ActiveSession.sessionId rows).
Qed.

Lemma heartbeat_skip now sid p s r :
  NoDup (row_sessions s) →
  r ∈ activeSessions s →
  ActiveSession.sessionId r = sid →
  ActiveSession.currentPath r = p →
  now - ActiveSession.lastSeen r < HEARTBEAT_DEDUP_MS →
  heartbeat now sid p s = s.
Proof.
  intros Hnd Hr Hsid Hp Hlt. unfold heartbeat.
  rewrite (existing_unique sid _ r Hnd Hr Hsid). by rewrite decide_True.
Qed.

Lemma heartbeat_patch now sid p s r :
  NoDup (row_ids s) →
  NoDup (row_sessions s) →
  r ∈ activeSessions s →
  ActiveSession.sessionId r = sid →
  ¬ (ActiveSession.currentPath r = p
     ∧ now - ActiveSession.lastSeen r < HEARTBEAT_DEDUP_MS) →
  heartbeat now sid p s
  = with_activeSessions s (touch sid p now (activeSessions s)) (nextId s).
Proof.
  intros Hid Hnd Hr Hsid Hno. unfold heartbeat.
  rewrite (existing_unique sid _ r Hnd Hr Hsid). rewrite decide_False by done.
  unfold db_patch_activeSession. by rewrite patch_by_id_touch, Hsid.
Qed.

Lemma heartbeat_insert now sid p s :
  (∀ r, r ∈ activeSessions s → ActiveSession.sessionId r ≠ sid) →
  heartbeat now sid p s
  = with_activeSessions s
      (activeSessions s ++ [ActiveSession.mk (nextId s) sid p now])
      (S (nextId s)).
Proof.
  intros Hno. apply existing_None in Hno. unfold heartbeat. by rewrite Hno.
Qed.

Lemma touch_elem sid p now rows r :
  r ∈ rows → ActiveSession.sessionId r = sid →
  ActiveSession.mk (ActiveSession._id r) sid p now ∈ touch sid p now rows.
Proof.
  intros Hr Hsid. unfold touch. apply list_elem_of_fmap.
  exists r. split; [|done]. rewrite decide_True by done.
  unfold ActiveSession.patched. by rewrite Hsid.
Qed.

Lemma touch_other sid p now rows x :
  x ∈ rows → ActiveSession.sessionId x ≠ sid → x ∈ touch sid p now rows.
Proof.
  intros Hx Hne. unfold touch. apply list_elem_of_fmap.
  exists x. split; [|done]. by rewrite decide_False.
Qed.

(** C5.  On a table with one row per session: when the row of [sid] has
    the same path and a lastSeen less than HEARTBEAT_DEDUP_MS before [now],
    heartbeat returns the store as it was; when the row has another path or
    was written 10 seconds ago or more, the store changes only in that row,
    whose currentPath and lastSeen become [p] and [now]; when the session has
    no row, one row is appended. *)
Theorem heartbeat_debounced_upsert now sid p s :
  NoDup (row_ids s) →
  NoDup (row_sessions s) →
  (∀ r, r ∈ activeSessions s →
        ActiveSession.sessionId r = sid →
        ActiveSession.currentPath r = p →
        now - ActiveSession.lastSeen r < HEARTBEAT_DEDUP_MS →
        heartbeat now sid p s = s)
  ∧ (∀ r, r ∈ activeSessions s →
          ActiveSession.sessionId r = sid →
          ActiveSession.currentPath r ≠ p
          ∨ HEARTBEAT_DEDUP_MS ≤ now - ActiveSession.lastSeen r →
          heartbeat now sid p s
          = with_activeSessions s (touch sid p now (activeSessions s)) (nextId s)
          ∧ ActiveSession.mk (ActiveSession._id r) sid p now
            ∈ activeSessions (heartbeat now sid p s)
          ∧ (∀ x, x ∈ activeSessions s → ActiveSession.sessionId x ≠ sid →
                  x ∈ activeSessions (heartbeat now sid p s))
          ∧ length (activeSessions (heartbeat now sid p s))
            = length (activeSessions s))
  ∧ ((∀ r, r ∈ activeSessions s → ActiveSession.sessionId r ≠ sid) →
     heartbeat now sid p s
     = with_activeSessions s
         (activeSessions s ++ [ActiveSession.mk (nextId s) sid p now])
         (S (nextId s))).
Proof.
  intros Hid Hnd. split; [|split].
  - intros r. by apply heartbeat_skip.
  - intros r Hr Hsid Hor.
    rewrite (heartbeat_patch now sid p s r Hid Hnd Hr Hsid)
      by (intros [? ?]; destruct Hor; [done|lia]).
    split; [done|]. cbn [activeSessions with_activeSessions].
    split; [by apply touch_elem|]. split.
    + intros x Hx Hne. by apply touch_other.
    + unfold touch. by rewrite length_fmap.
  - apply heartbeat_insert.
Qed.

Lemma heartbeat_debounced_upsert_witness :
  let s0 := heartbeat 0 "s1" "/a" emptyStore in
  let r := ActiveSession.mk 0%nat "s1" "/a" 0 in
  NoDup (row_ids s0)
  ∧ NoDup (row_sessions s0)
  ∧ r ∈ activeSessions s0
  ∧ 5000 - ActiveSession.lastSeen r < HEARTBEAT_DEDUP_MS
  ∧ HEARTBEAT_DEDUP_MS ≤ 10000 - ActiveSession.lastSeen r
  ∧ heartbeat 5000 "s1" "/a" s0 = s0
  ∧ ActiveSession.mk 0%nat "s1" "/a" 10000
    ∈ activeSessions (heartbeat 10000 "s1" "/a" s0)
  ∧ ActiveSession.mk 0%nat "s1" "/b" 5000
    ∈ activeSessions (heartbeat 5000 "s1" "/b" s0).
Proof.
  intros s0 r.
  assert (Hid : NoDup (row_ids s0)) by apply NoDup_singleton.
  assert (Hnd : NoDup (row_sessions s0)) by apply NoDup_singleton.
  assert (Hr : r ∈ activeSessions s0) by apply list_elem_of_here.
  assert (Hlt : 5000 - ActiveSession.lastSeen r < HEARTBEAT_DEDUP_MS)
    by reflexivity.
  assert (Hge : HEARTBEAT_DEDUP_MS ≤ 10000 - ActiveSession.lastSeen r)
    by (vm_compute; discriminate).
  assert (Hne : ActiveSession.currentPath r ≠ "/b") by discriminate.
  do 5 (split; [assumption|]). split; [|split].
  - exact (proj1 (heartbeat_debounced_upsert 5000 "s1" "/a" s0 Hid Hnd)
             r Hr eq_refl eq_refl Hlt).
  - exact (proj1 (proj2 (proj1 (proj2
             (heartbeat_debounced_upsert 10000 "s1" "/a" s0 Hid Hnd))
             r Hr eq_refl (or_intror Hge)))).
  - exact (proj1 (proj2 (proj1 (proj2
             (heartbeat_debounced_upsert 5000 "s1" "/b" s0 Hid Hnd))
             r Hr eq_refl (or_introl Hne)))).
Defined.

(** ** cleanupStaleSessions *)

Lemma with_activeSessions_id s :
  with_activeSessions s (activeSessions s) (nextId s) = s.
Proof. by destruct s. Qed.

Lemma delete_all_rows s (stale : list ActiveSession.t) :
  foldl (λ acc session,
           db_delete_activeSession (ActiveSession._id session) acc) s stale
  = with_activeSessions s
      (filter (λ r, ActiveSession._id r ∉ ActiveSession._id <$> stale)
              (activeSessions s))
      (nextId s).
Proof.
  revert s. induction stale as [|d stale IH]; intros s.
  - cbn [foldl]. rewrite <- (with_activeSessions_id s) at 1. f_equal.
    symmetry. apply filter_all. intros x _. apply not_elem_of_nil.
  - cbn [foldl]. rewrite IH. unfold db_delete_activeSession.
    unfold with_activeSessions at 1. cbn [activeSessions nextId].
    unfold with_activeSessions. cbn [pageViews posts pages pageViewsByPath
      totalPageViews uniqueVisitors activeSessions nextId]. f_equal.
    rewrite list_filter_filter. apply list_filter_iff. intros x.
    rewrite fmap_cons, not_elem_of_cons. tauto.
Qed.

Lemma cleanupStaleSessions_store now s :
  NoDup (row_ids s) →
  fst (cleanupStaleSessions now s)
  = with_activeSessions s
      (filter (λ r, now - SESSION_TIMEOUT_MS ≤ ActiveSession.lastSeen r)
              (activeSessions s))
      (nextId s).
Proof.
  intros Hid. unfold cleanupStaleSessions. cbn [fst].
  rewrite delete_all_rows. f_equal. apply filter_ext_elem. intros x Hx.
  unfold staleSessions, by_lastSeen_lt. split.
  - intros Hnot. apply Z.nlt_ge. intros Hlt. apply Hnot.
    apply list_elem_of_fmap_2. by apply list_elem_of_filter.
  - intros Hge Hin. apply list_elem_of_fmap in Hin as (y & Hxy & Hy).
    apply list_elem_of_filter in Hy as [Hlt Hy].
    assert (x = y) as -> by
      by apply (NoDup_fmap_inj_on ActiveSession._id (activeSessions s)).
    lia.
Qed.

Lemma length_filter_split {A} (P : A → Prop) `{!∀ x, Decision (P x)} (l : list A) :
  length l = (length (filter (λ x, ¬ P x) l) + length (filter P l))%nat.
Proof.
  induction l as [|a l IH]; [done|].
  rewrite !filter_cons. destruct (decide (P a)) as [Ha|Ha].
  - rewrite decide_False by tauto. cbn [length]. lia.
  - rewrite decide_True by done. cbn [length]. lia.
Qed.

(** C6.  On a table whose rows have distinct ids, cleanupStaleSessions
    changes the store only in the activeSessions table, where it keeps the
    rows with [now - SESSION_TIMEOUT_MS ≤ lastSeen] and deletes the rows with
    [lastSeen < now - SESSION_TIMEOUT_MS]; it returns the number of deleted
    rows. *)
Theorem cleanupStaleSessions_exact now s :
  NoDup (row_ids s) →
  fst (cleanupStaleSessions now s)
  = with_activeSessions s
      (filter (λ r, ¬ ActiveSession.lastSeen r < now - SESSION_TIMEOUT_MS)
              (activeSessions s))
      (nextId s)
  ∧ (∀ r, r ∈ activeSessions (fst (cleanupStaleSessions now s))
          ↔ r ∈ activeSessions s
            ∧ ¬ ActiveSession.lastSeen r < now - SESSION_TIMEOUT_MS)
  ∧ snd (cleanupStaleSessions now s)
    = length (filter (λ r, ActiveSession.lastSeen r < now - SESSION_TIMEOUT_MS)
                     (activeSessions s))
  ∧ length (activeSessions s)
    = (length (activeSessions (fst (cleanupStaleSessions now s)))
       + snd (cleanupStaleSessions now s))%nat.
Proof.
  intros Hid.
  assert (fst (cleanupStaleSessions now s)
          = with_activeSessions s
              (filter (λ r, ¬ ActiveSession.lastSeen r < now - SESSION_TIMEOUT_MS)
                      (activeSessions s))
              (nextId s)) as Heq.
  { rewrite cleanupStaleSessions_store by done. f_equal.
    apply list_filter_iff. intros x. lia. }
  split; [exact Heq|]. rewrite Heq. cbn [activeSessions with_activeSessions snd
    cleanupStaleSessions]. split; [|split].
  - intros r. rewrite list_elem_of_filter. tauto.
  - done.
  - unfold staleSessions, by_lastSeen_lt. apply length_filter_split.
Qed.

Lemma two_sessions_ids : NoDup (row_ids two_sessions).
Proof. apply (bool_decide_unpack _). vm_compute. exact I. Qed.

Lemma cleanupStaleSessions_exact_witness :
  NoDup (row_ids two_sessions)
  ∧ fst (cleanupStaleSessions 200000 two_sessions)
    = with_activeSessions two_sessions
        (filter (λ r, ¬ ActiveSession.lastSeen r < 200000 - SESSION_TIMEOUT_MS)
                (activeSessions two_sessions))
        (nextId two_sessions)
  ∧ snd (cleanupStaleSessions 200000 two_sessions)
    = length (filter (λ r, ActiveSession.lastSeen r < 200000 - SESSION_TIMEOUT_MS)
                     (activeSessions two_sessions)).
Proof.
  pose proof two_sessions_ids as Hid.
  destruct (cleanupStaleSessions_exact 200000 two_sessions Hid)
    as (Hstore & _ & Hcount & _).
  split; [exact Hid|]. split; [exact Hstore|exact Hcount].
Defined.

Example cleanup_two_sessions :
  cleanupStaleSessions 200000 two_sessions
  = (with_activeSessions two_sessions
       [ActiveSession.mk 1%nat "s2" "/b" 200000] 2%nat, 1%nat).
Proof. vm_compute. reflexivity. Qed.

(** C9.  A row whose lastSeen is exactly [now - SESSION_TIMEOUT_MS] is not in
    the range getStats counts at [now] (the count and the per-path counts are
    those of the table without the row), and it is still in the table after
    cleanupStaleSessions at the same [now]. *)
Theorem session_timeout_boundary now s r :
  NoDup (row_ids s) →
  r ∈ activeSessions s →
  ActiveSession.lastSeen r = now - SESSION_TIMEOUT_MS →
  (r ∉ activeNow now s)
  ∧ (∀ before after,
       activeSessions s = before ++ r :: after →
       let s' := with_activeSessions s (before ++ after) (nextId s) in
       Stats.activeVisitors (getStats now s)
       = Stats.activeVisitors (getStats now s')
       ∧ Stats.activeByPathMap (getStats now s)
         = Stats.activeByPathMap (getStats now s'))
  ∧ r ∈ activeSessions (fst (cleanupStaleSessions now s)).
Proof.
  intros Hid Hr Hlast. split; [|split].
  - unfold activeNow, by_lastSeen_gt. rewrite list_elem_of_filter. lia.
  - intros before after Hrows s'.
    assert (activeNow now s = activeNow now s') as Hact.
    { unfold activeNow, by_lastSeen_gt. subst s'.
      cbn [activeSessions with_activeSessions]. rewrite Hrows.
      rewrite !filter_app, filter_cons. by rewrite decide_False by lia. }
    unfold getStats. cbn [Stats.activeVisitors Stats.activeByPathMap].
    by rewrite Hact.
  - rewrite cleanupStaleSessions_store by done.
    cbn [activeSessions with_activeSessions].
    apply list_elem_of_filter. split; [lia|done].
Qed.

Lemma session_timeout_boundary_witness :
  let r := ActiveSession.mk 1%nat "s2" "/b" 200000 in
  NoDup (row_ids two_sessions)
  ∧ r ∈ activeSessions two_sessions
  ∧ ActiveSession.lastSeen r = 320000 - SESSION_TIMEOUT_MS
  ∧ (r ∉ activeNow 320000 two_sessions)
  ∧ r ∈ activeSessions (fst (cleanupStaleSessions 320000 two_sessions)).
Proof.
  intros r.
  pose proof two_sessions_ids as Hid.
  assert (Hr : r ∈ activeSessions two_sessions)
    by (apply list_elem_of_further, list_elem_of_here).
  assert (Hlast : ActiveSession.lastSeen r = 320000 - SESSION_TIMEOUT_MS)
    by reflexivity.
  destruct (session_timeout_boundary 320000 two_sessions r Hid Hr Hlast)
    as (Hnot & _ & Hkept).
  do 3 (split; [assumption|]). split; [exact Hnot|exact Hkept].
Defined.

(** ** backfillAggregates *)

Lemma with_aggregates_twice s a b c a' b' c' :
  with_aggregates (with_aggregates s a b c) a' b' c' = with_aggregates s a' b' c'.
Proof. done. Qed.

Lemma with_aggregates_id s :
  with_aggregates s (pageViewsByPath s) (totalPageViews s) (uniqueVisitors s) = s.
Proof. by destruct s. Qed.

Lemma items_cons {K} `{Countable K} (sortKey : PageView.t → K) d docs :
  items sortKey (d :: docs) = {[ item sortKey d ]} ∪ items sortKey docs.
Proof. done. Qed.

Lemma backfill_loop (docs : list PageView.t) (st : BackfillState) :
  foldl backfill_step st docs
  = mkBackfill
      (with_aggregates (bf_store st)
         (pageViewsByPath (bf_store st) ∪ items byPathKey docs)
         (totalPageViews (bf_store st) ∪ items totalKey docs)
         (uniqueVisitors (bf_store st)
          ∪ items visitorKey (first_views (seenSessions st) docs)))
      (seenSessions st ∪ list_to_set (PageView.sessionId <$> docs))
      (uniqueCount st + length (first_views (seenSessions st) docs)).
Proof.
  revert st. induction docs as [|d docs IH]; intros [s seen n].
  - cbn [foldl first_views bf_store seenSessions uniqueCount length fmap
         list_fmap]. unfold items. cbn [fmap list_fmap list_to_set].
    rewrite !(right_id_L ∅ (∪)), Nat.add_0_r. by rewrite with_aggregates_id.
  - cbn [foldl]. rewrite IH. unfold backfill_step.
    cbn [bf_store seenSessions uniqueCount first_views].
    rewrite !insertIfDoesNotExist_union, fmap_cons, !items_cons.
    cbn [list_to_set].
    destruct (decide (PageView.sessionId d ∈ seen)) as [Hin|Hin];
      cbn [bf_store seenSessions uniqueCount]; rewrite with_aggregates_twice;
      cbn [pageViewsByPath totalPageViews uniqueVisitors with_aggregates].
    + f_equal; [f_equal|]; set_solver.
    + rewrite items_cons. cbn [length].
      f_equal; [f_equal| |lia]; set_solver.
Qed.

Lemma backfillAggregates_store s :
  fst (backfillAggregates s)
  = with_aggregates s
      (pageViewsByPath s ∪ items byPathKey (pageViews s))
      (totalPageViews s ∪ items totalKey (pageViews s))
      (uniqueVisitors s ∪ items visitorKey (first_views ∅ (pageViews s))).
Proof. unfold backfillAggregates. cbn [fst]. by rewrite backfill_loop. Qed.

Lemma backfillAggregates_result s :
  snd (backfillAggregates s)
  = mkBackfillResult (length (pageViews s))
                     (length (first_views ∅ (pageViews s))).
Proof. unfold backfillAggregates. cbn [snd]. by rewrite backfill_loop. Qed.

Lemma first_views_app seen l1 l2 :
  first_views seen (l1 ++ l2)
  = first_views seen l1
    ++ first_views (seen ∪ list_to_set (PageView.sessionId <$> l1)) l2.
Proof.
  revert seen. induction l1 as [|d l1 IH]; intros seen.
  - cbn. by rewrite (right_id_L ∅ (∪)).
  - cbn [app first_views fmap list_fmap list_to_set].
    destruct (decide (PageView.sessionId d ∈ seen)) as [Hin|Hin].
    + rewrite IH. do 2 f_equal. set_solver.
    + cbn [app]. rewrite IH. do 3 f_equal. set_solver.
Qed.

Lemma items_app {K} `{Countable K} (sortKey : PageView.t → K) l1 l2 :
  items sortKey (l1 ++ l2) = items sortKey l1 ∪ items sortKey l2.
Proof. unfold items. by rewrite fmap_app, list_to_set_app_L. Qed.

Lemma backfill_again_split s done todo :
  pageViews s = done ++ todo →
  let s1 := fst (backfillAggregates s) in
  bf_store (foldl backfill_step (mkBackfill s1 ∅ 0%nat) done) = s1.
Proof.
  intros Hsplit s1. rewrite backfill_loop. cbn [bf_store seenSessions].
  rewrite <- (with_aggregates_id s1) at 4.
  subst s1. rewrite backfillAggregates_store.
  cbn [pageViewsByPath totalPageViews uniqueVisitors with_aggregates].
  rewrite Hsplit, !items_app, first_views_app, items_app.
  f_equal; set_solver.
Qed.

Lemma backfill_again_prefix s n :
  let s1 := fst (backfillAggregates s) in
  bf_store (foldl backfill_step (mkBackfill s1 ∅ 0%nat) (take n (pageViews s1)))
  = s1.
Proof.
  intros s1.
  assert (pageViews s1 = pageViews s) as ->
    by (subst s1; by rewrite backfillAggregates_store).
  apply (backfill_again_split s _ (drop n (pageViews s))).
  by rewrite take_drop.
Qed.

(** C7.  A second run of backfillAggregates returns the store of the first
    run, so the three aggregates are those of the first run, and it returns
    the same counts; after any number of iterations of the second run's loop
    the store is still the store of the first run: no insertion of the second
    run adds an item. *)
Theorem backfillAggregates_idempotent s :
  let s1 := fst (backfillAggregates s) in
  fst (backfillAggregates s1) = s1
  ∧ pageViewsByPath (fst (backfillAggregates s1)) = pageViewsByPath s1
  ∧ totalPageViews (fst (backfillAggregates s1)) = totalPageViews s1
  ∧ uniqueVisitors (fst (backfillAggregates s1)) = uniqueVisitors s1
  ∧ snd (backfillAggregates s1) = snd (backfillAggregates s)
  ∧ ∀ n, bf_store (foldl backfill_step (mkBackfill s1 ∅ 0%nat)
                         (take n (pageViews s1))) = s1.
Proof.
  intros s1.
  assert (fst (backfillAggregates s1) = s1) as Hfix.
  { pose proof (backfill_again_prefix s (length (pageViews s1))) as Hall.
    cbn zeta in Hall. fold s1 in Hall. by rewrite take_ge in Hall by done. }
  split; [exact Hfix|]. rewrite Hfix. do 3 (split; [done|]). split.
  - rewrite !backfillAggregates_result. subst s1.
    by rewrite backfillAggregates_store.
  - apply backfill_again_prefix.
Qed.

Example backfill_counts_once :
  let s := recordPageView 2000000 "/b" "post" "s1"
             (recordPageView 0 "/a" "post" "s1" emptyStore) in
  let s0 := with_aggregates s ∅ ∅ ∅ in
  fst (backfillAggregates s0) = s
  ∧ snd (backfillAggregates s0) = mkBackfillResult 2 1
  ∧ size (uniqueVisitors (fst (backfillAggregates (fst (backfillAggregates s0)))))
    = 1%nat.
Proof. vm_compute. done. Qed.

(** ** Invariants of the store *)

Lemma filter_none {A} (P : A → Prop) `{!∀ x, Decision (P x)} (l : list A) :
  (∀ x, x ∈ l → ¬ P x) → filter P l = [].
Proof.
  induction l as [|a l IH]; intros Hall; [done|].
  rewrite filter_cons, decide_False by (apply Hall; by left).
  apply IH. intros x Hx. apply Hall. by right.
Qed.

Lemma db_get_inserted p pt sid now s :
  Forall (λ d, (PageView._id d < nextId s)%nat) (pageViews s) →
  db_get_pageView (nextId s) (snd (db_insert_pageView p pt sid now s))
  = Some (newView s now p pt sid).
Proof.
  intros Hfresh. unfold db_get_pageView, db_insert_pageView.
  cbn [snd pageViews with_pageViews].
  rewrite filter_app, filter_cons, filter_nil, decide_True by done.
  rewrite filter_none; [done|].
  intros x Hx Heq. rewrite Forall_forall in Hfresh.
  specialize (Hfresh x Hx). lia.
Qed.

Lemma recordPageView_inserted now p pt sid s :
  Forall (λ d, (PageView._id d < nextId s)%nat) (pageViews s) →
  viewedRecently (now - DEDUP_WINDOW_MS) (recentView sid p s) = false →
  recordPageView now p pt sid s
  = update_aggregates (isNewVisitor sid s) (newView s now p pt sid)
      (with_pageViews s (pageViews s ++ [newView s now p pt sid])
                      (S (nextId s))).
Proof.
  intros Hfresh Hold. unfold recordPageView. rewrite Hold.
  pose proof (db_get_inserted p pt sid now s Hfresh) as Hget.
  unfold db_insert_pageView in *. cbn [snd] in Hget. by rewrite Hget.
Qed.

Lemma isNewVisitor_true sid s :
  isNewVisitor sid s = true
  ↔ sid ∉ (list_to_set (PageView.sessionId <$> pageViews s) : gset string).
Proof.
  unfold isNewVisitor, existingSessionView, by_session.
  rewrite elem_of_list_to_set, list_elem_of_fmap.
  destruct (head _) as [e|] eqn:He.
  - split; [done|]. intros Hno. exfalso. apply Hno.
    apply head_Some_elem_of, list_elem_of_filter in He as [Hs He].
    by exists e.
  - split; [|done]. intros _ (d & Hs & Hd). apply head_None in He.
    assert (d ∈ filter (λ d, PageView.sessionId d = sid) (pageViews s)) as Hin
      by by apply list_elem_of_filter.
    rewrite He in Hin. by apply elem_of_nil in Hin.
Qed.

Lemma first_views_snoc pvs d :
  first_views ∅ (pvs ++ [d])
  = first_views ∅ pvs
    ++ (if decide (PageView.sessionId d
                   ∈ (list_to_set (PageView.sessionId <$> pvs) : gset string))
        then [] else [d]).
Proof.
  rewrite first_views_app, (left_id_L ∅ (∪)). cbn [first_views].
  by destruct (decide _).
Qed.

Lemma DEDUP_WINDOW_MS_pos : 0 < DEDUP_WINDOW_MS.
Proof. reflexivity. Qed.

Lemma spaced_snoc pvs e :
  spaced pvs →
  (∀ d, d ∈ pvs →
        PageView.sessionId d = PageView.sessionId e →
        PageView.path d = PageView.path e →
        DEDUP_WINDOW_MS ≤ PageView.timestamp e - PageView.timestamp d) →
  spaced (pvs ++ [e]).
Proof.
  intros Hsp Hnew i j d e' Hij Hi Hj.
  pose proof (lookup_lt_Some _ _ _ Hj) as Hlen.
  rewrite length_app in Hlen. cbn [length] in Hlen.
  destruct (decide (j < length pvs)%nat) as [Hjl|Hjl].
  - rewrite lookup_app_l in Hi by lia. rewrite lookup_app_l in Hj by lia.
    by apply (Hsp i j).
  - assert (j = length pvs) as -> by lia.
    rewrite list_lookup_middle in Hj by done. injection Hj as <-.
    rewrite lookup_app_l in Hi by lia.
    apply Hnew. by apply list_elem_of_lookup_2 in Hi.
Qed.

(** In a spaced table the most recently created view of a pair is also its
    latest by timestamp. *)
Lemma most_recent_latest sid p pvs v d :
  spaced pvs →
  most_recent sid p pvs v →
  d ∈ pvs → same_pair sid p d →
  PageView.timestamp d ≤ PageView.timestamp v.
Proof.
  intros Hsp (older & newer & -> & Hv & Hnewer) Hd Hpair.
  pose proof DEDUP_WINDOW_MS_pos as Hpos.
  apply elem_of_app in Hd as [Hd|Hd].
  - apply list_elem_of_lookup_1 in Hd as [i Hi].
    pose proof (lookup_lt_Some _ _ _ Hi) as Hlt.
    assert (DEDUP_WINDOW_MS ≤ PageView.timestamp v - PageView.timestamp d).
    { apply (Hsp i (length older)); [done| | | |].
      - by rewrite lookup_app_l.
      - by apply list_lookup_middle.
      - destruct Hpair, Hv. congruence.
      - destruct Hpair, Hv. congruence. }
    lia.
  - apply elem_of_cons in Hd as [->|Hd]; [lia|].
    rewrite Forall_forall in Hnewer. by destruct (Hnewer d Hd).
Qed.

Lemma not_viewed_recently now sid p pvs d :
  spaced pvs →
  viewedRecently (now - DEDUP_WINDOW_MS) (last (by_session_path sid p pvs))
  = false →
  d ∈ pvs → same_pair sid p d →
  DEDUP_WINDOW_MS ≤ now - PageView.timestamp d.
Proof.
  intros Hsp Hold Hd Hpair.
  destruct (last (by_session_path sid p pvs)) as [v|] eqn:Hlast.
  - rewrite viewedRecently_Some in Hold. apply bool_decide_eq_false in Hold.
    pose proof (proj1 (recentView_Some sid p
                         (mkStore pvs [] [] [] ∅ ∅ ∅ 0%nat) v) Hlast) as Hv.
    cbn [pageViews] in Hv.
    pose proof (most_recent_latest sid p pvs v d Hsp Hv Hd Hpair). lia.
  - apply last_None, by_session_path_nil in Hlast.
    unfold no_view in Hlast. rewrite Forall_forall in Hlast.
    by destruct (Hlast d Hd).
Qed.

Lemma recordPageView_wf now p pt sid s :
  store_wf s → store_wf (recordPageView now p pt sid s).
Proof.
  intros [[Hpv Hrows] Hid Hsess Hsp Hvis].
  destruct (viewedRecently (now - DEDUP_WINDOW_MS) (recentView sid p s))
    eqn:Hrecent.
  { unfold recordPageView. rewrite Hrecent. by constructor. }
  rewrite recordPageView_inserted by done.
  constructor.
  - split; cbn [pageViews activeSessions nextId update_aggregates
                with_aggregates with_pageViews].
    + apply Forall_app. split.
      * eapply Forall_impl; [exact Hpv|]. cbn. lia.
      * constructor; [cbn; lia|constructor].
    + eapply Forall_impl; [exact Hrows|]. cbn. lia.
  - exact Hid.
  - exact Hsess.
  - cbn [pageViews update_aggregates with_aggregates with_pageViews].
    apply spaced_snoc; [done|]. intros d Hd Hs Hp.
    cbn [newView PageView.sessionId PageView.path PageView.timestamp] in *.
    by apply (not_viewed_recently now sid p (pageViews s) d).
  - unfold visitors_are_first_views in *.
    cbn [pageViews uniqueVisitors update_aggregates with_aggregates
         with_pageViews].
    rewrite first_views_snoc, items_app, <- Hvis.
    cbn [newView PageView.sessionId].
    destruct (isNewVisitor sid s) eqn:Hnew.
    + apply isNewVisitor_true in Hnew. rewrite decide_False by done.
      rewrite insertIfDoesNotExist_union. unfold items.
      cbn [fmap list_fmap list_to_set]. set_solver.
    + assert (sid ∈ (list_to_set (PageView.sessionId <$> pageViews s)
                     : gset string)) as Hin.
      { destruct (decide (sid ∈ (list_to_set
                   (PageView.sessionId <$> pageViews s) : gset string)))
          as [|Hno]; [done|].
        apply isNewVisitor_true in Hno. congruence. }
      rewrite decide_True by done. unfold items.
      cbn [fmap list_fmap list_to_set]. set_solver.
Qed.

Lemma patch_keeps_ids id p now (rows : list ActiveSession.t) :
  ActiveSession._id
    <$> ((λ r, if decide (ActiveSession._id r = id)
               then ActiveSession.patched p now r else r) <$> rows)
  = ActiveSession._id <$> rows.
Proof.
  rewrite <- list_fmap_compose. apply Forall_fmap_ext, Forall_forall.
  intros x _. cbn. by destruct (decide _).
Qed.

Lemma patch_keeps_sessions id p now (rows : list ActiveSession.t) :
  ActiveSession.sessionId
    <$> ((λ r, if decide (ActiveSession._id r = id)
               then ActiveSession.patched p now r else r) <$> rows)
  = ActiveSession.sessionId <$> rows.
Proof.
  rewrite <- list_fmap_compose. apply Forall_fmap_ext, Forall_forall.
  intros x _. cbn. by destruct (decide _).
Qed.

Lemma heartbeat_views now sid p s :
  pageViews (heartbeat now sid p s) = pageViews s
  ∧ uniqueVisitors (heartbeat now sid p s) = uniqueVisitors s.
Proof.
  unfold heartbeat. destruct (head _) as [e|]; [|done].
  by destruct (decide _).
Qed.

Lemma heartbeat_wf now sid p s :
  store_wf s → store_wf (heartbeat now sid p s).
Proof.
  intros [[Hpv Hrows] Hid Hsess Hsp Hvis].
  destruct (heartbeat_views now sid p s) as [Hviews Huv].
  assert (spaced (pageViews (heartbeat now sid p s))) as Hsp'
    by by rewrite Hviews.
  assert (visitors_are_first_views (heartbeat now sid p s)) as Hvis'
    by (unfold visitors_are_first_views; by rewrite Hviews, Huv).
  clear Hviews Huv. revert Hsp' Hvis'. unfold heartbeat.
  destruct (head (by_sessionId sid (activeSessions s))) as [e|] eqn:He.
  - destruct (decide _) as [_|_]; intros Hsp' Hvis'; [by constructor|].
    constructor; try done.
    + split; [done|]. cbn [activeSessions db_patch_activeSession
        with_activeSessions nextId].
      apply Forall_fmap. eapply Forall_impl; [exact Hrows|].
      intros x Hx. cbn. by destruct (decide _).
    + unfold row_ids. cbn [activeSessions db_patch_activeSession
        with_activeSessions]. by rewrite patch_keeps_ids.
    + unfold row_sessions. cbn [activeSessions db_patch_activeSession
        with_activeSessions]. by rewrite patch_keeps_sessions.
  - intros Hsp' Hvis'. pose proof (proj1 (existing_None _ _) He) as Hnone.
    constructor; try done.
    + split; cbn [snd db_insert_activeSession pageViews activeSessions nextId
                  with_activeSessions].
      * eapply Forall_impl; [exact Hpv|]. cbn. lia.
      * apply Forall_app. split.
        -- eapply Forall_impl; [exact Hrows|]. cbn. lia.
        -- constructor; [cbn; lia|constructor].
    + unfold row_ids. cbn [snd db_insert_activeSession activeSessions
        with_activeSessions]. rewrite fmap_app. apply NoDup_app.
      split; [exact Hid|]. split; [|apply NoDup_singleton].
      intros x Hx. cbn. rewrite list_elem_of_singleton. intros ->.
      apply list_elem_of_fmap in Hx as (r & Hr & Hin).
      rewrite Forall_forall in Hrows. specialize (Hrows r Hin). lia.
    + unfold row_sessions. cbn [snd db_insert_activeSession activeSessions
        with_activeSessions]. rewrite fmap_app. apply NoDup_app.
      split; [exact Hsess|]. split; [|apply NoDup_singleton].
      intros x Hx. cbn. rewrite list_elem_of_singleton. intros ->.
      apply list_elem_of_fmap in Hx as (r & Hr & Hin).
      by destruct (Hnone r Hin).
Qed.

Lemma cleanupStaleSessions_wf now s :
  store_wf s → store_wf (fst (cleanupStaleSessions now s)).
Proof.
  intros [[Hpv Hrows] Hid Hsess Hsp Hvis].
  unfold cleanupStaleSessions. cbn [fst]. rewrite delete_all_rows.
  constructor; try done.
  - split; [done|]. cbn [activeSessions with_activeSessions nextId].
    apply Forall_forall. intros x Hx.
    apply list_elem_of_filter in Hx as [_ Hx].
    rewrite Forall_forall in Hrows. by apply Hrows.
  - unfold row_ids. cbn [activeSessions with_activeSessions].
    eapply sublist_NoDup; [exact Hid|]. apply fmap_sublist, sublist_filter.
  - unfold row_sessions. cbn [activeSessions with_activeSessions].
    eapply sublist_NoDup; [exact Hsess|]. apply fmap_sublist, sublist_filter.
Qed.

Lemma backfillAggregates_wf s :
  store_wf s → store_wf (fst (backfillAggregates s)).
Proof.
  intros [[Hpv Hrows] Hid Hsess Hsp Hvis].
  rewrite backfillAggregates_store. constructor; try done.
  unfold visitors_are_first_views in *.
  cbn [uniqueVisitors pageViews with_aggregates]. rewrite <- Hvis.
  apply (idemp_L (∪)).
Qed.

Lemma emptyStore_wf : store_wf emptyStore.
Proof.
  constructor.
  - split; constructor.
  - constructor.
  - constructor.
  - intros i j d e _ Hi. by destruct i.
  - done.
Qed.

Lemma exec_wf c s : store_wf s → store_wf (exec c s).
Proof.
  intros Hwf. unfold exec. destruct (operation c).
  - by apply recordPageView_wf.
  - by apply heartbeat_wf.
  - done.
  - by apply cleanupStaleSessions_wf.
  - by apply backfillAggregates_wf.
Qed.

Lemma run_wf calls s : store_wf s → store_wf (run calls s).
Proof.
  revert s. induction calls as [|c calls IH]; intros s Hwf; [done|].
  cbn [run foldl]. apply IH. by apply exec_wf.
Qed.

Lemma reachable_wf calls : store_wf (run calls emptyStore).
Proof. apply run_wf, emptyStore_wf. Qed.

(** ** The dedup window over sequences of calls *)

Lemma spaced_apart pvs i j d e :
  spaced pvs →
  i ≠ j → pvs !! i = Some d → pvs !! j = Some e →
  PageView.sessionId d = PageView.sessionId e →
  PageView.path d = PageView.path e →
  ¬ Z.abs (PageView.timestamp d - PageView.timestamp e) < DEDUP_WINDOW_MS.
Proof.
  intros Hsp Hij Hi Hj Hs Hp.
  destruct (decide (i < j)%nat) as [Hlt|Hge].
  - pose proof (Hsp i j d e Hlt Hi Hj Hs Hp). lia.
  - assert (j < i)%nat as Hlt by lia.
    pose proof (Hsp j i e d Hlt Hj Hi (eq_sym Hs) (eq_sym Hp)). lia.
Qed.

(** C2.  After any sequence of calls from the empty store whose clock never
    goes back, two different stored views of the same session and path have
    timestamps that differ by at least DEDUP_WINDOW_MS: none is less than 30
    minutes from the other. *)
Theorem stored_views_spaced calls i j d e :
  nondecreasing_clock calls →
  i ≠ j →
  pageViews (run calls emptyStore) !! i = Some d →
  pageViews (run calls emptyStore) !! j = Some e →
  PageView.sessionId d = PageView.sessionId e →
  PageView.path d = PageView.path e →
  ¬ Z.abs (PageView.timestamp d - PageView.timestamp e) < DEDUP_WINDOW_MS.
Proof.
  intros _. apply spaced_apart. apply (wf_spaced _ (reachable_wf calls)).
Qed.

Example boundary_views_are_both_stored :
  pageViews (run two_views_at_the_boundary emptyStore)
  = [PageView.mk 0%nat "/a" "post" "s1" 0; PageView.mk 2%nat "/a" "post" "s1" 1800000].
Proof. vm_compute. reflexivity. Qed.

Lemma stored_views_spaced_witness :
  let d := PageView.mk 0%nat "/a" "post" "s1" 0 in
  let e := PageView.mk 2%nat "/a" "post" "s1" 1800000 in
  nondecreasing_clock two_views_at_the_boundary
  ∧ 0%nat ≠ 1%nat
  ∧ pageViews (run two_views_at_the_boundary emptyStore) !! 0%nat = Some d
  ∧ pageViews (run two_views_at_the_boundary emptyStore) !! 1%nat = Some e
  ∧ ¬ Z.abs (PageView.timestamp d - PageView.timestamp e) < DEDUP_WINDOW_MS.
Proof.
  intros d e.
  assert (Hclock : nondecreasing_clock two_views_at_the_boundary)
    by (cbn; lia).
  assert (Hij : 0%nat ≠ 1%nat) by discriminate.
  assert (Hd : pageViews (run two_views_at_the_boundary emptyStore) !! 0%nat
               = Some d) by (vm_compute; reflexivity).
  assert (He : pageViews (run two_views_at_the_boundary emptyStore) !! 1%nat
               = Some e) by (vm_compute; reflexivity).
  do 4 (split; [assumption|]).
  exact (stored_views_spaced two_views_at_the_boundary 0 1 d e
           Hclock Hij Hd He eq_refl eq_refl).
Defined.

(** ** One row per session *)

Lemma heartbeat_existing now sid p s r :
  r ∈ activeSessions s → ActiveSession.sessionId r = sid →
  row_sessions (heartbeat now sid p s) = row_sessions s
  ∧ row_ids (heartbeat now sid p s) = row_ids s.
Proof.
  intros Hr Hsid. unfold heartbeat.
  destruct (head (by_sessionId sid (activeSessions s))) as [e|] eqn:He.
  - destruct (decide _); [done|]. unfold row_sessions, row_ids.
    cbn [activeSessions db_patch_activeSession with_activeSessions].
    by rewrite patch_keeps_sessions, patch_keeps_ids.
  - by destruct (proj1 (existing_None _ _) He r Hr).
Qed.

Lemma cleanupStaleSessions_sublist now s :
  activeSessions (fst (cleanupStaleSessions now s))
    `sublist_of` activeSessions s.
Proof.
  unfold cleanupStaleSessions. cbn [fst]. rewrite delete_all_rows.
  apply sublist_filter.
Qed.

(** C8.  After any sequence of calls from the empty store, two rows of
    activeSessions with the same sessionId are the same row.  heartbeat keeps
    the ids and the sessions of the rows when the session has a row, and
    appends one row when it has none; the rows after cleanupStaleSessions are
    a sublist of the rows before. *)
Theorem one_row_per_session :
  (∀ calls i j r r',
     activeSessions (run calls emptyStore) !! i = Some r →
     activeSessions (run calls emptyStore) !! j = Some r' →
     ActiveSession.sessionId r = ActiveSession.sessionId r' →
     i = j)
  ∧ (∀ now sid p s r,
       r ∈ activeSessions s → ActiveSession.sessionId r = sid →
       row_sessions (heartbeat now sid p s) = row_sessions s
       ∧ row_ids (heartbeat now sid p s) = row_ids s)
  ∧ (∀ now sid p s,
       (∀ r, r ∈ activeSessions s → ActiveSession.sessionId r ≠ sid) →
       activeSessions (heartbeat now sid p s)
       = activeSessions s ++ [ActiveSession.mk (nextId s) sid p now])
  ∧ (∀ now s,
       activeSessions (fst (cleanupStaleSessions now s))
         `sublist_of` activeSessions s).
Proof.
  split; [|split; [|split]].
  - intros calls i j r r' Hi Hj Hs.
    pose proof (wf_row_sessions _ (reachable_wf calls)) as Hnd.
    apply (proj1 (NoDup_alt _) Hnd i j (ActiveSession.sessionId r)).
    + unfold row_sessions. by rewrite list_lookup_fmap, Hi.
    + unfold row_sessions. by rewrite list_lookup_fmap, Hj, Hs.
  - apply heartbeat_existing.
  - intros now sid p s Hnone. by rewrite heartbeat_insert.
  - apply cleanupStaleSessions_sublist.
Qed.

Example heartbeats_and_cleanup_rows :
  activeSessions (run heartbeats_and_cleanup emptyStore)
  = [ActiveSession.mk 0%nat "s1" "/a" 130000; ActiveSession.mk 1%nat "s2" "/a" 20000].
Proof. vm_compute. reflexivity. Qed.

Lemma one_row_per_session_witness :
  let rows := activeSessions (run heartbeats_and_cleanup emptyStore) in
  let r := ActiveSession.mk 0%nat "s1" "/a" 130000 in
  rows !! 0%nat = Some r
  ∧ (∀ j r', rows !! j = Some r' →
             ActiveSession.sessionId r = ActiveSession.sessionId r' →
             0%nat = j)
  ∧ (∀ x, x ∈ activeSessions emptyStore → ActiveSession.sessionId x ≠ "s1")
  ∧ activeSessions (heartbeat 0 "s1" "/a" emptyStore)
    = activeSessions emptyStore ++ [ActiveSession.mk (nextId emptyStore) "s1" "/a" 0].
Proof.
  intros rows r.
  assert (Hr : rows !! 0%nat = Some r) by (vm_compute; reflexivity).
  assert (Hnone : ∀ x, x ∈ activeSessions emptyStore →
                       ActiveSession.sessionId x ≠ "s1")
    by (intros x Hx; by apply elem_of_nil in Hx).
  destruct one_row_per_session as (Hone & _ & Hins & _).
  split; [exact Hr|]. split; [|split; [exact Hnone|]].
  - intros j r' Hj. exact (Hone heartbeats_and_cleanup 0%nat j r r' Hr Hj).
  - exact (Hins 0 "s1" "/a" emptyStore Hnone).
Defined.

(** ** Unique visitors *)

Lemma first_views_elem seen pvs d :
  d ∈ first_views seen pvs
  ↔ ∃ earlier later,
      pvs = earlier ++ d :: later ∧ (PageView.sessionId d ∉ seen)
      ∧ Forall (λ e, PageView.sessionId e ≠ PageView.sessionId d) earlier.
Proof.
  revert seen. induction pvs as [|a rest IH]; intros seen.
  - cbn [first_views]. split; [by intros ?%elem_of_nil|].
    intros (earlier & later & Hsplit & _). by destruct earlier.
  - cbn [first_views].
    destruct (decide (PageView.sessionId a ∈ seen)) as [Ha|Ha].
    + rewrite IH. split.
      * intros (earlier & later & -> & Hd & Hearlier).
        exists (a :: earlier), later. split; [done|]. split; [done|].
        constructor; [|done]. intros Heq. apply Hd. by rewrite <- Heq.
      * intros (earlier & later & Hsplit & Hd & Hearlier).
        destruct earlier as [|a' earlier]; cbn [app] in Hsplit;
          injection Hsplit as -> ->; [done|].
        exists earlier, later. split; [done|]. split; [done|].
        by apply Forall_cons_1 in Hearlier as [_ ?].
    + rewrite elem_of_cons, IH. split.
      * intros [->|(earlier & later & -> & Hd & Hearlier)].
        -- exists [], rest. split; [done|]. split; [done|constructor].
        -- exists (a :: earlier), later. split; [done|].
           split; [set_solver|]. constructor; [set_solver|done].
      * intros (earlier & later & Hsplit & Hd & Hearlier).
        destruct earlier as [|a' earlier]; cbn [app] in Hsplit;
          injection Hsplit as -> ->; [by left|].
        right. exists earlier, later. split; [done|].
        apply Forall_cons_1 in Hearlier as [Hne Hearlier].
        split; [set_solver|done].
Qed.

Lemma items_elem {K} `{Countable K} (sortKey : PageView.t → K) docs k id :
  (k, id) ∈ items sortKey docs
  ↔ ∃ d, d ∈ docs ∧ sortKey d = k ∧ PageView._id d = id.
Proof.
  unfold items, item. rewrite elem_of_list_to_set, list_elem_of_fmap. split.
  - intros (d & [= -> ->] & Hd). by exists d.
  - intros (d & Hd & <- & <-). by exists d.
Qed.

Lemma visitors_elem s sid id :
  visitors_are_first_views s →
  (sid, id) ∈ uniqueVisitors s
  ↔ ∃ d, first_view_of sid (pageViews s) d ∧ PageView._id d = id.
Proof.
  intros ->. rewrite items_elem. unfold visitorKey, first_view_of. split.
  - intros (d & Hd & Hs & Hid). exists d. split; [|done].
    apply first_views_elem in Hd as (earlier & later & Hsplit & _ & Hearlier).
    exists earlier, later. subst sid. by repeat split.
  - intros (d & (earlier & later & Hsplit & Hs & Hearlier) & Hid).
    exists d. split; [|done]. apply first_views_elem.
    exists earlier, later. subst sid. split; [done|]. split; [|done].
    apply not_elem_of_empty.
Qed.

Lemma first_view_of_unique sid pvs d d' :
  first_view_of sid pvs d → first_view_of sid pvs d' → d = d'.
Proof.
  intros (e1 & l1 & H1 & Hs1 & Hf1) (e2 & l2 & H2 & Hs2 & Hf2).
  revert e2 H2 Hf2. subst pvs.
  induction e1 as [|a e1 IH]; intros [|b e2] H2 Hf2; cbn [app] in H2.
  - by injection H2.
  - injection H2 as -> _. by apply Forall_cons_1 in Hf2 as [? _].
  - injection H2 as -> _. by apply Forall_cons_1 in Hf1 as [? _].
  - injection H2 as -> H2.
    apply Forall_cons_1 in Hf1 as [_ Hf1].
    apply Forall_cons_1 in Hf2 as [_ Hf2].
    by apply (IH Hf1 e2).
Qed.

Lemma first_view_of_exists sid pvs :
  ¬ Forall (λ e, PageView.sessionId e ≠ sid) pvs →
  ∃ d, first_view_of sid pvs d.
Proof.
  induction pvs as [|a pvs IH]; intros Hex.
  - destruct Hex. constructor.
  - destruct (decide (PageView.sessionId a = sid)) as [Ha|Ha].
    + exists a, [], pvs. split; [done|]. split; [done|constructor].
    + destruct IH as (d & earlier & later & -> & Hs & Hearlier).
      { intros Hall. apply Hex. by constructor. }
      exists d, (a :: earlier), later. split; [done|]. split; [done|].
      by constructor.
Qed.

Lemma recordPageView_new_visitor now p pt sid s :
  store_wf s →
  Forall (λ e, PageView.sessionId e ≠ sid) (pageViews s) →
  let s' := recordPageView now p pt sid s in
  pageViews s' = pageViews s ++ [PageView.mk (nextId s) p pt sid now]
  ∧ uniqueVisitors s' = {[ (sid, nextId s) ]} ∪ uniqueVisitors s
  ∧ (sid, nextId s) ∉ uniqueVisitors s.
Proof.
  intros Hwf Hnone s'.
  assert (no_view sid p (pageViews s)) as Hno.
  { eapply Forall_impl; [exact Hnone|]. intros e He [Hs _]. by apply He. }
  split; [by apply recordPageView_insert_first|]. split.
  - subst s'. apply recentView_None in Hno.
    rewrite recordPageView_inserted;
      [|apply (wf_ids _ Hwf)|by rewrite Hno].
    assert (isNewVisitor sid s = true) as ->.
    { apply isNewVisitor_true. rewrite elem_of_list_to_set, list_elem_of_fmap.
      intros (e & Hs & He). rewrite Forall_forall in Hnone.
      by destruct (Hnone e He). }
    cbn [uniqueVisitors update_aggregates with_aggregates with_pageViews].
    by rewrite insertIfDoesNotExist_union.
  - rewrite (visitors_elem s sid (nextId s) (wf_visitors _ Hwf)).
    intros (d & (earlier & later & Hsplit & Hs & _) & _).
    rewrite Forall_forall in Hnone. apply (Hnone d); [|done].
    rewrite Hsplit. apply elem_of_app. right. by left.
Qed.

Lemma recordPageView_known_visitor now p pt sid s :
  store_wf s →
  ¬ Forall (λ e, PageView.sessionId e ≠ sid) (pageViews s) →
  uniqueVisitors (recordPageView now p pt sid s) = uniqueVisitors s.
Proof.
  intros Hwf Hsome.
  destruct (viewedRecently (now - DEDUP_WINDOW_MS) (recentView sid p s))
    eqn:Hrecent.
  { unfold recordPageView. by rewrite Hrecent. }
  rewrite recordPageView_inserted; [|apply (wf_ids _ Hwf)|done].
  assert (isNewVisitor sid s = false) as ->; [|done].
  destruct (isNewVisitor sid s) eqn:Hnew; [|done].
  apply isNewVisitor_true in Hnew. destruct Hsome. apply Forall_forall.
  intros e He Hs. apply Hnew.
  rewrite elem_of_list_to_set, list_elem_of_fmap. by exists e.
Qed.

(** C3.  In a store reached by any sequence of calls, recordPageView adds the
    item of the view it inserts to uniqueVisitors when the session has no
    stored view, and leaves uniqueVisitors as it is when the session has one.
    So after any sequence of calls uniqueVisitors holds, for a session, the
    id of its first view and nothing else: one item for a session with a
    stored view, none for a session without. *)
Theorem unique_visitor_once calls :
  let s := run calls emptyStore in
  (∀ now p pt sid,
     let s' := recordPageView now p pt sid s in
     (Forall (λ e, PageView.sessionId e ≠ sid) (pageViews s) →
      pageViews s' = pageViews s ++ [PageView.mk (nextId s) p pt sid now]
      ∧ uniqueVisitors s' = {[ (sid, nextId s) ]} ∪ uniqueVisitors s
      ∧ (sid, nextId s) ∉ uniqueVisitors s)
     ∧ (¬ Forall (λ e, PageView.sessionId e ≠ sid) (pageViews s) →
        uniqueVisitors s' = uniqueVisitors s))
  ∧ (∀ sid d,
       first_view_of sid (pageViews s) d →
       ∀ id, (sid, id) ∈ uniqueVisitors s ↔ id = PageView._id d)
  ∧ (∀ sid,
       ¬ Forall (λ e, PageView.sessionId e ≠ sid) (pageViews s) →
       ∃ d, first_view_of sid (pageViews s) d
            ∧ ∀ id, (sid, id) ∈ uniqueVisitors s ↔ id = PageView._id d)
  ∧ (∀ sid,
       Forall (λ e, PageView.sessionId e ≠ sid) (pageViews s) →
       ∀ id, (sid, id) ∉ uniqueVisitors s).
Proof.
  intros s. pose proof (reachable_wf calls) as Hwf. fold s in Hwf.
  assert (∀ sid d, first_view_of sid (pageViews s) d →
            ∀ id, (sid, id) ∈ uniqueVisitors s ↔ id = PageView._id d) as Hone.
  { intros sid d Hd id.
    rewrite (visitors_elem s sid id (wf_visitors _ Hwf)). split.
    - intros (d' & Hd' & <-). f_equal.
      by apply (first_view_of_unique sid (pageViews s)).
    - intros ->. by exists d. }
  split; [|split; [exact Hone|split]].
  - intros now p pt sid s'. split.
    + by apply recordPageView_new_visitor.
    + by apply recordPageView_known_visitor.
  - intros sid Hsome.
    destruct (first_view_of_exists sid (pageViews s) Hsome) as [d Hd].
    exists d. split; [done|]. by apply Hone.
  - intros sid Hnone id.
    rewrite (visitors_elem s sid id (wf_visitors _ Hwf)).
    intros (d & (earlier & later & Hsplit & Hs & _) & _).
    rewrite Forall_forall in Hnone. apply (Hnone d); [|done].
    rewrite Hsplit. apply elem_of_app. right. by left.
Qed.

Example one_session_three_paths_visitors :
  let s := run one_session_three_paths emptyStore in
  length (pageViews s) = 4%nat
  ∧ uniqueVisitors s = {[ ("s1", 0%nat) ]}.
Proof. vm_compute. done. Qed.

Lemma unique_visitor_once_witness :
  let s := run one_session_three_paths emptyStore in
  let d := PageView.mk 0%nat "/a" "post" "s1" 0 in
  first_view_of "s1" (pageViews s) d
  ∧ ¬ Forall (λ e, PageView.sessionId e ≠ "s1") (pageViews s)
  ∧ Forall (λ e, PageView.sessionId e ≠ "s2") (pageViews s)
  ∧ (∀ id, ("s1", id) ∈ uniqueVisitors s ↔ id = 0%nat)
  ∧ uniqueVisitors (recordPageView 2000000 "/d" "post" "s1" s)
    = uniqueVisitors s
  ∧ uniqueVisitors (recordPageView 2000000 "/d" "post" "s2" s)
    = {[ ("s2", nextId s) ]} ∪ uniqueVisitors s.
Proof.
  intros s d.
  assert (Hd : first_view_of "s1" (pageViews s) d).
  { exists [], (tail (pageViews s)). split; [by vm_compute|].
    split; [done|constructor]. }
  assert (Hsome : ¬ Forall (λ e, PageView.sessionId e ≠ "s1") (pageViews s)).
  { intros Hall. rewrite Forall_forall in Hall. apply (Hall d); [|done].
    destruct Hd as (earlier & later & -> & _). apply elem_of_app.
    right. by left. }
  assert (Hnone : Forall (λ e, PageView.sessionId e ≠ "s2") (pageViews s))
    by (vm_compute; repeat constructor; discriminate).
  destruct (unique_visitor_once one_session_three_paths)
    as (Hcall & Hfirst & _ & _).
  do 3 (split; [assumption|]). split; [|split].
  - exact (Hfirst "s1" d Hd).
  - exact (proj2 (Hcall 2000000 "/d" "post" "s1") Hsome).
  - exact (proj1 (proj2 (proj1 (Hcall 2000000 "/d" "post" "s2") Hnone))).
Defined.

(** ** getStats *)

Lemma size_list_to_set_remove_dups (l : list string) :
  size (list_to_set l : gset string) = length (remove_dups l).
Proof.
  rewrite <- (size_list_to_set (C:=gset string) (remove_dups l))
    by apply NoDup_remove_dups.
  f_equal. apply set_eq. intros x.
  by rewrite !elem_of_list_to_set, elem_of_remove_dups.
Qed.

Lemma by_timestamp_first_least pvs :
  match by_timestamp_first pvs with
  | None => pvs = []
  | Some e =>
      e ∈ pvs
      ∧ Forall (λ d, PageView.timestamp e ≤ PageView.timestamp d) pvs
  end.
Proof.
  induction pvs as [|d rest IH]; [done|]. cbn [by_timestamp_first].
  destruct (by_timestamp_first rest) as [e|].
  - destruct IH as [He Hleast].
    destruct (decide (PageView.timestamp e < PageView.timestamp d)) as [Hlt|Hge].
    + split; [by right|]. constructor; [lia|done].
    + split; [by left|]. constructor; [lia|].
      eapply Forall_impl; [exact Hleast|]. cbn. lia.
  - subst rest. split; [by left|]. constructor; [lia|constructor].
Qed.

(** The figures [getStats] computes come from a scan of the table and do not
    depend on the aggregates. *)
Lemma getStats_scans_table now s :
  Stats.totalPageViews (getStats now s) = length (pageViews s)
  ∧ Stats.uniqueVisitors (getStats now s)
    = length (remove_dups (PageView.sessionId <$> pageViews s))
  ∧ (∀ a b c, getStats now (with_aggregates s a b c) = getStats now s)
  ∧ match Stats.trackingSince (getStats now s) with
    | None => pageViews s = []
    | Some t =>
        (∃ d, d ∈ pageViews s ∧ PageView.timestamp d = t)
        ∧ Forall (λ d, t ≤ PageView.timestamp d) (pageViews s)
    end.
Proof.
  split; [done|]. split; [apply size_list_to_set_remove_dups|].
  split; [done|].
  cbn [getStats Stats.trackingSince].
  pose proof (by_timestamp_first_least (pageViews s)) as Hleast.
  destruct (by_timestamp_first (pageViews s)) as [e|]; cbn [fmap option_fmap
    option_map]; [|done].
  destruct Hleast as [He Hleast]. split; [by exists e|done].
Qed.

Example getStats_ignores_aggregates :
  let s := run one_session_three_paths emptyStore in
  let stats := getStats 2000000 (with_aggregates s ∅ ∅ ∅) in
  Stats.totalPageViews stats = 4%nat
  ∧ Stats.uniqueVisitors stats = 1%nat
  ∧ Stats.trackingSince stats = Some 0
  ∧ Stats.trackingSince (getStats 0 emptyStore) = None.
Proof. vm_compute. done. Qed.

(** ** Ids and aggregates over sequences of calls *)

Lemma heartbeat_frame now sid p s :
  ∃ rows n, heartbeat now sid p s = with_activeSessions s rows n.
Proof.
  unfold heartbeat. destruct (head _) as [e|].
  - destruct (decide _).
    + exists (activeSessions s), (nextId s). by rewrite with_activeSessions_id.
    + by eexists _, _.
  - by eexists _, _.
Qed.

Lemma recordPageView_in_step now p pt sid s :
  store_wf s → aggregates_in_step s →
  aggregates_in_step (recordPageView now p pt sid s).
Proof.
  intros Hwf [Hids Hby Htot].
  destruct (viewedRecently (now - DEDUP_WINDOW_MS) (recentView sid p s))
    eqn:Hrecent.
  { unfold recordPageView. rewrite Hrecent. by constructor. }
  destruct (wf_ids _ Hwf) as [Hpv Hrows].
  rewrite recordPageView_inserted by done. constructor.
  - unfold view_ids, row_ids in *.
    cbn [pageViews activeSessions update_aggregates with_aggregates
         with_pageViews].
    rewrite fmap_app. cbn [fmap list_fmap newView PageView._id].
    apply NoDup_app in Hids as (Hv & Hdisj & Hr).
    apply NoDup_app. split; [|split; [|done]].
    + apply NoDup_app. split; [done|]. split; [|apply NoDup_singleton].
      intros x Hx. rewrite list_elem_of_singleton. intros ->.
      apply list_elem_of_fmap in Hx as (d & Hd & Hin).
      rewrite Forall_forall in Hpv. specialize (Hpv d Hin). lia.
    + intros x Hx. apply elem_of_app in Hx as [Hx|Hx]; [by apply Hdisj|].
      apply list_elem_of_singleton in Hx as ->. intros Hx.
      apply list_elem_of_fmap in Hx as (r & Hr' & Hin).
      rewrite Forall_forall in Hrows. specialize (Hrows r Hin). lia.
  - cbn [pageViews pageViewsByPath update_aggregates with_aggregates
         with_pageViews].
    rewrite insertIfDoesNotExist_union, items_app, Hby. unfold items at 3.
    cbn [fmap list_fmap list_to_set]. set_solver.
  - cbn [pageViews totalPageViews update_aggregates with_aggregates
         with_pageViews].
    rewrite insertIfDoesNotExist_union, items_app, Htot. unfold items at 3.
    cbn [fmap list_fmap list_to_set]. set_solver.
Qed.

Lemma heartbeat_in_step now sid p s :
  store_wf s → aggregates_in_step s →
  aggregates_in_step (heartbeat now sid p s).
Proof.
  intros Hwf [Hids Hby Htot].
  destruct (wf_ids _ Hwf) as [Hpv Hrows].
  destruct (heartbeat_frame now sid p s) as (rows & n & Heq).
  constructor; [|by rewrite Heq|by rewrite Heq].
  unfold view_ids. rewrite (proj1 (heartbeat_views now sid p s)).
  fold (view_ids s). clear Heq. unfold heartbeat.
  destruct (head (by_sessionId sid (activeSessions s))) as [e|] eqn:He.
  - destruct (decide _); [done|]. unfold row_ids in *.
    cbn [activeSessions db_patch_activeSession with_activeSessions].
    by rewrite patch_keeps_ids.
  - unfold row_ids in *.
    cbn [snd db_insert_activeSession activeSessions with_activeSessions].
    rewrite fmap_app, app_assoc. cbn [fmap list_fmap ActiveSession._id].
    apply NoDup_app. split; [done|]. split; [|apply NoDup_singleton].
    intros x Hx. rewrite list_elem_of_singleton. intros ->.
    apply elem_of_app in Hx as [Hx|Hx].
    + apply list_elem_of_fmap in Hx as (d & Hd & Hin).
      rewrite Forall_forall in Hpv. specialize (Hpv d Hin). lia.
    + apply list_elem_of_fmap in Hx as (r & Hr & Hin).
      rewrite Forall_forall in Hrows. specialize (Hrows r Hin). lia.
Qed.

Lemma cleanupStaleSessions_in_step now s :
  aggregates_in_step s →
  aggregates_in_step (fst (cleanupStaleSessions now s)).
Proof.
  intros [Hids Hby Htot]. unfold cleanupStaleSessions. cbn [fst].
  rewrite delete_all_rows. constructor; [|done|done].
  unfold view_ids, row_ids in *.
  cbn [pageViews activeSessions with_activeSessions].
  eapply sublist_NoDup; [exact Hids|].
  apply sublist_app; [done|]. apply fmap_sublist, sublist_filter.
Qed.

Lemma backfillAggregates_in_step s :
  aggregates_in_step s → aggregates_in_step (fst (backfillAggregates s)).
Proof.
  intros [Hids Hby Htot]. rewrite backfillAggregates_store.
  constructor; [done| |];
    cbn [pageViews pageViewsByPath totalPageViews with_aggregates].
  - rewrite <- Hby. apply (idemp_L (∪)).
  - rewrite <- Htot. apply (idemp_L (∪)).
Qed.

Lemma run_in_step calls s :
  store_wf s → aggregates_in_step s → aggregates_in_step (run calls s).
Proof.
  revert s. induction calls as [|c calls IH]; intros s Hwf Hstep; [done|].
  cbn [run foldl]. apply IH; [by apply exec_wf|].
  unfold exec. destruct (operation c).
  - by apply recordPageView_in_step.
  - by apply heartbeat_in_step.
  - done.
  - by apply cleanupStaleSessions_in_step.
  - by apply backfillAggregates_in_step.
Qed.

Lemma reachable_in_step calls : aggregates_in_step (run calls emptyStore).
Proof.
  apply run_in_step; [apply emptyStore_wf|]. constructor; [constructor|done|done].
Qed.

Lemma size_items {K} `{Countable K} (sortKey : PageView.t → K)
    (docs : list PageView.t) :
  NoDup (PageView._id <$> docs) → size (items sortKey docs) = length docs.
Proof.
  intros Hnd. unfold items. rewrite size_list_to_set, length_fmap; [done|].
  apply (NoDup_fmap_1 snd). rewrite <- list_fmap_compose.
  by rewrite (list_fmap_ext (snd ∘ item sortKey) PageView._id docs).
Qed.

Lemma first_views_sublist seen pvs : first_views seen pvs `sublist_of` pvs.
Proof.
  revert seen. induction pvs as [|d pvs IH]; intros seen; [done|].
  cbn [first_views]. destruct (decide _).
  - by apply sublist_cons.
  - by apply sublist_skip.
Qed.

Lemma difference_first_session (sid : string) (S seen : gset string) :
  sid ∉ seen →
  ({[ sid ]} ∪ S) ∖ seen = {[ sid ]} ∪ S ∖ ({[ sid ]} ∪ seen).
Proof.
  intros Hin. apply set_eq. intros x.
  rewrite !elem_of_difference, !elem_of_union, elem_of_difference,
    elem_of_union, elem_of_singleton.
  destruct (decide (x = sid)) as [->|Hne]; tauto.
Qed.

Lemma length_first_views seen pvs :
  length (first_views seen pvs)
  = size ((list_to_set (PageView.sessionId <$> pvs) : gset string) ∖ seen).
Proof.
  revert seen. induction pvs as [|d pvs IH]; intros seen.
  - cbn [first_views fmap list_fmap list_to_set length].
    replace ((∅ : gset string) ∖ seen) with (∅ : gset string);
      [by rewrite size_empty|].
    apply set_eq. intros x. rewrite elem_of_difference, elem_of_empty. tauto.
  - cbn [first_views fmap list_fmap list_to_set].
    destruct (decide (PageView.sessionId d ∈ seen)) as [Hin|Hin].
    + rewrite IH. f_equal. apply set_eq. intros x.
      rewrite !elem_of_difference, elem_of_union, elem_of_singleton.
      split; [tauto|]. intros [[->|Hx] Hno]; tauto.
    + cbn [length]. rewrite IH, difference_first_session by done.
      rewrite (size_union (C:=gset string) {[PageView.sessionId d]}),
        size_singleton; [done|].
      apply elem_of_disjoint. intros x Hx.
      rewrite elem_of_difference, elem_of_union. tauto.
Qed.

Lemma length_first_views_empty pvs :
  length (first_views ∅ pvs)
  = size (list_to_set (PageView.sessionId <$> pvs) : gset string).
Proof. rewrite length_first_views. f_equal. set_solver. Qed.

Lemma NoDup_view_ids s : aggregates_in_step s → NoDup (view_ids s).
Proof. intros [Hids _ _]. by apply NoDup_app in Hids as (? & _ & _). Qed.

Lemma run_pageViews_prefix calls s :
  pageViews s `prefix_of` pageViews (run calls s).
Proof.
  revert s. induction calls as [|c calls IH]; intros s; [done|].
  cbn [run foldl]. etrans; [|apply IH].
  unfold exec. destruct (operation c) as [p pt sid|sid p| | |].
  - rewrite recordPageView_pageViews. destruct (viewedRecently _ _); [done|].
    by apply prefix_app_r.
  - by rewrite (proj1 (heartbeat_views _ _ _ _)).
  - done.
  - unfold cleanupStaleSessions. cbn [fst]. by rewrite delete_all_rows.
  - by rewrite backfillAggregates_store.
Qed.

(** X4.  In a store reached from the empty store, replace the three
    aggregates by any subsets of them (all empty after a reset, all unchanged
    when nothing was lost): backfillAggregates gives the store back. *)
Theorem backfill_restores_aggregates calls a b c :
  let s := run calls emptyStore in
  a ⊆ pageViewsByPath s → b ⊆ totalPageViews s → c ⊆ uniqueVisitors s →
  fst (backfillAggregates (with_aggregates s a b c)) = s.
Proof.
  intros s Ha Hb Hc.
  pose proof (reachable_wf calls) as Hwf. fold s in Hwf.
  destruct (reachable_in_step calls) as [_ Hby Htot]. fold s in Hby, Htot.
  pose proof (wf_visitors _ Hwf) as Hvis. unfold visitors_are_first_views in Hvis.
  rewrite backfillAggregates_store, with_aggregates_twice.
  cbn [pageViews pageViewsByPath totalPageViews uniqueVisitors with_aggregates].
  rewrite <- Hby, <- Htot, <- Hvis.
  transitivity (with_aggregates s (pageViewsByPath s) (totalPageViews s)
                  (uniqueVisitors s)); [|apply with_aggregates_id].
  f_equal; by apply subseteq_union_1_L.
Qed.

Lemma backfill_restores_aggregates_witness :
  let s := run one_session_three_paths emptyStore in
  (∅ : gset _) ⊆ pageViewsByPath s
  ∧ (∅ : gset _) ⊆ totalPageViews s
  ∧ (∅ : gset _) ⊆ uniqueVisitors s
  ∧ fst (backfillAggregates (with_aggregates s ∅ ∅ ∅)) = s.
Proof.
  intros s.
  assert (Ha : (∅ : gset _) ⊆ pageViewsByPath s) by apply empty_subseteq.
  assert (Hb : (∅ : gset _) ⊆ totalPageViews s) by apply empty_subseteq.
  assert (Hc : (∅ : gset _) ⊆ uniqueVisitors s) by apply empty_subseteq.
  do 3 (split; [assumption|]).
  exact (backfill_restores_aggregates one_session_three_paths ∅ ∅ ∅ Ha Hb Hc).
Defined.

(** ** Calls repeated, and calls seen through getStats *)

Lemma recordPageView_recent now p pt sid s :
  ∃ v, most_recent sid p (pageViews (recordPageView now p pt sid s)) v
       ∧ now - PageView.timestamp v < DEDUP_WINDOW_MS.
Proof.
  pose proof DEDUP_WINDOW_MS_pos as Hpos.
  rewrite recordPageView_pageViews.
  destruct (recentView sid p s) as [v|] eqn:Hrecent.
  - rewrite viewedRecently_Some.
    destruct (decide (now - DEDUP_WINDOW_MS < PageView.timestamp v)) as [Hlt|Hge].
    + rewrite bool_decide_eq_true_2 by done. exists v. split; [|lia].
      by apply recentView_Some.
    + rewrite bool_decide_eq_false_2 by done.
      exists (newView s now p pt sid). split; [by apply most_recent_snoc|].
      cbn. lia.
  - cbn [viewedRecently]. exists (newView s now p pt sid).
    split; [by apply most_recent_snoc|]. cbn. lia.
Qed.

(** X6.  When recordPageView returns, the most recent stored view of the
    pair is less than DEDUP_WINDOW_MS old, whatever the store was; a second
    call for the pair at the same instant changes nothing. *)
Theorem recordPageView_settles now p pt pt' sid s :
  let s' := recordPageView now p pt sid s in
  (∃ v, most_recent sid p (pageViews s') v
        ∧ now - PageView.timestamp v < DEDUP_WINDOW_MS)
  ∧ recordPageView now p pt' sid s' = s'.
Proof.
  intros s'. destruct (recordPageView_recent now p pt sid s) as (v & Hv & Hlt).
  split; [by exists v|]. by apply (recordPageView_skip now p pt' sid s' v).
Qed.

Lemma head_filter_fmap {A} (P : A → Prop) `{!∀ x, Decision (P x)}
    (f : A → A) (l : list A) :
  (∀ x, P (f x) ↔ P x) →
  head (filter P (f <$> l)) = f <$> head (filter P l).
Proof.
  intros Hf. induction l as [|a l IH]; [done|].
  rewrite fmap_cons, !filter_cons.
  destruct (decide (P a)) as [Ha|Ha].
  - by rewrite decide_True by by apply Hf.
  - by rewrite decide_False by by rewrite Hf.
Qed.

Lemma heartbeat_row now sid p s :
  ∃ r, head (by_sessionId sid (activeSessions (heartbeat now sid p s))) = Some r
       ∧ ActiveSession.currentPath r = p
       ∧ now - ActiveSession.lastSeen r < HEARTBEAT_DEDUP_MS.
Proof.
  unfold heartbeat.
  destruct (head (by_sessionId sid (activeSessions s))) as [e|] eqn:He.
  - destruct (decide _) as [[Hp Hlt]|Hno]; [by exists e|].
    exists (ActiveSession.patched p now e).
    cbn [activeSessions db_patch_activeSession with_activeSessions].
    unfold by_sessionId in *. rewrite head_filter_fmap, He.
    + cbn. rewrite decide_True by done. split; [done|]. split; [done|].
      cbn. rewrite Z.sub_diag. reflexivity.
    + intros x. by destruct (decide _).
  - exists (ActiveSession.mk (nextId s) sid p now).
    cbn [snd db_insert_activeSession activeSessions with_activeSessions].
    unfold by_sessionId in *. rewrite filter_app, filter_cons, filter_nil.
    apply head_None in He. rewrite He, decide_True by done.
    split; [done|]. split; [done|]. cbn. rewrite Z.sub_diag. reflexivity.
Qed.

(** X8.  After cleanupStaleSessions no row with
    [lastSeen < now - SESSION_TIMEOUT_MS] is left, whatever the store was,
    and a second call at the same instant deletes nothing and returns 0. *)
Theorem cleanupStaleSessions_settles now s :
  let s' := fst (cleanupStaleSessions now s) in
  Forall (λ r, now - SESSION_TIMEOUT_MS ≤ ActiveSession.lastSeen r)
         (activeSessions s')
  ∧ cleanupStaleSessions now s' = (s', 0%nat).
Proof.
  intros s'.
  assert (Forall (λ r, now - SESSION_TIMEOUT_MS ≤ ActiveSession.lastSeen r)
                 (activeSessions s')) as Hfresh.
  { subst s'. unfold cleanupStaleSessions. cbn [fst]. rewrite delete_all_rows.
    cbn [activeSessions with_activeSessions]. apply Forall_forall.
    intros r Hr. apply list_elem_of_filter in Hr as [Hid Hr].
    apply Z.nlt_ge. intros Hlt. apply Hid. apply list_elem_of_fmap_2.
    unfold staleSessions, by_lastSeen_lt. by apply list_elem_of_filter. }
  split; [done|]. unfold cleanupStaleSessions.
  assert (staleSessions now s' = []) as ->; [|done].
  unfold staleSessions, by_lastSeen_lt. apply filter_none.
  intros r Hr. rewrite Forall_forall in Hfresh. specialize (Hfresh r Hr). lia.
Qed.



(** ** The arrays of getStats *)

Example getStats_arrays_example :
  getStats_pageStats views_and_sessions
  = [PageStat.mk "/b" "Post B" "blog" 2; PageStat.mk "/a" "Page A" "page" 1;
     PageStat.mk "/" "Home" "home" 1]
  ∧ getStats_activeByPath 50 views_and_sessions = [("/b", 2%nat); ("/", 1%nat)]
  ∧ obj_entries [("b", 1%nat); ("10", 2%nat); ("/x", 3%nat); ("2", 4%nat);
                 ("01", 5%nat); ("4294967295", 6%nat)]
    = [("2", 4%nat); ("10", 2%nat); ("b", 1%nat); ("/x", 3%nat);
       ("01", 5%nat); ("4294967295", 6%nat)].
Proof. vm_compute. done. Qed.

Section stable_sort_facts.
Context {A : Type} (before : A → A → bool).

Lemma insert_sorted_Permutation x l : insert_sorted before x l ≡ₚ x :: l.
Proof.
  induction l as [|y l IH]; [done|]. cbn [insert_sorted].
  destruct (before x y); [done|]. rewrite IH. apply Permutation_swap.
Qed.

Lemma stable_sort_Permutation l : stable_sort before l ≡ₚ l.
Proof.
  induction l as [|x l IH]; [done|]. cbn [stable_sort foldr].
  rewrite insert_sorted_Permutation. by apply Permutation_skip.
Qed.

Hypothesis before_total : ∀ a b, before a b = false → before b a = true.
Hypothesis before_trans :
  ∀ a b c, before a b = true → before b c = true → before a c = true.

Lemma insert_sorted_sorted x l :
  StronglySorted (λ a b, before a b = true) l →
  StronglySorted (λ a b, before a b = true) (insert_sorted before x l).
Proof.
  induction l as [|y l IH]; intros Hl; cbn [insert_sorted].
  - repeat constructor.
  - apply StronglySorted_inv in Hl as [Hl Hy].
    destruct (before x y) eqn:Hxy.
    + constructor; [by constructor|]. constructor; [done|].
      eapply Forall_impl; [exact Hy|]. intros z Hz. by apply (before_trans x y z).
    + constructor; [by apply IH|].
      rewrite insert_sorted_Permutation. constructor; [|done].
      by apply before_total.
Qed.

Lemma stable_sort_sorted l :
  StronglySorted (λ a b, before a b = true) (stable_sort before l).
Proof.
  induction l as [|x l IH]; [constructor|]. cbn [stable_sort foldr].
  by apply insert_sorted_sorted.
Qed.
End stable_sort_facts.

Lemma StronglySorted_weaken {A} (R1 R2 : A → A → Prop) (l : list A) :
  (∀ a b, R1 a b → R2 a b) → StronglySorted R1 l → StronglySorted R2 l.
Proof.
  intros Himp. induction 1 as [|x l Hl IH Hx]; constructor; [done|].
  eapply Forall_impl; [exact Hx|]. intros y. apply Himp.
Qed.

Lemma stable_sort_by_count l :
  StronglySorted (λ a b : string * nat, (b.2 ≤ a.2)%nat)
                 (stable_sort by_count_desc l).
Proof.
  eapply StronglySorted_weaken;
    [|apply (stable_sort_sorted by_count_desc)].
  - intros a b Hab. by apply bool_decide_eq_true in Hab.
  - intros a b Hab. apply bool_decide_eq_false in Hab.
    apply bool_decide_eq_true. lia.
  - intros a b c Hab Hbc. apply bool_decide_eq_true in Hab, Hbc.
    apply bool_decide_eq_true. lia.
Qed.

Lemma stable_sort_by_views l :
  StronglySorted (λ a b, (PageStat.views b ≤ PageStat.views a)%nat)
                 (stable_sort by_views_desc l).
Proof.
  eapply StronglySorted_weaken;
    [|apply (stable_sort_sorted by_views_desc)].
  - intros a b Hab. by apply bool_decide_eq_true in Hab.
  - intros a b Hab. apply bool_decide_eq_false in Hab.
    apply bool_decide_eq_true. lia.
  - intros a b c Hab Hbc. apply bool_decide_eq_true in Hab, Hbc.
    apply bool_decide_eq_true. lia.
Qed.

(** *** Objects used as counting maps *)

Lemma obj_get_set k v o k' :
  obj_get (obj_set k v o) k' = if decide (k = k') then Some v else obj_get o k'.
Proof.
  induction o as [|[k0 v0] o IH]; cbn [obj_set obj_get].
  - by destruct (decide (k = k')).
  - destruct (decide (k0 = k)) as [->|Hne]; cbn [obj_get].
    + by destruct (decide (k = k')).
    + rewrite IH. destruct (decide (k0 = k')) as [->|]; [|done].
      by rewrite decide_False by done.
Qed.

Lemma obj_get_None o k : obj_get o k = None ↔ k ∉ o.*1.
Proof.
  induction o as [|[k0 v0] o IH]; cbn [obj_get fmap list_fmap fst].
  - split; [intros _; apply not_elem_of_nil|done].
  - rewrite not_elem_of_cons. destruct (decide (k0 = k)) as [->|Hne].
    + split; [done|]. by intros [? _].
    + rewrite IH. split; [by split|by intros [_ ?]].
Qed.

Lemma obj_set_keys k v o :
  (obj_set k v o).*1 = if decide (k ∈ o.*1) then o.*1 else o.*1 ++ [k].
Proof.
  induction o as [|[k0 v0] o IH]; cbn [obj_set fmap list_fmap fst app].
  - rewrite decide_False; [done|apply not_elem_of_nil].
  - destruct (decide (k0 = k)) as [->|Hne]; cbn [fmap list_fmap fst].
    + rewrite decide_True; [done|by left].
    + rewrite IH. destruct (decide (k ∈ o.*1)) as [Hin|Hin].
      * rewrite decide_True; [done|by right].
      * rewrite decide_False; [done|]. rewrite not_elem_of_cons. by split.
Qed.

Lemma obj_set_sum k o :
  sum_list (obj_set k (S (default 0%nat (obj_get o k))) o).*2
  = S (sum_list o.*2).
Proof.
  induction o as [|[k0 v0] o IH]; cbn [obj_set obj_get]; [done|].
  destruct (decide (k0 = k)) as [->|Hne]; cbn; [done|].
  cbn in IH. rewrite IH. lia.
Qed.

Lemma occurrences_cons k a ks :
  occurrences k (a :: ks)
  = ((if decide (a = k) then 1 else 0) + occurrences k ks)%nat.
Proof.
  unfold occurrences. rewrite filter_cons. by destruct (decide (a = k)).
Qed.

Lemma occurrences_zero k ks : occurrences k ks = 0%nat ↔ k ∉ ks.
Proof.
  induction ks as [|a ks IH]; [by split; [intros _; apply not_elem_of_nil|]|].
  rewrite occurrences_cons, not_elem_of_cons.
  destruct (decide (a = k)) as [->|Hne].
  - split; [lia|]. by intros [? _].
  - cbn. rewrite IH. split; [by split|by intros [_ ?]].
Qed.

Lemma count_loop ks o k :
  default 0%nat (obj_get (foldl count_step o ks) k)
  = (default 0%nat (obj_get o k) + occurrences k ks)%nat
  ∧ (k ∈ (foldl count_step o ks).*1 ↔ k ∈ o.*1 ∨ k ∈ ks)
  ∧ (NoDup o.*1 → NoDup (foldl count_step o ks).*1)
  ∧ sum_list (foldl count_step o ks).*2 = (sum_list o.*2 + length ks)%nat.
Proof.
  revert o. induction ks as [|a ks IH]; intros o.
  - cbn [foldl length]. split; [unfold occurrences; cbn; lia|].
    split; [|split; [done|lia]].
    split; [by left|]. intros [?|Hin]; [done|]. by apply elem_of_nil in Hin.
  - cbn [foldl length]. destruct (IH (count_step o a)) as (Hget & Hkeys & Hnd & Hsum).
    change (count_step o a)
      with (obj_set a (S (default 0%nat (obj_get o a))) o)
      in Hget, Hkeys, Hnd, Hsum |- *.
    rewrite obj_get_set in Hget. rewrite obj_set_keys in Hkeys, Hnd.
    rewrite obj_set_sum in Hsum. rewrite occurrences_cons.
    split; [|split; [|split]].
    + rewrite Hget. destruct (decide (a = k)) as [->|]; cbn; lia.
    + rewrite Hkeys, elem_of_cons.
      destruct (decide (a ∈ o.*1)) as [Hin|Hin].
      * split; [tauto|]. intros [?|[->|?]]; tauto.
      * rewrite elem_of_app, list_elem_of_singleton. split; [|tauto].
        intros [[?|?]|?]; auto.
    + intros Ho. apply Hnd. destruct (decide (a ∈ o.*1)); [done|].
      apply NoDup_app. split; [done|]. split; [|apply NoDup_singleton].
      intros x Hx. rewrite list_elem_of_singleton. by intros ->.
    + rewrite Hsum. lia.
Qed.

Lemma obj_count_get ks k : obj_get (obj_count ks) k = count_of k ks.
Proof.
  unfold count_of, obj_count. fold count_step.
  destruct (count_loop ks [] k) as (Hget & Hkeys & _ & _).
  destruct (decide (k ∈ ks)) as [Hin|Hin].
  - destruct (obj_get (foldl count_step [] ks) k) as [n|] eqn:Hk.
    + cbn in Hget. by rewrite Hget.
    + apply obj_get_None in Hk. destruct Hk. apply Hkeys. by right.
  - apply obj_get_None. rewrite Hkeys. intros [Hk|?]; [|done].
    by apply elem_of_nil in Hk.
Qed.

Lemma count_keys_get ks k : count_keys ks !! k = count_of k ks.
Proof.
  rewrite <- obj_count_get. unfold count_keys, obj_count.
  assert (∀ (m : gmap string nat) (o : JsObject),
            (∀ x, m !! x = obj_get o x) →
            foldl (λ m k, <[k:=S (default 0%nat (m !! k))]> m) m ks !! k
            = obj_get (foldl (λ o k, obj_set k (S (default 0%nat (obj_get o k))) o)
                             o ks) k) as Hboth.
  { induction ks as [|a ks IH]; intros m o Hmo; [apply Hmo|].
    cbn [foldl]. apply IH. intros x. rewrite obj_get_set, Hmo.
    destruct (decide (a = x)) as [->|Hne].
    - by rewrite lookup_insert_eq.
    - by rewrite lookup_insert_ne. }
  by apply Hboth.
Qed.

Lemma occurrences_Permutation k ks ks' :
  ks ≡ₚ ks' → occurrences k ks = occurrences k ks'.
Proof. intros Hp. unfold occurrences. by rewrite Hp. Qed.

Lemma count_of_Permutation k ks ks' : ks ≡ₚ ks' → count_of k ks = count_of k ks'.
Proof.
  intros Hp. unfold count_of. rewrite (occurrences_Permutation k ks ks' Hp).
  destruct (decide (k ∈ ks)) as [Hin|Hin].
  - rewrite decide_True; [done|]. by rewrite <- Hp.
  - rewrite decide_False; [done|]. by rewrite <- Hp.
Qed.

Lemma obj_get_elem o k v : NoDup o.*1 → obj_get o k = Some v ↔ (k, v) ∈ o.
Proof.
  induction o as [|[k0 v0] o IH]; intros Hnd; cbn [obj_get].
  - split; [done|]. by intros ?%elem_of_nil.
  - cbn in Hnd. apply NoDup_cons in Hnd as [Hk0 Hnd]. rewrite elem_of_cons.
    destruct (decide (k0 = k)) as [->|Hne].
    + split; [intros [= ->]; by left|].
      intros [[= ->]|Hin]; [done|]. destruct Hk0.
      apply list_elem_of_fmap. by exists (k, v).
    + rewrite IH by done. split; [by right|]. intros [[= ? ?]|?]; [done|done].
Qed.

Lemma obj_values o :
  NoDup o.*1 → (λ k, default 0%nat (obj_get o k)) <$> o.*1 = o.*2.
Proof.
  induction o as [|[k0 v0] o IH]; intros Hnd; [done|].
  cbn in Hnd. apply NoDup_cons in Hnd as [Hk0 Hnd].
  cbn [fmap list_fmap fst snd obj_get]. rewrite decide_True by done. cbn.
  f_equal. rewrite <- IH by done. apply Forall_fmap_ext, Forall_forall.
  intros k Hk. rewrite decide_False; [done|]. by intros ->.
Qed.

Lemma arrayIndex_rooted k : rooted k → arrayIndex k = None.
Proof. destruct k as [|a rest]; [done|]. cbn. by intros ->. Qed.

Lemma obj_entries_rooted o : Forall rooted o.*1 → obj_entries o = o.
Proof.
  intros Hroot. unfold obj_entries.
  assert (omap (λ e, (λ n, (n, e)) <$> arrayIndex e.1) o = []) as ->.
  { induction o as [|e o IH]; [done|]. cbn in Hroot.
    apply Forall_cons_1 in Hroot as [He Hroot]. cbn [omap list_omap].
    rewrite (arrayIndex_rooted _ He). cbn. by apply IH. }
  cbn. apply filter_all. intros e He. apply arrayIndex_rooted.
  rewrite Forall_forall in Hroot. apply Hroot. by apply list_elem_of_fmap_2.
Qed.

Lemma obj_count_rooted ks : Forall rooted ks → Forall rooted (obj_count ks).*1.
Proof.
  intros Hroot. apply Forall_forall. intros k Hk.
  unfold obj_count in Hk. fold count_step in Hk.
  apply (count_loop ks [] k) in Hk as [Hk|Hk]; [by apply elem_of_nil in Hk|].
  rewrite Forall_forall in Hroot. by apply Hroot.
Qed.

Lemma obj_count_keys ks :
  NoDup (obj_count ks).*1
  ∧ (∀ k, k ∈ (obj_count ks).*1 ↔ k ∈ ks)
  ∧ sum_list (obj_count ks).*2 = length ks.
Proof.
  unfold obj_count. fold count_step. split; [|split].
  - apply (count_loop ks [] ""). constructor.
  - intros k. destruct (count_loop ks [] k) as (_ & Hkeys & _ & _).
    rewrite Hkeys. split; [|by right]. intros [Hk|?]; [|done].
    by apply elem_of_nil in Hk.
  - by destruct (count_loop ks [] "") as (_ & _ & _ & ->).
Qed.

Lemma obj_count_elem ks k v :
  (k, v) ∈ obj_count ks ↔ count_of k ks = Some v.
Proof.
  rewrite <- obj_count_get. symmetry. apply obj_get_elem, obj_count_keys.
Qed.

Lemma count_of_Some k ks v :
  count_of k ks = Some v ↔ k ∈ ks ∧ v = occurrences k ks ∧ (0 < v)%nat.
Proof.
  unfold count_of. destruct (decide (k ∈ ks)) as [Hin|Hin].
  - split.
    + intros [= <-]. split; [done|]. split; [done|].
      destruct (occurrences k ks) eqn:Hocc; [|lia].
      by apply occurrences_zero in Hocc.
    + by intros (_ & -> & _).
  - split; [done|]. by intros [? _].
Qed.

Lemma occurrences_fmap {A} (f : A → string) (l : list A) k :
  occurrences k (f <$> l) = length (filter (λ x, f x = k) l).
Proof.
  unfold occurrences. induction l as [|a l IH]; [done|].
  rewrite fmap_cons, !filter_cons. destruct (decide (f a = k)); cbn; by rewrite IH.
Qed.

Lemma pageStat_path posts pages o p :
  PageStat.path (pageStat posts pages o p) = p.
Proof.
  unfold pageStat. by repeat case_match.
Qed.

Lemma pageStat_views posts pages o p :
  PageStat.views (pageStat posts pages o p) = default 0%nat (obj_get o p).
Proof.
  unfold pageStat. by repeat case_match.
Qed.

Lemma getStats_pageStats_Permutation s :
  Forall rooted (PageView.path <$> pageViews s) →
  getStats_pageStats s
  ≡ₚ pageStat (published_rows (posts s)) (published_rows (pages s))
              (obj_count (PageView.path <$> pageViews s))
       <$> (obj_count (PageView.path <$> pageViews s)).*1.
Proof.
  intros Hroot. unfold getStats_pageStats.
  rewrite stable_sort_Permutation.
  by rewrite obj_entries_rooted by by apply obj_count_rooted.
Qed.

(** The array [getStats_pageStats] when every stored path starts with "/". *)
Lemma getStats_pageStats_counts now s :
  Forall rooted (PageView.path <$> pageViews s) →
  let stats := getStats_pageStats s in
  StronglySorted (λ a b, (PageStat.views b ≤ PageStat.views a)%nat) stats
  ∧ NoDup (PageStat.path <$> stats)
  ∧ (∀ p v, (∃ e, e ∈ stats ∧ PageStat.path e = p ∧ PageStat.views e = v)
            ↔ Stats.pathCountsFromDb (getStats now s) !! p = Some v)
  ∧ (∀ e, e ∈ stats →
          PageStat.views e
          = length (filter (λ d, PageView.path d = PageStat.path e) (pageViews s))
          ∧ (0 < PageStat.views e)%nat)
  ∧ sum_list (PageStat.views <$> stats) = Stats.totalPageViews (getStats now s).
Proof.
  intros Hroot stats.
  pose proof (getStats_pageStats_Permutation s Hroot) as Hperm. fold stats in Hperm.
  set (ks := PageView.path <$> pageViews s) in *.
  set (o := obj_count ks) in *.
  set (f := pageStat (published_rows (posts s)) (published_rows (pages s)) o) in *.
  destruct (obj_count_keys ks) as (Hnd & Hkeys & Hsum). fold o in Hnd, Hkeys, Hsum.
  assert (PageStat.path <$> (f <$> o.*1) = o.*1) as Hpaths.
  { rewrite <- list_fmap_compose. rewrite <- (list_fmap_id o.*1) at 2.
    apply Forall_fmap_ext, Forall_forall. intros k _. apply pageStat_path. }
  assert (∀ e, e ∈ stats →
            PageStat.path e ∈ ks
            ∧ count_of (PageStat.path e) ks = Some (PageStat.views e)) as Hentry.
  { intros e He. rewrite Hperm in He.
    apply list_elem_of_fmap in He as (k & -> & Hk). subst f.
    rewrite pageStat_path, pageStat_views.
    apply Hkeys in Hk. split; [done|]. subst o. rewrite obj_count_get.
    unfold count_of. by rewrite decide_True. }
  split; [apply stable_sort_by_views|]. split; [|split; [|split]].
  - by rewrite Hperm, Hpaths.
  - intros p v. cbn [getStats Stats.pathCountsFromDb]. fold ks.
    rewrite count_keys_get. split.
    + intros (e & He & <- & <-). by apply Hentry.
    + intros Hcount. exists (f p). subst f.
      rewrite pageStat_path, pageStat_views. subst o.
      rewrite obj_count_get, Hcount. split; [|done].
      rewrite Hperm. apply list_elem_of_fmap_2, Hkeys.
      by apply count_of_Some in Hcount as [? _].
  - intros e He. destruct (Hentry e He) as [_ Hcount].
    apply count_of_Some in Hcount as (_ & -> & Hpos). split; [|done].
    subst ks. apply occurrences_fmap.
  - rewrite Hperm. cbn [getStats Stats.totalPageViews].
    rewrite <- list_fmap_compose.
    rewrite (list_fmap_ext (PageStat.views ∘ f)
               (λ k, default 0%nat (obj_get o k))).
    + rewrite obj_values by done. rewrite Hsum. subst ks. apply length_fmap.
    + intros i k _. subst f. apply pageStat_views.
Qed.

Lemma views_and_sessions_rooted :
  Forall rooted (PageView.path <$> pageViews views_and_sessions).
Proof. vm_compute. by repeat constructor. Qed.

Lemma pageStat_cases posts pages o rest :
  let k := String "/" rest in
  let v := default 0%nat (obj_get o k) in
  let post := head (filter (λ p, Content.slug p = rest) posts) in
  let page := head (filter (λ p, Content.slug p = rest) pages) in
  (rest = "" ∧ pageStat posts pages o k = PageStat.mk k "Home" "home" v)
  ∨ (rest = "stats" ∧ pageStat posts pages o k = PageStat.mk k "Stats" "stats" v)
  ∨ (rest ≠ "" ∧ rest ≠ "stats"
     ∧ ∃ p, post = Some p
            ∧ pageStat posts pages o k = PageStat.mk k (Content.title p) "blog" v)
  ∨ (rest ≠ "" ∧ rest ≠ "stats" ∧ post = None
     ∧ ∃ p, page = Some p
            ∧ pageStat posts pages o k = PageStat.mk k (Content.title p) "page" v)
  ∨ (rest ≠ "" ∧ rest ≠ "stats" ∧ post = None ∧ page = None
     ∧ pageStat posts pages o k = PageStat.mk k k "other" v).
Proof.
  intros k v post page. unfold pageStat.
  assert (slugOfPath k = rest) as -> by (subst k; cbn; by rewrite decide_True).
  fold post page v.
  destruct (decide (rest = "")) as [->|Hne].
  { left. split; [done|]. by rewrite decide_True by by left. }
  rewrite decide_False by (subst k; intros [[=]|[=]]; done).
  destruct (decide (rest = "stats")) as [->|Hns].
  { right. left. split; [done|]. by rewrite decide_True. }
  rewrite decide_False by (subst k; intros [=]; done).
  do 2 right. destruct post as [p|].
  - left. do 2 (split; [done|]). by exists p.
  - right. destruct page as [p|].
    + left. do 3 (split; [done|]). by exists p.
    + right. by do 4 (split; [done|]).
Qed.

Lemma first_with_slug rows slug r :
  head (filter (λ p, Content.slug p = slug) (published_rows rows)) = Some r →
  r ∈ rows ∧ Content.published r = true ∧ Content.slug r = slug.
Proof.
  intros Hr. apply head_Some_elem_of, list_elem_of_filter in Hr as [Hs Hr].
  unfold published_rows in Hr. apply list_elem_of_filter in Hr as [Hp Hr].
  done.
Qed.

Lemma none_with_slug rows slug r :
  head (filter (λ p, Content.slug p = slug) (published_rows rows)) = None →
  r ∈ rows → Content.published r = true → Content.slug r ≠ slug.
Proof.
  intros Hnone Hr Hp Hs. apply head_None in Hnone.
  assert (r ∈ filter (λ p, Content.slug p = slug) (published_rows rows)) as Hin.
  { apply list_elem_of_filter. split; [done|]. unfold published_rows.
    by apply list_elem_of_filter. }
  rewrite Hnone in Hin. by apply elem_of_nil in Hin.
Qed.

(** X12.  When every stored path starts with "/", an entry of [pageStats] has
    one of five page types.  It is "home" exactly for the path "/" and
    "stats" exactly for "/stats"; "blog" only when a published post has the
    path's slug, whose title the entry then has; "page" only when no
    published post but a published page has the slug; "other", with the path
    as title, only when no published post or page has it. *)
Theorem pageStats_classification s e :
  Forall rooted (PageView.path <$> pageViews s) →
  e ∈ getStats_pageStats s →
  PageStat.pageType e ∈ ["home"; "stats"; "blog"; "page"; "other"]
  ∧ (PageStat.pageType e = "home" ↔ PageStat.path e = "/")
  ∧ (PageStat.pageType e = "stats" ↔ PageStat.path e = "/stats")
  ∧ (PageStat.pageType e = "blog" →
     ∃ post, post ∈ posts s ∧ Content.published post = true
             ∧ PageStat.path e = String "/" (Content.slug post)
             ∧ PageStat.title e = Content.title post)
  ∧ (PageStat.pageType e = "page" →
     (∃ page, page ∈ pages s ∧ Content.published page = true
              ∧ PageStat.path e = String "/" (Content.slug page)
              ∧ PageStat.title e = Content.title page)
     ∧ ∀ post, post ∈ posts s → Content.published post = true →
               PageStat.path e ≠ String "/" (Content.slug post))
  ∧ (PageStat.pageType e = "other" →
     PageStat.title e = PageStat.path e
     ∧ ∀ r, r ∈ posts s ∨ r ∈ pages s → Content.published r = true →
            PageStat.path e ≠ String "/" (Content.slug r)).
Proof.
  intros Hroot He. rewrite (getStats_pageStats_Permutation s Hroot) in He.
  apply list_elem_of_fmap in He as (k & -> & Hk).
  assert (rooted k) as Hrooted.
  { pose proof (obj_count_rooted _ Hroot) as Hall.
    rewrite Forall_forall in Hall. by apply Hall. }
  destruct k as [|a rest]; [done|]. cbn in Hrooted. subst a. clear Hk Hroot.
  destruct (pageStat_cases (published_rows (posts s)) (published_rows (pages s))
              (obj_count (PageView.path <$> pageViews s)) rest)
    as [[-> ->]|[[-> ->]|[(Hne & Hns & p & Hp & ->)|[(Hne & Hns & Hnone & p & Hp & ->)
       |(Hne & Hns & Hnone & Hnone' & ->)]]]];
    cbn [PageStat.pageType PageStat.path PageStat.title].
  - split; [set_solver|]. repeat split; try done; discriminate.
  - split; [set_solver|]. repeat split; try done; discriminate.
  - apply first_with_slug in Hp as (Hin & Hpub & <-).
    split; [set_solver|]. split; [split; [discriminate|intros [=]; done]|].
    split; [split; [discriminate|intros [=]; done]|].
    split; [intros _; by exists p|]. split; discriminate.
  - apply first_with_slug in Hp as (Hin & Hpub & <-).
    split; [set_solver|]. split; [split; [discriminate|intros [=]; done]|].
    split; [split; [discriminate|intros [=]; done]|].
    split; [discriminate|]. split; [|discriminate]. intros _.
    split; [by exists p|]. intros post Hpost Hpublished [= Hs].
    by apply (none_with_slug _ _ post Hnone).
  - split; [set_solver|]. split; [split; [discriminate|intros [=]; done]|].
    split; [split; [discriminate|intros [=]; done]|].
    split; [discriminate|]. split; [discriminate|]. intros _.
    split; [done|]. intros r [Hr|Hr] Hpublished [= Hs].
    + by apply (none_with_slug _ _ r Hnone).
    + by apply (none_with_slug _ _ r Hnone').
Qed.

Lemma pageStats_classification_witness :
  let e := PageStat.mk "/a" "Page A" "page" 1 in
  Forall rooted (PageView.path <$> pageViews views_and_sessions)
  ∧ e ∈ getStats_pageStats views_and_sessions
  ∧ ∀ post, post ∈ posts views_and_sessions → Content.published post = true →
            PageStat.path e ≠ String "/" (Content.slug post).
Proof.
  intros e. pose proof views_and_sessions_rooted as Hroot.
  assert (He : e ∈ getStats_pageStats views_and_sessions)
    by (apply list_elem_of_further, list_elem_of_here).
  do 2 (split; [assumption|]).
  exact (proj2 (proj1 (proj2 (proj2 (proj2 (proj2
           (pageStats_classification views_and_sessions e Hroot He)))))
           eq_refl)).
Defined.

Lemma index_by_lastSeen_Permutation rows : index_by_lastSeen rows ≡ₚ rows.
Proof. apply stable_sort_Permutation. Qed.

(** The array [getStats_activeByPath] when the path of every active session
    starts with "/". *)
Lemma getStats_activeByPath_counts now s :
  Forall rooted (ActiveSession.currentPath <$> activeNow now s) →
  let entries := getStats_activeByPath now s in
  StronglySorted (λ a b : string * nat, (b.2 ≤ a.2)%nat) entries
  ∧ NoDup entries.*1
  ∧ (∀ p c, (p, c) ∈ entries
            ↔ Stats.activeByPathMap (getStats now s) !! p = Some c)
  ∧ (∀ p c, (p, c) ∈ entries →
            c = length (filter (λ r, ActiveSession.currentPath r = p)
                               (activeNow now s))
            ∧ (0 < c)%nat)
  ∧ sum_list entries.*2 = Stats.activeVisitors (getStats now s).
Proof.
  intros Hroot entries.
  set (ks := ActiveSession.currentPath <$> activeNow now s) in *.
  set (ks' := ActiveSession.currentPath <$> index_by_lastSeen (activeNow now s)).
  assert (ks' ≡ₚ ks) as Hks
    by (subst ks ks'; by rewrite index_by_lastSeen_Permutation).
  assert (Forall rooted ks') as Hroot' by by rewrite Hks.
  assert (entries ≡ₚ obj_count ks') as Hperm.
  { subst entries. unfold getStats_activeByPath. fold ks'.
    rewrite stable_sort_Permutation.
    by rewrite obj_entries_rooted by by apply obj_count_rooted. }
  destruct (obj_count_keys ks') as (Hnd & Hkeys & Hsum).
  assert (∀ p c, (p, c) ∈ entries ↔ count_of p ks = Some c) as Hentry.
  { intros p c. rewrite Hperm, obj_count_elem.
    by rewrite (count_of_Permutation p ks' ks Hks). }
  split; [apply stable_sort_by_count|]. split; [|split; [|split]].
  - by rewrite Hperm.
  - intros p c. cbn [getStats Stats.activeByPathMap]. fold ks.
    by rewrite count_keys_get.
  - intros p c Hin. apply Hentry, count_of_Some in Hin as (_ & -> & Hpos).
    split; [|done]. subst ks. apply occurrences_fmap.
  - rewrite Hperm, Hsum. cbn [getStats Stats.activeVisitors].
    rewrite Hks. subst ks. apply length_fmap.
Qed.

(** ** Sessions and time *)

(** In a reachable store the rows of [activeNow] are of distinct sessions. *)
Lemma activeNow_distinct_sessions calls now :
  let s := run calls emptyStore in
  Stats.activeVisitors (getStats now s)
  = size (list_to_set (ActiveSession.sessionId <$> activeNow now s)
          : gset string).
Proof.
  intros s. cbn [getStats Stats.activeVisitors].
  rewrite size_list_to_set, length_fmap; [done|].
  pose proof (wf_row_sessions _ (reachable_wf calls)) as Hnd. fold s in Hnd.
  eapply sublist_NoDup; [exact Hnd|].
  apply fmap_sublist. unfold activeNow, by_lastSeen_gt. apply sublist_filter.
Qed.

Lemma exec_clocked t c s :
  clocked t s → t ≤ at_time c → clocked (at_time c) (exec c s).
Proof.
  intros [Hle Hsorted] Ht.
  assert (Forall (λ d, PageView.timestamp d ≤ at_time c) (pageViews s)) as Hle'
    by (eapply Forall_impl; [exact Hle|]; cbn; lia).
  unfold exec. destruct (operation c) as [p pt sid|sid p| | |].
  - unfold clocked. rewrite recordPageView_pageViews.
    destruct (viewedRecently _ _); [done|]. split.
    + apply Forall_app. split; [done|]. constructor; [cbn; lia|constructor].
    + rewrite fmap_app. apply StronglySorted_app. split; [|split; [done|]].
      * intros x1 x2 Hx1 Hx2. cbn in Hx2.
        apply list_elem_of_singleton in Hx2 as ->.
        apply list_elem_of_fmap in Hx1 as (d & -> & Hd).
        rewrite Forall_forall in Hle'. by apply Hle'.
      * repeat constructor.
  - unfold clocked. by rewrite (proj1 (heartbeat_views (at_time c) sid p s)).
  - done.
  - unfold clocked, cleanupStaleSessions. cbn [fst]. by rewrite delete_all_rows.
  - unfold clocked. by rewrite backfillAggregates_store.
Qed.

Lemma run_clocked calls t s :
  clocked t s → clock_from t calls → ∃ t', clocked t' (run calls s).
Proof.
  revert t s. induction calls as [|c calls IH]; intros t s Hs Hclock.
  - by exists t.
  - destruct Hclock as [Ht Hclock]. cbn [run foldl].
    apply (IH (at_time c)); [by apply (exec_clocked t)|done].
Qed.

Lemma reachable_clocked calls :
  nondecreasing_clock calls → ∃ t, clocked t (run calls emptyStore).
Proof.
  intros Hclock. destruct calls as [|c calls].
  - exists 0. split; constructor.
  - apply (run_clocked (c :: calls) (at_time c)).
    + split; constructor.
    + split; [lia|done].
Qed.

Lemma clock_from_app t calls more :
  clock_from t (calls ++ more) → clock_from t calls.
Proof.
  revert t. induction calls as [|c calls IH]; intros t; [done|].
  intros [Ht Hrest]. split; [done|]. by apply IH.
Qed.

Lemma nondecreasing_clock_app calls more :
  nondecreasing_clock (calls ++ more) → nondecreasing_clock calls.
Proof. destruct calls as [|c calls]; [done|]. apply clock_from_app. Qed.

Lemma by_timestamp_first_sorted pvs :
  StronglySorted Z.le (PageView.timestamp <$> pvs) →
  by_timestamp_first pvs = head pvs.
Proof.
  induction pvs as [|d pvs IH]; [done|]. rewrite fmap_cons.
  intros [Hd Hsorted]%StronglySorted_cons. cbn [by_timestamp_first head].
  rewrite IH by done. destruct pvs as [|e pvs]; [done|]. cbn [head].
  rewrite fmap_cons in Hd. apply Forall_cons_1 in Hd as [Hde _].
  by rewrite decide_False by lia.
Qed.

Lemma run_app calls more s : run (calls ++ more) s = run more (run calls s).
Proof. apply foldl_app. Qed.

(** With a clock that never goes back the earliest view is the first one
    created, and it stays the first. *)
Lemma first_view_is_earliest calls more now now' :
  nondecreasing_clock (calls ++ more) →
  let s := run calls emptyStore in
  let s' := run (calls ++ more) emptyStore in
  Stats.trackingSince (getStats now s) = PageView.timestamp <$> head (pageViews s)
  ∧ (∀ t, Stats.trackingSince (getStats now s) = Some t →
          Stats.trackingSince (getStats now' s') = Some t).
Proof.
  intros Hclock s s'.
  destruct (reachable_clocked calls (nondecreasing_clock_app _ _ Hclock))
    as (t0 & _ & Hsorted). fold s in Hsorted.
  destruct (reachable_clocked _ Hclock) as (t1 & _ & Hsorted'). fold s' in Hsorted'.
  cbn [getStats Stats.trackingSince].
  rewrite !by_timestamp_first_sorted by done. split; [done|].
  intros t Ht. pose proof (run_pageViews_prefix more s) as [extra Hpre].
  subst s'. rewrite run_app. fold s. rewrite Hpre.
  destruct (pageViews s); [done|]. done.
Qed.

(** ** The getStats query *)

Example getStats_handler_examples :
  getStats_handler 50 views_and_sessions = Some views_and_sessions_stats
  ∧ getStats_handler 0 view_of_constructor = None
  ∧ getStats_handler 0 (heartbeat 0 "s1" "toString" emptyStore) = None
  ∧ StatsResult.pageStats
      <$> getStats_handler 0 (recordPageView 0 "__proto__" "post" "s1" emptyStore)
    = Some []
  ∧ StatsResult.totalPageViews
      <$> getStats_handler 0 (recordPageView 0 "__proto__" "post" "s1" emptyStore)
    = Some 1%nat.
Proof. vm_compute. done. Qed.

Lemma js_put_elem k v m e : e ∈ js_put k v m → e = (k, v) ∨ e ∈ m.
Proof.
  induction m as [|[k0 v0] m IH]; cbn [js_put].
  - intros He%list_elem_of_singleton. by left.
  - destruct (decide (k0 = k)) as [->|Hne].
    + intros [->|He]%elem_of_cons; [by left|]. right. by right.
    + intros [->|He]%elem_of_cons; [right; by left|].
      destruct (IH He) as [->|Hin]; [by left|]. right. by right.
Qed.

Lemma js_put_here k v m : (k, v) ∈ js_put k v m.
Proof.
  induction m as [|[k0 v0] m IH]; cbn [js_put]; [by left|].
  destruct (decide (k0 = k)); [by left|by right].
Qed.

Lemma js_put_keep k v m e : e ∈ m → e.1 ≠ k → e ∈ js_put k v m.
Proof.
  induction m as [|[k0 v0] m IH]; cbn [js_put]; [by intros ?%elem_of_nil|].
  intros [->|He]%elem_of_cons Hne.
  - cbn in Hne. rewrite decide_False by done. by left.
  - destruct (decide (k0 = k)); right; [done|by apply IH].
Qed.

Lemma js_own_elem m k v : js_own m k = Some v → (k, v) ∈ m.
Proof.
  induction m as [|[k0 v0] m IH]; cbn [js_own]; [done|].
  destruct (decide (k0 = k)) as [->|Hne].
  - intros [= ->]. by left.
  - intros Hv. right. by apply IH.
Qed.

Lemma proto_is_no_method : "__proto__" ∉ inheritedMethods.
Proof.
  unfold inheritedMethods. intros Hin.
  repeat (apply elem_of_cons in Hin as [[=]|Hin]). by apply elem_of_nil in Hin.
Qed.

Lemma js_step_counted ks m k :
  js_counted ks m → js_counted (ks ++ [k]) (js_step m k).
Proof.
  intros [Hentries Hkeys]. unfold js_step, js_set.
  destruct (decide (k = "__proto__")) as [->|Hk].
  { split.
    - intros k' v Hin. destruct (Hentries k' v Hin) as (? & ? & ?).
      split; [|done]. apply elem_of_app. by left.
    - intros k' [Hin|Hin%list_elem_of_singleton]%elem_of_app Hne; [|done].
      by apply Hkeys. }
  assert (js_plus_one m k = JsString ↔ k ∈ inheritedMethods) as Hvalue.
  { unfold js_plus_one. destruct (js_own m k) as [[n|]|] eqn:Hown.
    - apply js_own_elem, Hentries in Hown as (_ & _ & Hiff).
      split; [done|]. intros Hin. by apply Hiff in Hin.
    - apply js_own_elem, Hentries in Hown as (_ & _ & Hiff).
      split; [intros _; by apply Hiff|done].
    - destruct (decide (k = "__proto__" ∨ k ∈ inheritedMethods)) as [[?|?]|Hno].
      + done.
      + done.
      + split; [done|]. intros Hin. destruct Hno. by right. }
  split.
  - intros k' v Hin. apply js_put_elem in Hin as [[= -> ->]|Hin].
    + split; [|done]. apply elem_of_app. right. by left.
    + destruct (Hentries k' v Hin) as (? & ? & ?).
      split; [|done]. apply elem_of_app. by left.
  - intros k' Hin Hne. destruct (decide (k' = k)) as [->|Hkk].
    + apply list_elem_of_fmap. exists (k, js_plus_one m k).
      split; [done|apply js_put_here].
    + apply elem_of_app in Hin as [Hin|Hin%list_elem_of_singleton]; [|done].
      apply Hkeys in Hin; [|done].
      apply list_elem_of_fmap in Hin as ([k0 v0] & -> & Hin).
      apply list_elem_of_fmap. exists (k0, v0). split; [done|].
      by apply js_put_keep.
Qed.

Lemma js_count_counted ks : js_counted ks (js_count ks).
Proof.
  induction ks as [|k ks IH] using rev_ind.
  - split; [by intros k v ?%elem_of_nil|by intros k ?%elem_of_nil].
  - unfold js_count. rewrite foldl_snoc. by apply js_step_counted.
Qed.

Lemma js_numbers_is_Some m :
  is_Some (js_numbers m) ↔ ∀ k v, (k, v) ∈ m → v ≠ JsString.
Proof.
  unfold js_numbers, JsObject. etrans; [apply mapM_is_Some|].
  rewrite Forall_forall. split.
  - intros Hall k v Hin ->. destruct (Hall _ Hin) as [x Hx]. done.
  - intros Hall [k v] Hin. cbn. destruct v as [n|]; [done|].
    by destruct (Hall k JsString Hin).
Qed.

Lemma js_count_numbers ks :
  is_Some (js_numbers (js_count ks)) ↔ Forall (λ k, k ∉ inheritedMethods) ks.
Proof.
  destruct (js_count_counted ks) as [Hentries Hkeys].
  rewrite js_numbers_is_Some, Forall_forall. split.
  - intros Hall k Hk Hin.
    assert (k ≠ "__proto__") as Hne
      by (intros ->; by apply proto_is_no_method).
    apply Hkeys in Hk; [|done].
    apply list_elem_of_fmap in Hk as ([k0 v0] & -> & Hk0).
    destruct (Hentries _ _ Hk0) as (_ & _ & Hiff).
    apply (Hall _ _ Hk0). by apply Hiff.
  - intros Hall k v Hin ->.
    destruct (Hentries _ _ Hin) as (Hk & _ & Hiff).
    apply (Hall k Hk). by apply Hiff.
Qed.

Lemma js_own_of_numbers o k :
  js_own (js_of_numbers o) k = JsNumber <$> obj_get o k.
Proof.
  induction o as [|[k0 v0] o IH]; [done|]. cbn [js_of_numbers fmap list_fmap
    js_own obj_get fst snd]. destruct (decide (k0 = k)); [done|apply IH].
Qed.

Lemma js_put_of_numbers k n o :
  js_put k (JsNumber n) (js_of_numbers o) = js_of_numbers (obj_set k n o).
Proof.
  induction o as [|[k0 v0] o IH]; [done|]. cbn [js_of_numbers fmap list_fmap
    js_put obj_set fst snd]. destruct (decide (k0 = k)); [done|].
  cbn [fmap list_fmap fst snd]. f_equal. apply IH.
Qed.

Lemma js_step_of_numbers o k :
  plain k → js_step (js_of_numbers o) k = js_of_numbers (count_step o k).
Proof.
  intros [Hproto Hmethod]. unfold js_step, js_set, js_plus_one, count_step.
  rewrite decide_False by done. rewrite js_own_of_numbers.
  destruct (obj_get o k) as [n|]; cbn [fmap option_fmap option_map default].
  - apply js_put_of_numbers.
  - rewrite decide_False by (intros [?|?]; done). apply js_put_of_numbers.
Qed.

Lemma js_count_plain ks :
  Forall plain ks → js_count ks = js_of_numbers (obj_count ks).
Proof.
  unfold js_count, obj_count. fold count_step.
  change (@nil (string * JsValue)) with (js_of_numbers []).
  generalize (@nil (string * nat)) as o.
  induction ks as [|k ks IH]; intros o Hplain; [done|].
  apply Forall_cons_1 in Hplain as [Hk Hplain]. cbn [foldl].
  rewrite js_step_of_numbers by done. by apply IH.
Qed.

Lemma js_numbers_of_numbers o : js_numbers (js_of_numbers o) = Some o.
Proof.
  unfold js_numbers, js_of_numbers. apply mapM_fmap_Some. by intros [k n].
Qed.

Lemma rooted_plain k : rooted k → plain k.
Proof.
  destruct k as [|a rest]; [done|]. cbn. intros ->. split; [done|].
  unfold inheritedMethods. intros Hin.
  repeat (apply elem_of_cons in Hin as [[=]|Hin]). by apply elem_of_nil in Hin.
Qed.

Lemma js_count_rooted ks :
  Forall rooted ks → js_numbers (js_count ks) = Some (obj_count ks).
Proof.
  intros Hroot. rewrite js_count_plain, js_numbers_of_numbers; [done|].
  eapply Forall_impl; [exact Hroot|]. apply rooted_plain.
Qed.

(** *** What the query returns *)

Lemma getStats_handler_figures now s r :
  getStats_handler now s = Some r →
  StatsResult.activeVisitors r = Stats.activeVisitors (getStats now s)
  ∧ StatsResult.totalPageViews r = Stats.totalPageViews (getStats now s)
  ∧ StatsResult.uniqueVisitors r = Stats.uniqueVisitors (getStats now s)
  ∧ StatsResult.publishedPosts r = Stats.publishedPosts (getStats now s)
  ∧ StatsResult.publishedPages r = Stats.publishedPages (getStats now s)
  ∧ StatsResult.trackingSince r = Stats.trackingSince (getStats now s).
Proof.
  unfold getStats_handler.
  destruct (js_numbers (js_count (ActiveSession.currentPath <$> _))); [|done].
  destruct (js_numbers (js_count (PageView.path <$> _))); [|done].
  intros [= <-]. cbn. split; [|done].
  apply Permutation_length, index_by_lastSeen_Permutation.
Qed.

Lemma getStats_handler_returns now s :
  is_Some (getStats_handler now s)
  ↔ Forall (λ k, k ∉ inheritedMethods) (PageView.path <$> pageViews s)
    ∧ Forall (λ k, k ∉ inheritedMethods)
             (ActiveSession.currentPath <$> activeNow now s).
Proof.
  rewrite <- (js_count_numbers (PageView.path <$> pageViews s)).
  assert (Forall (λ k, k ∉ inheritedMethods)
                 (ActiveSession.currentPath <$> activeNow now s)
          ↔ is_Some (js_numbers (js_count (ActiveSession.currentPath
                       <$> index_by_lastSeen (activeNow now s))))) as ->.
  { rewrite js_count_numbers. by rewrite index_by_lastSeen_Permutation. }
  unfold getStats_handler.
  destruct (js_numbers (js_count (ActiveSession.currentPath <$> _))) as [a|];
    destruct (js_numbers (js_count (PageView.path <$> _))) as [b|].
  - split; [by split|by eexists].
  - split; [by intros [? ?]|by intros [[? ?] _]].
  - split; [by intros [? ?]|by intros [_ [? ?]]].
  - split; [by intros [? ?]|by intros [[? ?] _]].
Qed.

Lemma getStats_handler_pageStats now s r :
  Forall rooted (PageView.path <$> pageViews s) →
  getStats_handler now s = Some r →
  StatsResult.pageStats r = getStats_pageStats s.
Proof.
  intros Hroot. unfold getStats_handler.
  rewrite (js_count_rooted _ Hroot).
  destruct (js_numbers (js_count (ActiveSession.currentPath <$> _))); [|done].
  by intros [= <-].
Qed.

Lemma getStats_handler_activeByPath now s r :
  Forall rooted (ActiveSession.currentPath <$> activeNow now s) →
  getStats_handler now s = Some r →
  StatsResult.activeByPath r = getStats_activeByPath now s.
Proof.
  intros Hroot. unfold getStats_handler.
  rewrite (js_count_rooted (ActiveSession.currentPath
             <$> index_by_lastSeen (activeNow now s)))
    by by rewrite index_by_lastSeen_Permutation.
  destruct (js_numbers (js_count (PageView.path <$> _))); [|done].
  by intros [= <-].
Qed.

Lemma stats_examples :
  getStats_handler 0 (run two_views_at_the_boundary emptyStore)
  = Some stats_at_the_boundary
  ∧ getStats_handler 0
      (run (two_views_at_the_boundary ++ two_more_calls) emptyStore)
    = Some stats_after_two_more
  ∧ getStats_handler 130000 (run heartbeats_and_cleanup emptyStore)
    = Some stats_of_heartbeats
  ∧ getStats_handler 2000000 (run one_session_three_paths emptyStore)
    = Some stats_of_three_paths
  ∧ getStats_handler 50 views_and_sessions = Some views_and_sessions_stats.
Proof. vm_compute. done. Qed.

(** C4.  getStats does not return for every store.  On the store with one
    view of the path "constructor", [pathCountsFromDb["constructor"]] is a
    string: the inherited [Object.prototype.constructor] is truthy, and
    adding 1 to a function concatenates.  The returned object then fails
    [views: v.number()] of the [returns] validator and the query throws, at
    any time, instead of returning totalPageViews = 1, uniqueVisitors = 1
    and trackingSince = 0. *)
Theorem getStats_fails_on_inherited_name now :
  pageViews view_of_constructor
  = [PageView.mk 0%nat "constructor" "post" "s1" 0]
  ∧ activeSessions view_of_constructor = []
  ∧ js_count (PageView.path <$> pageViews view_of_constructor)
    = [("constructor", JsString)]
  ∧ getStats_handler now view_of_constructor = None.
Proof.
  split; [by vm_compute|]. split; [by vm_compute|]. split; [by vm_compute|].
  destruct (getStats_handler now view_of_constructor) as [r|] eqn:Hr; [|done].
  assert (is_Some (getStats_handler now view_of_constructor)) as Hsome
    by by rewrite Hr.
  apply getStats_handler_returns in Hsome as [Hviews _].
  apply Forall_cons_1 in Hviews as [Hno _]. destruct Hno.
  unfold inheritedMethods. by left.
Qed.

(** X20.  getStats returns exactly when no stored path and no path of an
    active session names an inherited method; what it returns does not
    depend on the aggregates; and when it returns, totalPageViews is the
    number of stored views, uniqueVisitors the number of distinct sessionId
    values among them, and trackingSince the least timestamp of a stored
    view, or nothing when no view is stored. *)
Theorem getStats_handler_full_scan now s :
  (is_Some (getStats_handler now s)
   ↔ Forall (λ k, k ∉ inheritedMethods) (PageView.path <$> pageViews s)
     ∧ Forall (λ k, k ∉ inheritedMethods)
              (ActiveSession.currentPath <$> activeNow now s))
  ∧ (∀ a b c, getStats_handler now (with_aggregates s a b c)
              = getStats_handler now s)
  ∧ (∀ r, getStats_handler now s = Some r →
          StatsResult.totalPageViews r = length (pageViews s)
          ∧ StatsResult.uniqueVisitors r
            = length (remove_dups (PageView.sessionId <$> pageViews s))
          ∧ match StatsResult.trackingSince r with
            | None => pageViews s = []
            | Some t =>
                (∃ d, d ∈ pageViews s ∧ PageView.timestamp d = t)
                ∧ Forall (λ d, t ≤ PageView.timestamp d) (pageViews s)
            end).
Proof.
  split; [apply getStats_handler_returns|]. split; [done|].
  intros r Hr.
  destruct (getStats_handler_figures now s r Hr) as (_ & -> & -> & _ & _ & ->).
  destruct (getStats_scans_table now s) as (Htotal & Hunique & _ & Hsince).
  by rewrite Htotal, Hunique.
Qed.

Lemma getStats_handler_full_scan_witness :
  getStats_handler 50 views_and_sessions = Some views_and_sessions_stats
  ∧ StatsResult.totalPageViews views_and_sessions_stats
    = length (pageViews views_and_sessions)
  ∧ StatsResult.uniqueVisitors views_and_sessions_stats
    = length (remove_dups (PageView.sessionId <$> pageViews views_and_sessions)).
Proof.
  pose proof (proj2 (proj2 (proj2 (proj2 stats_examples)))) as Hr.
  split; [exact Hr|].
  destruct (proj2 (proj2 (getStats_handler_full_scan 50 views_and_sessions))
              views_and_sessions_stats Hr) as (Htotal & Hunique & _).
  split; [exact Htotal|exact Hunique].
Defined.

(** X1.  No call deletes or changes a stored view: the views before a
    sequence of calls are a prefix of the views after it, so between two
    results of getStats totalPageViews and uniqueVisitors do not decrease. *)
Theorem pageViews_append_only calls s now now' :
  let s' := run calls s in
  pageViews s `prefix_of` pageViews s'
  ∧ ∀ r r', getStats_handler now s = Some r →
            getStats_handler now' s' = Some r' →
            (StatsResult.totalPageViews r ≤ StatsResult.totalPageViews r')%nat
            ∧ (StatsResult.uniqueVisitors r ≤ StatsResult.uniqueVisitors r')%nat.
Proof.
  intros s'. pose proof (run_pageViews_prefix calls s) as Hpre. fold s' in Hpre.
  split; [done|]. intros r r' Hr Hr'.
  destruct (getStats_handler_figures _ _ _ Hr) as (_ & -> & -> & _).
  destruct (getStats_handler_figures _ _ _ Hr') as (_ & -> & -> & _).
  cbn [getStats Stats.totalPageViews Stats.uniqueVisitors].
  split; [by apply prefix_length|].
  apply subseteq_size. intros x. rewrite !elem_of_list_to_set.
  destruct Hpre as [more ->]. rewrite fmap_app, elem_of_app. by left.
Qed.

Lemma pageViews_append_only_witness :
  getStats_handler 0 (run two_views_at_the_boundary emptyStore)
  = Some stats_at_the_boundary
  ∧ getStats_handler 0
      (run two_more_calls (run two_views_at_the_boundary emptyStore))
    = Some stats_after_two_more
  ∧ (StatsResult.totalPageViews stats_at_the_boundary
     ≤ StatsResult.totalPageViews stats_after_two_more)%nat.
Proof.
  pose proof (proj1 stats_examples) as Hr.
  assert (Hr' : getStats_handler 0
                  (run two_more_calls (run two_views_at_the_boundary emptyStore))
                = Some stats_after_two_more) by (vm_compute; reflexivity).
  do 2 (split; [assumption|]).
  exact (proj1 (proj2 (pageViews_append_only two_more_calls
                         (run two_views_at_the_boundary emptyStore) 0 0)
                  _ _ Hr Hr')).
Defined.

(** X2.  After any sequence of calls from the empty store the aggregates that
    getStats does not read hold one item per stored view (by path and in
    total) and one item per session with a view; whenever getStats returns,
    the sizes of totalPageViews and uniqueVisitors are the totalPageViews and
    uniqueVisitors it returns. *)
Theorem aggregates_agree_with_scan calls :
  let s := run calls emptyStore in
  pageViewsByPath s = items byPathKey (pageViews s)
  ∧ totalPageViews s = items totalKey (pageViews s)
  ∧ size (pageViewsByPath s) = length (pageViews s)
  ∧ size (totalPageViews s) = length (pageViews s)
  ∧ size (uniqueVisitors s)
    = length (remove_dups (PageView.sessionId <$> pageViews s))
  ∧ ∀ now r, getStats_handler now s = Some r →
             size (totalPageViews s) = StatsResult.totalPageViews r
             ∧ size (uniqueVisitors s) = StatsResult.uniqueVisitors r.
Proof.
  intros s.
  pose proof (reachable_wf calls) as Hwf. fold s in Hwf.
  pose proof (reachable_in_step calls) as Hstep. fold s in Hstep.
  pose proof (NoDup_view_ids s Hstep) as Hnd. unfold view_ids in Hnd.
  destruct Hstep as [_ Hby Htot].
  assert (size (totalPageViews s) = length (pageViews s)) as Htotal
    by (rewrite Htot; by apply size_items).
  assert (size (uniqueVisitors s)
          = size (list_to_set (PageView.sessionId <$> pageViews s)
                  : gset string)) as Hunique.
  { rewrite (wf_visitors _ Hwf), size_items.
    - apply length_first_views_empty.
    - eapply sublist_NoDup; [exact Hnd|].
      apply fmap_sublist, first_views_sublist. }
  split; [done|]. split; [done|].
  split; [rewrite Hby; by apply size_items|]. split; [done|].
  split; [by rewrite Hunique, size_list_to_set_remove_dups|].
  intros now r Hr.
  destruct (getStats_handler_figures _ _ _ Hr) as (_ & -> & -> & _).
  by rewrite Htotal, Hunique.
Qed.

Lemma aggregates_agree_with_scan_witness :
  let s := run one_session_three_paths emptyStore in
  getStats_handler 2000000 s = Some stats_of_three_paths
  ∧ size (totalPageViews s) = StatsResult.totalPageViews stats_of_three_paths
  ∧ size (uniqueVisitors s) = StatsResult.uniqueVisitors stats_of_three_paths.
Proof.
  intros s.
  pose proof (proj1 (proj2 (proj2 (proj2 stats_examples)))) as Hr. fold s in Hr.
  split; [exact Hr|].
  exact (proj2 (proj2 (proj2 (proj2 (proj2
           (aggregates_agree_with_scan one_session_three_paths)))))
           2000000 stats_of_three_paths Hr).
Defined.

(** X3.  For every store, backfillAggregates returns as [processed] the
    number of stored views and as [uniqueSessions] the number of distinct
    sessionId values among them: the totalPageViews and the uniqueVisitors of
    whatever getStats returns for that store. *)
Theorem backfill_counts_are_stats s :
  processed (snd (backfillAggregates s)) = length (pageViews s)
  ∧ uniqueSessions (snd (backfillAggregates s))
    = length (remove_dups (PageView.sessionId <$> pageViews s))
  ∧ ∀ now r, getStats_handler now s = Some r →
             processed (snd (backfillAggregates s))
             = StatsResult.totalPageViews r
             ∧ uniqueSessions (snd (backfillAggregates s))
               = StatsResult.uniqueVisitors r.
Proof.
  rewrite backfillAggregates_result. cbn [processed uniqueSessions].
  rewrite length_first_views_empty.
  split; [done|]. split; [apply size_list_to_set_remove_dups|].
  intros now r Hr.
  by destruct (getStats_handler_figures _ _ _ Hr) as (_ & -> & -> & _).
Qed.

Lemma backfill_counts_are_stats_witness :
  getStats_handler 50 views_and_sessions = Some views_and_sessions_stats
  ∧ processed (snd (backfillAggregates views_and_sessions))
    = StatsResult.totalPageViews views_and_sessions_stats
  ∧ uniqueSessions (snd (backfillAggregates views_and_sessions))
    = StatsResult.uniqueVisitors views_and_sessions_stats.
Proof.
  pose proof (proj2 (proj2 (proj2 (proj2 stats_examples)))) as Hr.
  split; [exact Hr|].
  exact (proj2 (proj2 (backfill_counts_are_stats views_and_sessions))
           50 views_and_sessions_stats Hr).
Defined.

Lemma getStats_handler_view_side now now' s s' r r' :
  pageViews s' = pageViews s → posts s' = posts s → pages s' = pages s →
  getStats_handler now s = Some r →
  getStats_handler now' s' = Some r' →
  StatsResult.totalPageViews r' = StatsResult.totalPageViews r
  ∧ StatsResult.uniqueVisitors r' = StatsResult.uniqueVisitors r
  ∧ StatsResult.publishedPosts r' = StatsResult.publishedPosts r
  ∧ StatsResult.publishedPages r' = StatsResult.publishedPages r
  ∧ StatsResult.trackingSince r' = StatsResult.trackingSince r
  ∧ StatsResult.pageStats r' = StatsResult.pageStats r.
Proof.
  intros Hviews Hposts Hpages. unfold getStats_handler.
  rewrite Hviews, Hposts, Hpages.
  destruct (js_numbers (js_count (PageView.path <$> _))); [|by repeat case_match].
  destruct (js_numbers (js_count (ActiveSession.currentPath <$> _))); [|done].
  destruct (js_numbers (js_count (ActiveSession.currentPath <$> _))); [|done].
  by intros [= <-] [= <-].
Qed.

Lemma getStats_handler_session_side now s s' r r' :
  activeSessions s' = activeSessions s →
  getStats_handler now s = Some r →
  getStats_handler now s' = Some r' →
  StatsResult.activeVisitors r' = StatsResult.activeVisitors r
  ∧ StatsResult.activeByPath r' = StatsResult.activeByPath r.
Proof.
  intros Hrows. unfold getStats_handler, activeNow. rewrite Hrows.
  destruct (js_numbers (js_count (ActiveSession.currentPath <$> _))); [|done].
  destruct (js_numbers (js_count (PageView.path <$> _))); [|done].
  destruct (js_numbers (js_count (PageView.path <$> _))); [|done].
  by intros [= <-] [= <-].
Qed.

(** X7.  After heartbeat(sessionId, currentPath) the session has a row that
    getStats at the same time reads as active, with the given path and a
    lastSeen less than 10 seconds old, so whatever getStats returns then has
    activeVisitors > 0; and the same call repeated at the same time changes
    nothing. *)
Theorem heartbeat_settles now sid p s :
  let s' := heartbeat now sid p s in
  (∃ r, r ∈ activeNow now s'
        ∧ ActiveSession.sessionId r = sid
        ∧ ActiveSession.currentPath r = p
        ∧ now - ActiveSession.lastSeen r < HEARTBEAT_DEDUP_MS)
  ∧ (∀ res, getStats_handler now s' = Some res →
            (0 < StatsResult.activeVisitors res)%nat)
  ∧ heartbeat now sid p s' = s'.
Proof.
  intros s'. destruct (heartbeat_row now sid p s) as (r & Hr & Hp & Hlt).
  fold s' in Hr.
  assert (r ∈ activeNow now s') as Hactive.
  { pose proof (existing_Some _ _ _ Hr) as [Hin _].
    unfold activeNow, by_lastSeen_gt. apply list_elem_of_filter.
    split; [|done]. unfold SESSION_TIMEOUT_MS, HEARTBEAT_DEDUP_MS in *. lia. }
  split; [|split].
  - exists r. split; [done|]. split; [|done].
    by apply existing_Some in Hr as [_ ?].
  - intros res Hres.
    destruct (getStats_handler_figures _ _ _ Hres) as (-> & _).
    cbn [getStats Stats.activeVisitors].
    destruct (activeNow now s'); [by apply elem_of_nil in Hactive|cbn; lia].
  - unfold heartbeat at 1. rewrite Hr. by rewrite decide_True.
Qed.

Lemma heartbeat_settles_witness :
  getStats_handler 0 (heartbeat 0 "s1" "/a" emptyStore)
  = Some (StatsResult.mk 1 [("/a", 1%nat)] 0 0 0 0 None [])
  ∧ (0 < 1)%nat.
Proof.
  assert (Hres : getStats_handler 0 (heartbeat 0 "s1" "/a" emptyStore)
                 = Some (StatsResult.mk 1 [("/a", 1%nat)] 0 0 0 0 None []))
    by (vm_compute; reflexivity).
  split; [exact Hres|].
  exact (proj1 (proj2 (heartbeat_settles 0 "s1" "/a" emptyStore)) _ Hres).
Defined.

(** X10.  Where getStats returns before and after a call, its view figures
    (totalPageViews, uniqueVisitors, trackingSince, pageStats) are those
    before a heartbeat or a cleanup, its session figures (activeVisitors,
    activeByPath) are those before a recordPageView, and after a backfill it
    returns the same object. *)
Theorem view_and_session_figures_are_separate now t s r :
  getStats_handler now s = Some r →
  (∀ sid p r', getStats_handler now (heartbeat t sid p s) = Some r' →
     StatsResult.totalPageViews r' = StatsResult.totalPageViews r
     ∧ StatsResult.uniqueVisitors r' = StatsResult.uniqueVisitors r
     ∧ StatsResult.trackingSince r' = StatsResult.trackingSince r
     ∧ StatsResult.pageStats r' = StatsResult.pageStats r)
  ∧ (∀ r', getStats_handler now (fst (cleanupStaleSessions t s)) = Some r' →
     StatsResult.totalPageViews r' = StatsResult.totalPageViews r
     ∧ StatsResult.uniqueVisitors r' = StatsResult.uniqueVisitors r
     ∧ StatsResult.trackingSince r' = StatsResult.trackingSince r
     ∧ StatsResult.pageStats r' = StatsResult.pageStats r)
  ∧ (∀ p pt sid r',
       getStats_handler now (recordPageView t p pt sid s) = Some r' →
       StatsResult.activeVisitors r' = StatsResult.activeVisitors r
       ∧ StatsResult.activeByPath r' = StatsResult.activeByPath r)
  ∧ getStats_handler now (fst (backfillAggregates s)) = Some r.
Proof.
  intros Hr. split; [|split; [|split]].
  - intros sid p r' Hr'. destruct (heartbeat_frame t sid p s) as (rows & n & Heq).
    rewrite Heq in Hr'.
    by destruct (getStats_handler_view_side now now s
                   (with_activeSessions s rows n) r r' eq_refl eq_refl
                   eq_refl Hr Hr') as (? & ? & _ & _ & ? & ?).
  - intros r' Hr'. unfold cleanupStaleSessions in Hr'. cbn [fst] in Hr'.
    rewrite delete_all_rows in Hr'.
    by destruct (getStats_handler_view_side now now s
                   (with_activeSessions s _ _) r r' eq_refl eq_refl
                   eq_refl Hr Hr') as (? & ? & _ & _ & ? & ?).
  - intros p pt sid r' Hr'.
    destruct (recordPageView_other_tables t p pt sid s) as (Hrows & _).
    exact (getStats_handler_session_side now s _ r r' Hrows Hr Hr').
  - by rewrite backfillAggregates_store.
Qed.

Lemma view_and_session_figures_are_separate_witness :
  getStats_handler 50 views_and_sessions = Some views_and_sessions_stats
  ∧ getStats_handler 50 (fst (backfillAggregates views_and_sessions))
    = Some views_and_sessions_stats.
Proof.
  pose proof (proj2 (proj2 (proj2 (proj2 stats_examples)))) as Hr.
  split; [exact Hr|].
  exact (proj2 (proj2 (proj2
           (view_and_session_figures_are_separate 50 60 views_and_sessions
              views_and_sessions_stats Hr)))).
Defined.

(** X11.  When getStats returns and every stored path starts with "/",
    pageStats is sorted by views, highest first, has one entry for each
    stored path and no other, each with the number of stored views of its
    path, which is not 0, and the views add up to totalPageViews. *)
Theorem pageStats_counts now s r :
  Forall rooted (PageView.path <$> pageViews s) →
  getStats_handler now s = Some r →
  let stats := StatsResult.pageStats r in
  StronglySorted (λ a b, (PageStat.views b ≤ PageStat.views a)%nat) stats
  ∧ NoDup (PageStat.path <$> stats)
  ∧ (∀ p, p ∈ PageStat.path <$> stats ↔ p ∈ PageView.path <$> pageViews s)
  ∧ (∀ e, e ∈ stats →
          PageStat.views e
          = length (filter (λ d, PageView.path d = PageStat.path e) (pageViews s))
          ∧ (0 < PageStat.views e)%nat)
  ∧ sum_list (PageStat.views <$> stats) = StatsResult.totalPageViews r.
Proof.
  intros Hroot Hr stats. subst stats.
  rewrite (getStats_handler_pageStats _ _ _ Hroot Hr).
  destruct (getStats_handler_figures _ _ _ Hr) as (_ & -> & _).
  destruct (getStats_pageStats_counts now s Hroot)
    as (Hsorted & Hnd & Hiff & Hcount & Hsum).
  split; [done|]. split; [done|]. split; [|by split].
  intros p. rewrite list_elem_of_fmap. split.
  - intros (e & -> & He).
    assert (Stats.pathCountsFromDb (getStats now s) !! PageStat.path e
            = Some (PageStat.views e)) as Hget
      by (apply Hiff; by exists e).
    cbn [getStats Stats.pathCountsFromDb] in Hget.
    rewrite count_keys_get in Hget. by apply count_of_Some in Hget as [? _].
  - intros Hp.
    destruct (proj2 (Hiff p (occurrences p (PageView.path <$> pageViews s))))
      as (e & He & Hpe & _); [|by exists e].
    cbn [getStats Stats.pathCountsFromDb]. rewrite count_keys_get.
    unfold count_of. by rewrite decide_True.
Qed.

Lemma pageStats_counts_witness :
  Forall rooted (PageView.path <$> pageViews views_and_sessions)
  ∧ getStats_handler 50 views_and_sessions = Some views_and_sessions_stats
  ∧ sum_list (PageStat.views <$> StatsResult.pageStats views_and_sessions_stats)
    = StatsResult.totalPageViews views_and_sessions_stats.
Proof.
  pose proof views_and_sessions_rooted as Hroot.
  pose proof (proj2 (proj2 (proj2 (proj2 stats_examples)))) as Hr.
  do 2 (split; [assumption|]).
  exact (proj2 (proj2 (proj2 (proj2
           (pageStats_counts 50 views_and_sessions views_and_sessions_stats
              Hroot Hr))))).
Defined.

(** X13.  When getStats returns and the path of every active session starts
    with "/", activeByPath is sorted by count, highest first, has one entry
    for each path of an active session and no other, each with the number of
    active sessions on its path, which is not 0, and the counts add up to
    activeVisitors. *)
Theorem activeByPath_counts now s r :
  Forall rooted (ActiveSession.currentPath <$> activeNow now s) →
  getStats_handler now s = Some r →
  let entries := StatsResult.activeByPath r in
  StronglySorted (λ a b : string * nat, (b.2 ≤ a.2)%nat) entries
  ∧ NoDup entries.*1
  ∧ (∀ p, p ∈ entries.*1 ↔ p ∈ ActiveSession.currentPath <$> activeNow now s)
  ∧ (∀ p c, (p, c) ∈ entries →
            c = length (filter (λ r, ActiveSession.currentPath r = p)
                               (activeNow now s))
            ∧ (0 < c)%nat)
  ∧ sum_list entries.*2 = StatsResult.activeVisitors r.
Proof.
  intros Hroot Hr entries. subst entries.
  rewrite (getStats_handler_activeByPath _ _ _ Hroot Hr).
  destruct (getStats_handler_figures _ _ _ Hr) as (-> & _).
  destruct (getStats_activeByPath_counts now s Hroot)
    as (Hsorted & Hnd & Hiff & Hcount & Hsum).
  split; [done|]. split; [done|]. split; [|by split].
  intros p. rewrite list_elem_of_fmap. split.
  - intros ([q c] & -> & He). cbn [fst].
    apply Hiff in He. cbn [getStats Stats.activeByPathMap] in He.
    rewrite count_keys_get in He. by apply count_of_Some in He as [? _].
  - intros Hp.
    exists (p, occurrences p (ActiveSession.currentPath <$> activeNow now s)).
    split; [done|]. apply Hiff.
    cbn [getStats Stats.activeByPathMap]. rewrite count_keys_get.
    unfold count_of. by rewrite decide_True.
Qed.

Lemma activeByPath_counts_witness :
  Forall rooted (ActiveSession.currentPath <$> activeNow 50 views_and_sessions)
  ∧ getStats_handler 50 views_and_sessions = Some views_and_sessions_stats
  ∧ sum_list (StatsResult.activeByPath views_and_sessions_stats).*2
    = StatsResult.activeVisitors views_and_sessions_stats.
Proof.
  assert (Hroot : Forall rooted (ActiveSession.currentPath
                                   <$> activeNow 50 views_and_sessions))
    by (vm_compute; by repeat constructor).
  pose proof (proj2 (proj2 (proj2 (proj2 stats_examples)))) as Hr.
  do 2 (split; [assumption|]).
  exact (proj2 (proj2 (proj2 (proj2
           (activeByPath_counts 50 views_and_sessions views_and_sessions_stats
              Hroot Hr))))).
Defined.

(** X14.  After any sequence of calls from the empty store, the
    activeVisitors that getStats returns is the number of distinct sessions
    among the active rows. *)
Theorem activeVisitors_distinct_sessions calls now r :
  let s := run calls emptyStore in
  getStats_handler now s = Some r →
  StatsResult.activeVisitors r
  = size (list_to_set (ActiveSession.sessionId <$> activeNow now s)
          : gset string).
Proof.
  intros s Hr. destruct (getStats_handler_figures _ _ _ Hr) as (-> & _).
  apply activeNow_distinct_sessions.
Qed.

Lemma activeVisitors_distinct_sessions_witness :
  let s := run heartbeats_and_cleanup emptyStore in
  getStats_handler 130000 s = Some stats_of_heartbeats
  ∧ StatsResult.activeVisitors stats_of_heartbeats
    = size (list_to_set (ActiveSession.sessionId <$> activeNow 130000 s)
            : gset string).
Proof.
  intros s.
  pose proof (proj1 (proj2 (proj2 stats_examples))) as Hr. fold s in Hr.
  split; [exact Hr|].
  exact (activeVisitors_distinct_sessions heartbeats_and_cleanup 130000
           stats_of_heartbeats Hr).
Defined.

(** X15.  With a clock that does not go back, the trackingSince that getStats
    returns is the timestamp of the first stored view, and once it has
    returned a trackingSince, every later result has the same one. *)
Theorem trackingSince_is_first_view calls more now now' :
  nondecreasing_clock (calls ++ more) →
  let s := run calls emptyStore in
  let s' := run (calls ++ more) emptyStore in
  (∀ r, getStats_handler now s = Some r →
        StatsResult.trackingSince r
        = PageView.timestamp <$> head (pageViews s))
  ∧ (∀ r r' t, getStats_handler now s = Some r →
               getStats_handler now' s' = Some r' →
               StatsResult.trackingSince r = Some t →
               StatsResult.trackingSince r' = Some t).
Proof.
  intros Hclock s s'.
  destruct (first_view_is_earliest calls more now now' Hclock) as [Hfirst Hkeep].
  fold s in Hfirst, Hkeep. fold s' in Hkeep. split.
  - intros r Hr.
    by destruct (getStats_handler_figures _ _ _ Hr) as (_ & _ & _ & _ & _ & ->).
  - intros r r' t Hr Hr'.
    destruct (getStats_handler_figures _ _ _ Hr) as (_ & _ & _ & _ & _ & ->).
    destruct (getStats_handler_figures _ _ _ Hr') as (_ & _ & _ & _ & _ & ->).
    apply Hkeep.
Qed.

Lemma trackingSince_is_first_view_witness :
  nondecreasing_clock (two_views_at_the_boundary ++ two_more_calls)
  ∧ getStats_handler 0 (run two_views_at_the_boundary emptyStore)
    = Some stats_at_the_boundary
  ∧ getStats_handler 0
      (run (two_views_at_the_boundary ++ two_more_calls) emptyStore)
    = Some stats_after_two_more
  ∧ StatsResult.trackingSince stats_at_the_boundary = Some 0
  ∧ StatsResult.trackingSince stats_after_two_more = Some 0.
Proof.
  assert (Hclock : nondecreasing_clock
                     (two_views_at_the_boundary ++ two_more_calls))
    by (vm_compute; intuition discriminate).
  pose proof (proj1 stats_examples) as Hr.
  pose proof (proj1 (proj2 stats_examples)) as Hr'.
  assert (Hsince : StatsResult.trackingSince stats_at_the_boundary = Some 0)
    by reflexivity.
  do 4 (split; [assumption|]).
  exact (proj2 (trackingSince_is_first_view two_views_at_the_boundary
                  two_more_calls 0 0 Hclock)
           stats_at_the_boundary stats_after_two_more 0 Hr Hr' Hsince).
Defined.

(** * Properties of the raw-markdown function *)

Import Raw.

Example normalizeSlug_examples :
  normalizeSlug (Some (lit "  /posts/hello/ ")) = lit "posts/hello"
  ∧ normalizeSlug (Some (lit " /// ")) = []
  ∧ normalizeSlug (Some (lit "/ /")) = lit " "
  ∧ normalizeSlug None = []
  ∧ fileName (lit "a.md") = lit "a.md"
  ∧ fileName (lit "md") = lit "md.md".
Proof. vm_compute. done. Qed.

Lemma trim_nil : trim [] = [].
Proof. done. Qed.

Lemma tryRead_Some f text : tryRead f = Some text ↔ usable f text.
Proof.
  unfold usable. destruct f as [| |t]; cbn [tryRead].
  - split; [done|]. by intros [? _].
  - split; [done|]. by intros [? _].
  - destruct (decide (t = [])) as [->|Hne].
    + cbn. split; [done|]. by intros [[= <-] ?].
    + rewrite (bool_decide_eq_false_2 (t = [])) by done. cbn [orb].
      destruct (decide (length (trim t) = 0%nat)) as [Hlen|Hlen].
      * rewrite bool_decide_eq_true_2 by done. split; [done|].
        intros [[= <-] Htrim]. by apply nil_length_inv in Hlen.
      * rewrite bool_decide_eq_false_2 by done. split.
        -- intros [= ->]. split; [done|]. intros Htrim. by rewrite Htrim in Hlen.
        -- by intros [[= ->] _].
Qed.

Lemma tryRead_None f : tryRead f = None ↔ ¬ ∃ text, usable f text.
Proof.
  split.
  - intros Hnone [text Htext]. apply tryRead_Some in Htext. congruence.
  - intros Hno. destruct (tryRead f) as [text|] eqn:Hread; [|done].
    destruct Hno. exists text. by apply tryRead_Some.
Qed.

Lemma usable_truthy f text : usable f text → truthy (Some text) = true.
Proof. intros [_ Htrim]. by destruct text. Qed.

Lemma handler_missing_slug fs event :
  normalizeSlug (queryStringParameters event ≫= Raw.slug) = [] →
  handler fs event = mkResponse 400 plainHeaders (lit "missing slug").
Proof. intros Hslug. unfold handler. by rewrite Hslug. Qed.

Lemma handler_with_slug fs event :
  normalizeSlug (queryStringParameters event ≫= Raw.slug) ≠ [] →
  let filename :=
    fileName (normalizeSlug (queryStringParameters event ≫= Raw.slug)) in
  handler fs event
  = match readCandidates fs filename [PublicRaw; DistRaw] None with
    | Some (c :: text) =>
        mkResponse 200
          (plainHeaders ++ [("Cache-Control", "public, max-age=3600")])
          (c :: text)
    | _ => mkResponse 404 plainHeaders (lit "not found: " ++ filename)
    end.
Proof.
  intros Hslug filename. unfold handler.
  by rewrite bool_decide_eq_false_2 by done.
Qed.

Lemma readCandidates_public fs filename text :
  usable (fs PublicRaw filename) text →
  readCandidates fs filename [PublicRaw; DistRaw] None = Some text.
Proof.
  intros Hpub. cbn [readCandidates].
  rewrite (proj2 (tryRead_Some _ _) Hpub).
  by rewrite (usable_truthy _ _ Hpub).
Qed.

Lemma readCandidates_dist fs filename text :
  (¬ ∃ t, usable (fs PublicRaw filename) t) →
  usable (fs DistRaw filename) text →
  readCandidates fs filename [PublicRaw; DistRaw] None = Some text.
Proof.
  intros Hpub Hdist. cbn [readCandidates].
  rewrite (proj2 (tryRead_None _) Hpub). cbn [truthy].
  rewrite (proj2 (tryRead_Some _ _) Hdist).
  by rewrite (usable_truthy _ _ Hdist).
Qed.

Lemma readCandidates_none fs filename :
  (¬ ∃ t, usable (fs PublicRaw filename) t) →
  (¬ ∃ t, usable (fs DistRaw filename) t) →
  readCandidates fs filename [PublicRaw; DistRaw] None = None.
Proof.
  intros Hpub Hdist. cbn [readCandidates].
  rewrite (proj2 (tryRead_None _) Hpub). cbn [truthy].
  by rewrite (proj2 (tryRead_None _) Hdist).
Qed.

(** C10, amended.  The handler answers 400 with body "missing slug" exactly
    when the normalized slug is empty.  Otherwise, with [filename] the slug
    with ".md" appended unless it ends in ".md": it answers 200 with the text
    of public/raw/filename when that file can be read and holds more than
    white space, else 200 with the text of dist/raw/filename when that one
    can be read and holds more than white space, else 404. *)
Theorem handler_responses fs event :
  let slug := normalizeSlug (queryStringParameters event ≫= Raw.slug) in
  let filename := fileName slug in
  let r := handler fs event in
  (statusCode r = 400 ∧ body r = lit "missing slug" ↔ slug = [])
  ∧ (slug ≠ [] →
     (∀ text, usable (fs PublicRaw filename) text →
              statusCode r = 200 ∧ body r = text)
     ∧ (∀ text, (¬ ∃ t, usable (fs PublicRaw filename) t) →
                usable (fs DistRaw filename) text →
                statusCode r = 200 ∧ body r = text)
     ∧ ((¬ ∃ t, usable (fs PublicRaw filename) t) →
        (¬ ∃ t, usable (fs DistRaw filename) t) →
        statusCode r = 404 ∧ body r = lit "not found: " ++ filename)).
Proof.
  intros slug filename r. split.
  - split.
    + intros [Hstatus _].
      destruct (decide (slug = [])) as [|Hne]; [done|]. exfalso.
      subst r. rewrite handler_with_slug in Hstatus by done.
      by destruct (readCandidates _ _ _ _) as [[|c text]|].
    + intros Hslug. subst r. by rewrite handler_missing_slug.
  - intros Hne. subst r. rewrite handler_with_slug by done.
    fold slug. fold filename. split; [|split].
    + intros text Hpub. rewrite (readCandidates_public _ _ _ Hpub).
      destruct Hpub as [_ Htrim]. by destruct text.
    + intros text Hpub Hdist. rewrite (readCandidates_dist _ _ _ Hpub Hdist).
      destruct Hdist as [_ Htrim]. by destruct text.
    + intros Hpub Hdist. by rewrite (readCandidates_none _ _ Hpub Hdist).
Qed.

Lemma handler_responses_witness :
  let r := handler public_then_dist (request " /hello/ ") in
  normalizeSlug (Some (lit " /hello/ ")) ≠ []
  ∧ usable (public_then_dist PublicRaw (lit "hello.md")) (lit "# Hello")
  ∧ statusCode r = 200 ∧ body r = lit "# Hello".
Proof.
  intros r.
  assert (Hslug : normalizeSlug (Some (lit " /hello/ ")) ≠ [])
    by (vm_compute; discriminate).
  assert (Hpub : usable (public_then_dist PublicRaw (lit "hello.md"))
                        (lit "# Hello"))
    by (split; [reflexivity|vm_compute; discriminate]).
  do 2 (split; [assumption|]).
  exact (proj1 (proj2 (handler_responses public_then_dist
                         (request " /hello/ ")) Hslug)
           (lit "# Hello") Hpub).
Defined.

(** C10 as described fails on a file that holds only white space: the
    handler answers 404 where the description gives 200. *)
Lemma blank_file_is_not_found :
  statusCode (handler blank_public_file (request "a")) = 404
  ∧ nonEmptyFile (blank_public_file PublicRaw (lit "a.md")) (lit " ")
  ∧ ¬ responds_as_described blank_public_file (request "a").
Proof.
  split; [by vm_compute|]. split; [split; [done|by vm_compute]|].
  intros [_ Hfound].
  assert (normalizeSlug (queryStringParameters (request "a") ≫= Raw.slug) ≠ [])
    as Hslug by (vm_compute; discriminate).
  destruct (Hfound Hslug) as [Hpub _].
  destruct (Hpub (lit " ")) as [Hstatus _].
  - split; [done|by vm_compute].
  - vm_compute in Hstatus. discriminate.
Qed.

(** ** Slugs and file names *)

Lemma dropStart_split (f : N → bool) s :
  ∃ l, s = l ++ dropStart f s
       ∧ Forall (λ c, f c = true) l
       ∧ ∀ c, head (dropStart f s) = Some c → f c = false.
Proof.
  induction s as [|c s (l & Hs & Hl & Hhead)].
  - exists []. by repeat split.
  - cbn [dropStart]. destruct (f c) eqn:Hc.
    + exists (c :: l). split; [cbn; by f_equal|]. split; [by constructor|done].
    + exists []. split; [done|]. split; [constructor|]. by intros ? [= <-].
Qed.

Lemma dropEnd_split (f : N → bool) s :
  ∃ r, s = dropEnd f s ++ r
       ∧ Forall (λ c, f c = true) r
       ∧ ∀ c, last (dropEnd f s) = Some c → f c = false.
Proof.
  destruct (dropStart_split f (reverse s)) as (l & Hs & Hl & Hhead).
  exists (reverse l). unfold dropEnd. split; [|split].
  - rewrite <- reverse_app, <- Hs. by rewrite reverse_involutive.
  - by apply Forall_reverse.
  - intros c. rewrite last_reverse. apply Hhead.
Qed.

Lemma dropStart_all (f : N → bool) s :
  Forall (λ c, f c = true) s → dropStart f s = [].
Proof.
  induction 1 as [|c s Hc _ IH]; [done|]. cbn [dropStart]. by rewrite Hc.
Qed.

Lemma drop_both_nil (f : N → bool) s :
  dropEnd f (dropStart f s) = [] ↔ Forall (λ c, f c = true) s.
Proof.
  split.
  - intros Hnil. destruct (dropStart_split f s) as (l & Hs & Hl & _).
    destruct (dropEnd_split f (dropStart f s)) as (r & Hd & Hr & _).
    rewrite Hnil in Hd. cbn in Hd. rewrite Hs, Hd. by apply Forall_app.
  - intros Hall. by rewrite dropStart_all.
Qed.

(** X16.  The normalized slug is a segment of the parameter (of "" when the
    parameter is missing): what is left when white space at both ends, then
    slashes at both ends, are removed; it neither begins nor ends with a
    slash. *)
Theorem normalizeSlug_segment input :
  ∃ w1 s1 s2 w2,
    default [] input = w1 ++ s1 ++ normalizeSlug input ++ s2 ++ w2
    ∧ Forall (λ c, isWhiteSpace c = true) w1
    ∧ Forall (λ c, isSlash c = true) s1
    ∧ Forall (λ c, isSlash c = true) s2
    ∧ Forall (λ c, isWhiteSpace c = true) w2
    ∧ (∀ c, head (normalizeSlug input) = Some c → isSlash c = false)
    ∧ (∀ c, last (normalizeSlug input) = Some c → isSlash c = false).
Proof.
  unfold normalizeSlug, stripSlashes, trim. set (s := default [] input).
  destruct (dropStart_split isWhiteSpace s) as (w1 & Hs & Hw1 & _).
  destruct (dropEnd_split isWhiteSpace (dropStart isWhiteSpace s))
    as (w2 & Ht & Hw2 & _).
  set (t := dropEnd isWhiteSpace (dropStart isWhiteSpace s)) in *.
  destruct (dropStart_split isSlash t) as (s1 & Hu & Hs1 & Hhead).
  destruct (dropEnd_split isSlash (dropStart isSlash t)) as (s2 & Hr & Hs2 & Hlast).
  set (r := dropEnd isSlash (dropStart isSlash t)) in *.
  exists w1, s1, s2, w2. split.
  { rewrite Hs at 1. rewrite Ht at 1. rewrite Hu at 1. rewrite Hr at 1.
    by rewrite <- !app_assoc. }
  do 4 (split; [done|]). split; [|done].
  intros c Hc. apply Hhead. rewrite Hr. destruct r; [done|]. done.
Qed.

Lemma normalizeSlug_segment_witness :
  head (normalizeSlug (Some (lit " /a/b/ "))) = Some 97%N
  ∧ isSlash 97 = false.
Proof.
  assert (Hhead : head (normalizeSlug (Some (lit " /a/b/ "))) = Some 97%N)
    by (vm_compute; reflexivity).
  split; [exact Hhead|].
  destruct (normalizeSlug_segment (Some (lit " /a/b/ ")))
    as (w1 & s1 & s2 & w2 & _ & _ & _ & _ & _ & Hfirst & _).
  exact (Hfirst 97%N Hhead).
Defined.

(** X17.  The handler answers 400 exactly when the slug parameter, trimmed,
    consists of slashes only (it may be missing or empty). *)
Theorem handler_missing_slug_iff fs event :
  statusCode (handler fs event) = 400
  ↔ Forall (λ c, isSlash c = true)
           (trim (default [] (queryStringParameters event ≫= Raw.slug))).
Proof.
  rewrite <- drop_both_nil.
  change (dropEnd isSlash (dropStart isSlash
            (trim (default [] (queryStringParameters event ≫= Raw.slug)))))
    with (normalizeSlug (queryStringParameters event ≫= Raw.slug)).
  split.
  - intros Hstatus.
    destruct (decide (normalizeSlug (queryStringParameters event ≫= Raw.slug) = []))
      as [|Hne]; [done|]. exfalso.
    rewrite handler_with_slug in Hstatus by done.
    by destruct (readCandidates _ _ _ _) as [[|c text]|].
  - intros Hslug. by rewrite handler_missing_slug.
Qed.

Lemma handler_missing_slug_iff_witness :
  Forall (λ c, isSlash c = true)
         (trim (default [] (queryStringParameters (request " // ") ≫= Raw.slug)))
  ∧ statusCode (handler blank_public_file (request " // ")) = 400.
Proof.
  assert (Hall : Forall (λ c, isSlash c = true)
                   (trim (default []
                      (queryStringParameters (request " // ") ≫= Raw.slug))))
    by (vm_compute; by repeat constructor).
  split; [exact Hall|].
  exact (proj2 (handler_missing_slug_iff blank_public_file (request " // ")) Hall).
Defined.

Lemma endsWith_app s suffix : endsWith (s ++ suffix) suffix = true.
Proof.
  unfold endsWith. rewrite length_app.
  rewrite bool_decide_eq_true_2 by lia. cbn [andb].
  apply bool_decide_eq_true.
  replace (length s + length suffix - length suffix)%nat with (length s) by lia.
  apply drop_app_length.
Qed.

(** X18.  The file name ends in ".md" and begins with the slug; it is the
    slug itself exactly when the slug ends in ".md"; naming is idempotent,
    and a slug that does not end in ".md" names the same file as the slug
    with ".md" appended. *)
Theorem fileName_md s :
  endsWith (fileName s) (lit ".md") = true
  ∧ s `prefix_of` fileName s
  ∧ (fileName s = s ↔ endsWith s (lit ".md") = true)
  ∧ fileName (fileName s) = fileName s
  ∧ (endsWith s (lit ".md") = false → fileName (s ++ lit ".md") = fileName s).
Proof.
  assert (endsWith (fileName s) (lit ".md") = true) as Hends.
  { unfold fileName. destruct (endsWith s (lit ".md")) eqn:Hs; [done|].
    apply endsWith_app. }
  split; [done|]. split; [|split; [|split]].
  - unfold fileName. destruct (endsWith s (lit ".md")); [done|].
    by apply prefix_app_r.
  - unfold fileName. destruct (endsWith s (lit ".md")) eqn:Hs; [done|].
    split; [|done]. intros Heq. apply (f_equal length) in Heq.
    rewrite length_app in Heq. cbn in Heq. lia.
  - unfold fileName at 1. by rewrite Hends.
  - intros Hs. unfold fileName. by rewrite endsWith_app, Hs.
Qed.

Lemma fileName_md_witness :
  endsWith (lit "posts/hello") (lit ".md") = false
  ∧ fileName (lit "posts/hello" ++ lit ".md") = fileName (lit "posts/hello").
Proof.
  assert (Hs : endsWith (lit "posts/hello") (lit ".md") = false)
    by (vm_compute; reflexivity).
  split; [exact Hs|].
  exact (proj2 (proj2 (proj2 (proj2 (fileName_md (lit "posts/hello"))))) Hs).
Defined.

Lemma readCandidates_Some fs filename text :
  readCandidates fs filename [PublicRaw; DistRaw] None = Some text →
  usable (fs PublicRaw filename) text ∨ usable (fs DistRaw filename) text.
Proof.
  cbn [readCandidates].
  destruct (tryRead (fs PublicRaw filename)) as [t|] eqn:Hpub.
  - apply tryRead_Some in Hpub. rewrite (usable_truthy _ _ Hpub).
    intros [= ->]. by left.
  - cbn [truthy].
    destruct (tryRead (fs DistRaw filename)) as [t|] eqn:Hdist; [|by destruct (truthy None)].
    apply tryRead_Some in Hdist. rewrite (usable_truthy _ _ Hdist).
    intros [= ->]. by right.
Qed.

(** X19.  The status of a response is 200, 400 or 404.  A 200 response
    carries the text of public/raw/filename or of dist/raw/filename, and that
    text is never blank.  Every response is text/plain and allows any
    origin; the Cache-Control header is set exactly on a 200 response. *)
Theorem handler_response_shape fs event :
  let filename :=
    fileName (normalizeSlug (queryStringParameters event ≫= Raw.slug)) in
  let r := handler fs event in
  statusCode r ∈ [200; 400; 404]
  ∧ (statusCode r = 200 →
     trim (body r) ≠ []
     ∧ (fs PublicRaw filename = Contents (body r)
        ∨ fs DistRaw filename = Contents (body r)))
  ∧ ("Content-Type", "text/plain; charset=utf-8") ∈ headers r
  ∧ ("Access-Control-Allow-Origin", "*") ∈ headers r
  ∧ (("Cache-Control", "public, max-age=3600") ∈ headers r ↔ statusCode r = 200).
Proof.
  intros filename r.
  destruct (decide (normalizeSlug (queryStringParameters event ≫= Raw.slug) = []))
    as [Hslug|Hslug].
  { subst r. rewrite handler_missing_slug by done.
    cbn [statusCode body headers plainHeaders].
    split; [set_solver|]. split; [done|]. split; [set_solver|].
    split; [set_solver|]. split; [|done].
    intros Hin. repeat (apply elem_of_cons in Hin as [[=]|Hin]).
    by apply elem_of_nil in Hin. }
  subst r. rewrite handler_with_slug by done. fold filename.
  destruct (readCandidates fs filename [PublicRaw; DistRaw] None)
    as [text|] eqn:Hread.
  - apply readCandidates_Some in Hread.
    assert (trim text ≠ []
            ∧ (fs PublicRaw filename = Contents text
               ∨ fs DistRaw filename = Contents text)) as [Htrim Hfile].
    { destruct Hread as [[? ?]|[? ?]]; split; auto. }
    destruct text as [|c text]; [done|].
    cbn [statusCode body headers plainHeaders app].
    split; [set_solver|]. split; [done|]. split; [set_solver|].
    split; [set_solver|]. split; [done|]. intros _. set_solver.
  - cbn [statusCode body headers plainHeaders].
    split; [set_solver|]. split; [done|]. split; [set_solver|].
    split; [set_solver|]. split; [|done].
    intros Hin. repeat (apply elem_of_cons in Hin as [[=]|Hin]).
    by apply elem_of_nil in Hin.
Qed.

Lemma handler_response_shape_witness :
  let r := handler public_then_dist (request "hello.md") in
  statusCode r = 200
  ∧ trim (body r) ≠ []
  ∧ (public_then_dist PublicRaw (lit "hello.md") = Contents (body r)
     ∨ public_then_dist DistRaw (lit "hello.md") = Contents (body r)).
Proof.
  intros r.
  assert (Hok : statusCode r = 200) by (vm_compute; reflexivity).
  split; [exact Hok|].
  exact (proj1 (proj2 (handler_response_shape public_then_dist
                         (request "hello.md"))) Hok).
Defined.
